(** * hexward: cube coordinates, rings, spiral indexing and the sparse map

    A shallow embedding of [hexward/hex_util.py], [hexward/hex_cell.py] and
    [hexward/hex_map.py].  Python [int] is [Z]; Python [float] is IEEE 754
    binary64, taken from the standard library's [SpecFloat]; an exception is
    a value of [exn] carried by the [result] monad; a [dict] is an association
    list in insertion order. *)

From Stdlib Require Import ZArith List Bool Lia.
From Stdlib Require Import Floats.SpecFloat.
From Stdlib Require String.
Import String.StringSyntax.
Delimit Scope string_scope with string.
Import ListNotations.
Local Open Scope Z_scope.

(** ** Python runtime: exceptions, sequences *)

Module Py.

Inductive exn : Set :=
| ValueError | IndexError | KeyError | TypeError | AttributeError
| OverflowError | ZeroDivisionError.

Inductive result (A : Type) : Type :=
| Ok (a : A)
| Raise (e : exn).
Arguments Ok {A} a.
Arguments Raise {A} e.

Definition bind {A B} (c : result A) (k : A -> result B) : result B :=
  match c with
  | Ok a => k a
  | Raise e => Raise e
  end.

(** [for x in l: s = body x s], stopping at the first exception. *)
Fixpoint for_each {A S} (l : list A) (body : A -> S -> result S) (s : S)
  : result S :=
  match l with
  | [] => Ok s
  | x :: l' => bind (body x s) (for_each l' body)
  end.

(** [range(n)]: empty when [n <= 0]. *)
Definition range (n : Z) : list Z := map Z.of_nat (seq 0 (Z.to_nat n)).

(** [l[i]]: a negative index counts from the end; outside
    [-len(l) .. len(l)-1] it raises IndexError. *)
Definition getitem {A} (l : list A) (i : Z) : result A :=
  let n := Z.of_nat (length l) in
  let j := if i <? 0 then i + n else i in
  if (j <? 0) || (n <=? j) then Raise IndexError
  else match nth_error l (Z.to_nat j) with
       | Some a => Ok a
       | None => Raise IndexError
       end.

(** A method of an object with state [S]: the outcome and the state it
    leaves, which an exception does not roll back. *)
Definition M (S A : Type) : Type := S -> result A * S.

Definition ret_st {S A} (a : A) : M S A := fun st => (Ok a, st).

Definition raise_st {S A} (e : exn) : M S A := fun st => (Raise e, st).

Definition lift_st {S A} (c : result A) : M S A := fun st => (c, st).

Definition bind_st {S A B} (c : M S A) (k : A -> M S B) : M S B :=
  fun st =>
    match c st with
    | (Ok a, st') => k a st'
    | (Raise e, st') => (Raise e, st')
    end.

(** [for x in l: body x] on the object's state. *)
Fixpoint for_each_st {S A} (l : list A) (body : A -> M S unit) : M S unit :=
  match l with
  | [] => ret_st tt
  | x :: l' => bind_st (body x) (fun _ => for_each_st l' body)
  end.

End Py.
Import Py.

Declare Scope py_scope.
Notation "x <- c ;; k" := (bind c (fun x => k))
  (at level 61, c at next level, right associativity) : py_scope.
Notation "x <~ c ;; k" := (bind_st c (fun x => k))
  (at level 61, c at next level, right associativity) : py_scope.
Local Open Scope py_scope.

(** ** Python numbers: [int] and [float] *)

Module Num.

(** binary64 *)
Definition prec : Z := 53.
Definition emax : Z := 1024.

Inductive num : Set :=
| Int (z : Z)
| Float (f : spec_float).

(** The float that holds the integer [z] exactly, not normalised: an
    operand for the correctly rounded operations below. *)
Definition exact (z : Z) : spec_float :=
  match z with
  | Z0 => S754_zero false
  | Zpos p => S754_finite false p 0
  | Zneg p => S754_finite true p 0
  end.

(** The least magnitude that rounds to 2^1024: the largest double plus
    half a unit in its last place. *)
Definition overflow_threshold : Z := Eval vm_compute in 2 ^ 1024 - 2 ^ 970.

(** [float(z)]: round to nearest, ties to even; OverflowError when the
    rounded value would reach 2^1024. *)
Definition of_int (z : Z) : result spec_float :=
  if Z.abs z <? overflow_threshold
  then Ok (binary_normalize prec emax z 0 false)
  else Raise OverflowError.

Definition is_finite (f : spec_float) : bool :=
  match f with
  | S754_zero _ | S754_finite _ _ _ => true
  | _ => false
  end.

(** The operand of a float operation: an [int] is converted first. *)
Definition as_float (a : num) : result spec_float :=
  match a with
  | Int z => of_int z
  | Float f => Ok f
  end.

Definition add (a b : num) : result num :=
  match a, b with
  | Int x, Int y => Ok (Int (x + y))
  | _, _ =>
      x <- as_float a ;; y <- as_float b ;;
      Ok (Float (SFadd prec emax x y))
  end.

Definition sub (a b : num) : result num :=
  match a, b with
  | Int x, Int y => Ok (Int (x - y))
  | _, _ =>
      x <- as_float a ;; y <- as_float b ;;
      Ok (Float (SFsub prec emax x y))
  end.

Definition mul (a b : num) : result num :=
  match a, b with
  | Int x, Int y => Ok (Int (x * y))
  | _, _ =>
      x <- as_float a ;; y <- as_float b ;;
      Ok (Float (SFmul prec emax x y))
  end.

Definition neg (a : num) : num :=
  match a with
  | Int x => Int (- x)
  | Float f => Float (SFopp f)
  end.

Definition abs (a : num) : num :=
  match a with
  | Int x => Int (Z.abs x)
  | Float f => Float (SFabs f)
  end.

Definition is_zero (f : spec_float) : bool :=
  match f with S754_zero _ => true | _ => false end.

(** [a / b]: int/int is the correctly rounded quotient of the two
    integers (OverflowError when it is too large for a float). *)
Definition truediv (a b : num) : result num :=
  match a, b with
  | Int x, Int y =>
      if y =? 0 then Raise ZeroDivisionError
      else
        let d := SFdiv prec emax (exact x) (exact y) in
        if is_finite d then Ok (Float d) else Raise OverflowError
  | _, _ =>
      x <- as_float a ;; y <- as_float b ;;
      if is_zero y then Raise ZeroDivisionError
      else Ok (Float (SFdiv prec emax x y))
  end.

(** C [fmod] of two finite floats, [y] not zero: exact, with the sign of
    [x]. *)
Definition fmod (x y : spec_float) : spec_float :=
  match x, y with
  | S754_finite sx mx ex, S754_finite _ my ey =>
      let e := Z.min ex ey in
      let X := Zpos mx * 2 ^ (ex - e) in
      let Y := Zpos my * 2 ^ (ey - e) in
      binary_normalize prec emax (cond_Zopp sx (X mod Y)) e sx
  | S754_zero _, S754_finite _ _ _ => x
  | _, _ => S754_nan
  end.

Definition sign_bit (f : spec_float) : bool :=
  match f with
  | S754_zero sg | S754_infinity sg | S754_finite sg _ _ => sg
  | S754_nan => false
  end.

(** [float.__mod__]: [fmod], moved into the sign of the divisor. *)
Definition float_rem (x y : spec_float) : spec_float :=
  let m := fmod x y in
  match m with
  | S754_zero _ => S754_zero (sign_bit y)
  | S754_finite sm _ _ =>
      if Bool.eqb sm (sign_bit y) then m else SFadd prec emax m y
  | _ => m
  end.

(** [a % b]. *)
Definition mod_ (a b : num) : result num :=
  match a, b with
  | Int x, Int y =>
      if y =? 0 then Raise ZeroDivisionError else Ok (Int (x mod y))
  | _, _ =>
      x <- as_float a ;; y <- as_float b ;;
      if is_zero y then Raise ZeroDivisionError
      else Ok (Float (float_rem x y))
  end.

(** Exact comparison of an [int] with a [float]; [None] for nan. *)
Definition compare_int_float (z : Z) (f : spec_float) : option comparison :=
  match f with
  | S754_nan => None
  | S754_infinity sg => Some (if sg then Gt else Lt)
  | S754_zero _ => Some (z ?= 0)
  | S754_finite sg m e =>
      let v := cond_Zopp sg (Zpos m) in
      Some (if 0 <=? e then z ?= v * 2 ^ e else z * 2 ^ (- e) ?= v)
  end.

Definition compare (a b : num) : option comparison :=
  match a, b with
  | Int x, Int y => Some (x ?= y)
  | Int x, Float g => compare_int_float x g
  | Float f, Int y => option_map CompOpp (compare_int_float y f)
  | Float f, Float g => SFcompare f g
  end.

Definition eqb (a b : num) : bool :=
  match compare a b with Some Eq => true | _ => false end.

Definition gtb (a b : num) : bool :=
  match compare a b with Some Gt => true | _ => false end.

(** Half-to-even rounding of [m * 2^e], [e < 0], to an integer. *)
Definition round_half_even (m : positive) (e : Z) : Z :=
  let d := 2 ^ (- e) in
  let k := Zpos m / d in
  let rem := Zpos m mod d in
  match 2 * rem ?= d with
  | Lt => k
  | Gt => k + 1
  | Eq => if Z.even k then k else k + 1
  end.

(** [round(x)] with one argument: an [int]. *)
Definition round (a : num) : result Z :=
  match a with
  | Int x => Ok x
  | Float S754_nan => Raise ValueError
  | Float (S754_infinity _) => Raise OverflowError
  | Float (S754_zero _) => Ok 0
  | Float (S754_finite sg m e) =>
      Ok (cond_Zopp sg
            (if 0 <=? e then Zpos m * 2 ^ e else round_half_even m e))
  end.

(** [int(x)]: truncation toward zero. *)
Definition to_int (a : num) : result Z :=
  match a with
  | Int x => Ok x
  | Float S754_nan => Raise ValueError
  | Float (S754_infinity _) => Raise OverflowError
  | Float (S754_zero _) => Ok 0
  | Float (S754_finite sg m e) =>
      Ok (cond_Zopp sg
            (if 0 <=? e then Zpos m * 2 ^ e else Zpos m / 2 ^ (- e)))
  end.

(** [0.5] and [1.0] *)
Definition half : spec_float :=
  Eval vm_compute in binary_normalize prec emax 1 (-1) false.

Definition one : spec_float :=
  Eval vm_compute in binary_normalize prec emax 1 0 false.

(** [a ** 0.5], as [float_pow] computes it.  An [int] base is converted to
    a float first.  [float_pow] settles the special bases itself: nan gives
    nan, an infinity gives [inf], a zero gives [0.0], [1.0] gives [1.0], and
    a negative base with this exponent gives a [complex], which the only
    caller hands to [int()]: TypeError.  Every other base goes to the C
    library's [pow], whose rounding the language does not fix: [libm_pow]
    is that function, a parameter.  An infinite result of [pow] is reported
    as OverflowError. *)
Definition pow_half (libm_pow : spec_float -> spec_float -> spec_float)
    (a : num) : result num :=
  x <- as_float a ;;
  match x with
  | S754_nan => Ok (Float S754_nan)
  | S754_infinity _ => Ok (Float (S754_infinity false))
  | S754_zero _ => Ok (Float (S754_zero false))
  | S754_finite true _ _ => Raise TypeError
  | S754_finite false _ _ =>
      if SFeqb x one then Ok (Float one)
      else
        match libm_pow x half with
        | S754_infinity _ => Raise OverflowError
        | ix => Ok (Float ix)
        end
  end.

(** [math.sqrt(3)] *)
Definition sqrt3 : spec_float :=
  Eval vm_compute in SFsqrt prec emax (binary_normalize prec emax 3 0 false).

End Num.
Import Num.

(** ** hex_util.py: HexPoint *)

Record HexPoint : Set := mkHexPoint { q : Z; r : Z; s : Z }.

Definition HexPoint_add (a b : HexPoint) : HexPoint :=
  mkHexPoint (q a + q b) (r a + r b) (s a + s b).

Definition HexPoint_sub (a b : HexPoint) : HexPoint :=
  mkHexPoint (q a - q b) (r a - r b) (s a - s b).

(** [__mul__] with an [int] on the right. *)
Definition HexPoint_mul (a : HexPoint) (k : Z) : HexPoint :=
  mkHexPoint (q a * k) (r a * k) (s a * k).

(** [__eq__]. *)
Definition HexPoint_eqb (a b : HexPoint) : bool :=
  (q a =? q b) && (r a =? r b) && (s a =? s b).

Definition CUBE_DIRECTIONS : list HexPoint :=
  [ mkHexPoint 1 0 (-1);
    mkHexPoint 0 1 (-1);
    mkHexPoint (-1) 1 0;
    mkHexPoint (-1) 0 1;
    mkHexPoint 0 (-1) 1;
    mkHexPoint 1 (-1) 0 ].

Definition cube_distance (a b : HexPoint) : Z :=
  (Z.abs (q a - q b) + Z.abs (r a - r b) + Z.abs (s a - s b)) / 2.

Definition cube_neighbor (hex : HexPoint) (direction : Z) : result HexPoint :=
  d <- getitem CUBE_DIRECTIONS direction ;;
  Ok (HexPoint_add hex d).

(** The body of the inner loop of [cube_ring]: the state is
    [(results, point)]. *)
Definition ring_step (i : Z) (st : list HexPoint * HexPoint)
  : result (list HexPoint * HexPoint) :=
  let '(results, point) := st in
  point' <- cube_neighbor point i ;;
  Ok (results ++ [point], point').

Definition cube_ring (center : HexPoint) (radius : Z)
  : result (list HexPoint) :=
  if radius <? 0 then Raise ValueError
  else if radius =? 0 then Ok [center]
  else
    d4 <- getitem CUBE_DIRECTIONS 4 ;;
    let point := HexPoint_add center (HexPoint_mul d4 radius) in
    st <- for_each (range 6)
            (fun i => for_each (range radius) (fun _ => ring_step i))
            ([], point) ;;
    Ok (fst st).


(** ** hex_util.py: spiral index *)

Definition _spiral_index_start_of_ring (radius : Z) : Z :=
  if radius =? 0 then 0 else 1 + 3 * radius * (radius - 1).

(** [int((3 + (9 + 12*(index-1))**0.5) / 6)]; [libm_pow] is the C
    library's [pow]. *)
Definition _spiral_index_to_radius
    (libm_pow : spec_float -> spec_float -> spec_float) (index : Z)
  : result Z :=
  if index =? 0 then Ok 0
  else
    root <- pow_half libm_pow (Int (9 + 12 * (index - 1))) ;;
    x <- Num.add (Int 3) root ;;
    y <- truediv x (Int 6) ;;
    to_int y.

(** [for i, ring_hex in enumerate(ring_hexes): if point == ring_hex: return i] *)
Fixpoint find_index (point : HexPoint) (l : list HexPoint) (i : Z)
  : option Z :=
  match l with
  | [] => None
  | h :: t => if HexPoint_eqb point h then Some i
              else find_index point t (i + 1)
  end.

Definition cube_to_spiral (point : HexPoint) : result Z :=
  let center := mkHexPoint 0 0 0 in
  let radius := cube_distance point center in
  ring_hexes <- cube_ring center radius ;;
  match find_index point ring_hexes 0 with
  | Some i => Ok (i + _spiral_index_start_of_ring radius)
  | None => Raise ValueError
  end.

Definition spiral_to_cube
    (libm_pow : spec_float -> spec_float -> spec_float) (index : Z)
  : result HexPoint :=
  let center := mkHexPoint 0 0 0 in
  radius <- _spiral_index_to_radius libm_pow index ;;
  let ringstart := _spiral_index_start_of_ring radius in
  ring <- cube_ring center radius ;;
  getitem ring (index - ringstart).

(** ** hex_util.py: angle conventions *)

Definition _angle_to_math_angle (angle : Z) : Z := (-1 * (angle - 90)) mod 360.

Definition _math_angle_to_angle (angle : Z) : Z := (-1 * (angle + 90)) mod 360.

(** ** hex_util.py: offset coordinates *)

(** A [HexPoint] instance as the offset conversions build it: the fields
    hold whatever numbers the arithmetic produced, and true division makes
    them floats. *)
Record HexPointN : Set := mkHexPointN { nq : num; nr : num; ns : num }.

(** [HexPoint.__eq__] on such instances. *)
Definition HexPointN_eqb (a b : HexPointN) : bool :=
  Num.eqb (nq a) (nq b) && Num.eqb (nr a) (nr b) && Num.eqb (ns a) (ns b).

(** Tuple equality [(a, b) == (c, d)]. *)
Definition pair_eqb (a b : num * num) : bool :=
  Num.eqb (fst a) (fst b) && Num.eqb (snd a) (snd b).

(** [(v - parity) / 2], the half-row or half-column shift. *)
Definition half_shift (v parity : num) : result num :=
  d <- Num.sub v parity ;;
  truediv d (Int 2).

Definition _cube_to_oddr (q r s : num) : result (num * num) :=
  parity <- mod_ r (Int 2) ;;
  h <- half_shift r parity ;;
  col <- Num.add q h ;;
  let row := r in
  Ok (col, row).

Definition _oddr_to_cube (x y : num) : result HexPointN :=
  parity <- mod_ x (Int 2) ;;
  h <- half_shift x parity ;;
  q <- Num.sub y h ;;
  let r := x in
  s <- Num.sub (neg q) r ;;
  Ok (mkHexPointN q r s).

Definition _cube_to_oddq (q r s : num) : result (num * num) :=
  parity <- mod_ q (Int 2) ;;
  let col := q in
  h <- half_shift q parity ;;
  row <- Num.add r h ;;
  Ok (col, row).

Definition _oddq_to_cube (x y : num) : result HexPointN :=
  parity <- mod_ x (Int 2) ;;
  let q := x in
  h <- half_shift x parity ;;
  r <- Num.sub y h ;;
  s <- Num.sub (neg q) r ;;
  Ok (mkHexPointN q r s).

(** ** hex_util.py: cube_round *)

(** [frac_s], given or derived. *)
Definition third_coordinate (frac_q frac_r : num) (frac_s : option num)
  : result num :=
  match frac_s with
  | None => Num.sub (neg frac_q) frac_r
  | Some v => Ok v
  end.

(** [abs(k - frac)] *)
Definition rounding_error (k : Z) (frac : num) : result num :=
  d <- Num.sub (Int k) frac ;;
  Ok (Num.abs d).

(** The correction step on the three rounded components and their errors. *)
Definition correct_largest (q r s : Z) (q_diff r_diff s_diff : num)
  : HexPoint :=
  if gtb q_diff r_diff && gtb q_diff s_diff then mkHexPoint (- r - s) r s
  else if gtb r_diff s_diff then mkHexPoint q (- q - s) s
  else mkHexPoint q r (- q - r).

Definition cube_round (frac_q frac_r : num) (frac_s : option num)
  : result HexPoint :=
  frac_s <- third_coordinate frac_q frac_r frac_s ;;
  q <- round frac_q ;;
  r <- round frac_r ;;
  s <- round frac_s ;;
  q_diff <- rounding_error q frac_q ;;
  r_diff <- rounding_error r frac_r ;;
  s_diff <- rounding_error s frac_s ;;
  Ok (correct_largest q r s q_diff r_diff s_diff).

(** ** hex_util.py: Size, GridOrientation *)

(** [Size] is a [NamedTuple]. *)
Record Size : Set := mkSize { width : num; height : num }.

(** [Size.__bool__] *)
Definition Size_bool (sz : Size) : bool :=
  gtb (width sz) (Int 0) && gtb (height sz) (Int 0).

Inductive Size_field : Set := F_width | F_height.

(** [sz.width = v] and [sz.height = v]: the fields of a [NamedTuple] are
    read-only, the assignment raises AttributeError. *)
Definition Size_setattr (sz : Size) (f : Size_field) (v : num) : result Size :=
  Raise AttributeError.

Inductive GridOrientation : Set := POINTY_TOP | FLAT_TOP.

Definition toggle (o : GridOrientation) : GridOrientation :=
  match o with
  | POINTY_TOP => FLAT_TOP
  | FLAT_TOP => POINTY_TOP
  end.

(** ** Calls *)

(** What a call site passes. *)
Inductive value : Set :=
| VNum (n : num)
| VPoint (p : HexPoint).

(** A call of a function of three positional parameters [(q, r, s)] whose
    body is arithmetic on numbers: fewer or more arguments raise TypeError
    when they are bound, before the body runs. *)
Definition call3 {B} (f : num -> num -> num -> result B) (args : list value)
  : result B :=
  match args with
  | [VNum a; VNum b; VNum c] => f a b c
  | _ => Raise TypeError
  end.

(** ** hex_cell.py and hex_map.py *)

Section Cells.

(** What a cell carries; [None] is Python's [None]. *)
Context {Data : Type}.

Record HexCell : Type := mkHexCell {
  cell_orientation : GridOrientation;
  cell_radius : num;
  cell_point : HexPoint;
  cell_data : option Data;
  cell_size : Size;
  cell_pixel_xy : option (num * num)
}.

(** [HexCell.__init__] *)
Definition HexCell_init (orientation : GridOrientation) (point : HexPoint)
    (radius : num) (data : option Data) : HexCell :=
  mkHexCell orientation radius point data (mkSize (Int 0) (Int 0)) None.

(** The [data] setter. *)
Definition set_data (v : option Data) (c : HexCell) : HexCell :=
  mkHexCell (cell_orientation c) (cell_radius c) (cell_point c) v
    (cell_size c) (cell_pixel_xy c).

Definition set_size (sz : Size) (c : HexCell) : HexCell :=
  mkHexCell (cell_orientation c) (cell_radius c) (cell_point c)
    (cell_data c) sz (cell_pixel_xy c).

Definition clearcache (c : HexCell) : HexCell :=
  mkHexCell (cell_orientation c) (cell_radius c) (cell_point c)
    (cell_data c) (cell_size c) None.

(** The [xy] getter: the point is passed as one argument. *)
Definition HexCell_xy (c : HexCell) : result (num * num) :=
  match cell_orientation c with
  | POINTY_TOP => call3 _cube_to_oddr [VPoint (cell_point c)]
  | FLAT_TOP => call3 _cube_to_oddq [VPoint (cell_point c)]
  end.

Definition HexCell_x (c : HexCell) : result num :=
  xy <- HexCell_xy c ;; Ok (fst xy).

Definition HexCell_y (c : HexCell) : result num :=
  xy <- HexCell_xy c ;; Ok (snd xy).

(** The [size] getter, which fills the cell's cache. *)
Definition HexCell_size : M HexCell Size :=
  fun c =>
    if negb (Size_bool (cell_size c)) then
      match Num.mul (Int 2) (cell_radius c) with
      | Raise e => (Raise e, c)
      | Ok size_long =>
          match Num.mul (Float sqrt3) (cell_radius c) with
          | Raise e => (Raise e, c)
          | Ok size_short =>
              let sz := match cell_orientation c with
                        | POINTY_TOP => mkSize size_short size_long
                        | FLAT_TOP => mkSize size_long size_short
                        end in
              (Ok sz, set_size sz c)
          end
      end
    else (Ok (cell_size c), c).

(** *** The dict [_grid]: keys in insertion order *)

Definition dict : Type := list (HexPoint * HexCell).

Definition dict_contains (k : HexPoint) (d : dict) : bool :=
  existsb (fun kv => HexPoint_eqb k (fst kv)) d.

Fixpoint dict_get (k : HexPoint) (d : dict) : option HexCell :=
  match d with
  | [] => None
  | (k', c) :: d' => if HexPoint_eqb k k' then Some c else dict_get k d'
  end.

(** [d[k] = c]: an existing key keeps its place. *)
Fixpoint dict_set (k : HexPoint) (c : HexCell) (d : dict) : dict :=
  match d with
  | [] => [(k, c)]
  | (k', c') :: d' =>
      if HexPoint_eqb k k' then (k', c) :: d'
      else (k', c') :: dict_set k c d'
  end.

(** A mutation [f] of the object stored under [k]. *)
Fixpoint dict_update (k : HexPoint) (f : HexCell -> HexCell) (d : dict)
  : dict :=
  match d with
  | [] => []
  | (k', c') :: d' =>
      if HexPoint_eqb k k' then (k', f c') :: d'
      else (k', c') :: dict_update k f d'
  end.

Record HexMap : Type := mkHexMap {
  map_orientation : GridOrientation;
  map_radius : num;
  map_grid : dict;
  map_spacing : Size;
  map_reference : HexCell;
  map_offset : Size
}.

(** [HexMap.__init__], with the default [cell_type]. *)
Definition HexMap_init (radius : num) (orientation : GridOrientation)
  : HexMap :=
  mkHexMap orientation radius [] (mkSize (Int 0) (Int 0))
    (HexCell_init orientation (mkHexPoint 0 0 0) radius None)
    (mkSize (Int 0) (Int 0)).

Definition with_grid (g : dict) (m : HexMap) : HexMap :=
  mkHexMap (map_orientation m) (map_radius m) g (map_spacing m)
    (map_reference m) (map_offset m).

Definition with_reference (c : HexCell) (m : HexMap) : HexMap :=
  mkHexMap (map_orientation m) (map_radius m) (map_grid m) (map_spacing m)
    c (map_offset m).

Definition with_spacing (sz : Size) (m : HexMap) : HexMap :=
  mkHexMap (map_orientation m) (map_radius m) (map_grid m) sz
    (map_reference m) (map_offset m).

(** [point in self] for a [HexPoint]. *)
Definition HexMap_contains (m : HexMap) (point : HexPoint) : bool :=
  dict_contains point (map_grid m).

(** [len(self)] *)
Definition HexMap_len (m : HexMap) : Z := Z.of_nat (length (map_grid m)).

(** [self._grid[point]] *)
Definition HexMap_get (point : HexPoint) : M HexMap HexCell :=
  fun m =>
    match dict_get point (map_grid m) with
    | Some c => (Ok c, m)
    | None => (Raise KeyError, m)
    end.

(** The [data] argument of [set]: a payload, or a cell to unwrap. *)
Inductive set_arg : Type :=
| Payload (d : option Data)
| Cell (c : HexCell).

Definition HexMap_set (point : HexPoint) (data : set_arg) : M HexMap HexCell :=
  fun m =>
    let data := match data with
                | Cell c => cell_data c
                | Payload d => d
                end in
    let c := HexCell_init (map_orientation m) point (map_radius m) data in
    (Ok c, with_grid (dict_set point c (map_grid m)) m).

(** A mutation of the cell stored under [point]. *)
Definition mutate_cell (point : HexPoint) (f : HexCell -> HexCell)
  : M HexMap unit :=
  fun m => (Ok tt, with_grid (dict_update point f (map_grid m)) m).

Definition swap (point1 point2 : HexPoint) : M HexMap unit :=
  fun m =>
    if negb (HexMap_contains m point1) || negb (HexMap_contains m point2)
    then (Raise ValueError, m)
    else
      (c2 <~ HexMap_get point2 ;;
       c1 <~ HexMap_get point1 ;;
       _ <~ mutate_cell point1 (set_data (cell_data c2)) ;;
       _ <~ mutate_cell point2 (set_data (cell_data c1)) ;;
       _ <~ mutate_cell point1 clearcache ;;
       mutate_cell point2 clearcache) m.

Definition fill_point (point : HexPoint) : M HexMap unit :=
  fun m =>
    if negb (HexMap_contains m point)
    then (_ <~ HexMap_set point (Payload None) ;; ret_st tt) m
    else (Ok tt, m).

Definition fill_ring (i : Z) : M HexMap unit :=
  ring <~ lift_st (cube_ring (mkHexPoint 0 0 0) i) ;;
  for_each_st ring fill_point.

Definition fill_to_radius (radius : Z) : M HexMap unit :=
  for_each_st (range radius) fill_ring.

(** The [size] property: the reference cell's, which caches it. *)
Definition HexMap_size : M HexMap Size :=
  fun m =>
    let '(res, c) := HexCell_size (map_reference m) in
    (res, with_reference c m).

Definition HexMap_width : M HexMap num :=
  sz <~ HexMap_size ;; ret_st (width sz).

Definition HexMap_height : M HexMap num :=
  sz <~ HexMap_size ;; ret_st (height sz).

(** [self._spacing.<f> = v] *)
Definition assign_spacing (f : Size_field) (v : num) : M HexMap unit :=
  fun m =>
    match Size_setattr (map_spacing m) f v with
    | Ok sz => (Ok tt, with_spacing sz m)
    | Raise e => (Raise e, m)
    end.

(** [0.75] *)
Definition three_quarters : spec_float :=
  Eval vm_compute in binary_normalize prec emax 3 (-2) false.

Definition spacing : M HexMap Size :=
  fun m =>
    if negb (Size_bool (map_spacing m)) then
      (_ <~ match map_orientation m with
            | POINTY_TOP =>
                w <~ HexMap_width ;;
                _ <~ assign_spacing F_width w ;;
                h <~ HexMap_height ;;
                v <~ lift_st (Num.mul (Float three_quarters) h) ;;
                assign_spacing F_height v
            | FLAT_TOP =>
                w <~ HexMap_width ;;
                v <~ lift_st (Num.mul (Float three_quarters) w) ;;
                _ <~ assign_spacing F_width v ;;
                h <~ HexMap_height ;;
                assign_spacing F_height h
            end ;;
       fun m' => (Ok (map_spacing m'), m')) m
    else (Ok (map_spacing m), m).

End Cells.

Arguments HexCell Data : clear implicits.
Arguments HexMap Data : clear implicits.
Arguments dict Data : clear implicits.
Arguments set_arg Data : clear implicits.

(** ** The ring as the specification describes it *)

(** [n] points from [p] on, each one unit step [d] after the one before. *)
Fixpoint side (p d : HexPoint) (n : nat) : list HexPoint :=
  match n with
  | O => []
  | S n' => p :: side (HexPoint_add p d) d n'
  end.

(** One side of [n] steps per direction, each side starting where the one
    before ended. *)
Fixpoint walk (p : HexPoint) (dirs : list HexPoint) (n : nat)
  : list HexPoint :=
  match dirs with
  | [] => []
  | d :: ds =>
      side p d n
        ++ walk (HexPoint_add p (HexPoint_mul d (Z.of_nat n))) ds n
  end.

Definition direction (i : nat) : HexPoint :=
  nth i CUBE_DIRECTIONS (mkHexPoint 0 0 0).

(** Start at [center + direction[4]*k], walk the six sides in the order of
    the directions. *)
Definition ring_walk (center : HexPoint) (k : Z) : list HexPoint :=
  walk (HexPoint_add center (HexPoint_mul (direction 4) k))
    CUBE_DIRECTIONS (Z.to_nat k).

(** Where the walk stands when side [i] begins. *)
Fixpoint walk_start (p : HexPoint) (dirs : list HexPoint) (n i : nat)
  : HexPoint :=
  match i, dirs with
  | S i', d :: ds =>
      walk_start (HexPoint_add p (HexPoint_mul d (Z.of_nat n))) ds n i'
  | _, _ => p
  end.

(** Point [j] of side [i] of the ring of radius [k], in closed form: side
    [i] starts at the corner [direction[(i+4) mod 6] * k]. *)
Definition ring_point (center : HexPoint) (k : Z) (i : nat) (j : Z)
  : HexPoint :=
  HexPoint_add
    (HexPoint_add center (HexPoint_mul (direction ((i + 4) mod 6)) k))
    (HexPoint_mul (direction i) j).

(** Position [idx] of the ring of radius [k]: side [idx / k], step
    [idx mod k]. *)
Definition ring_pos (center : HexPoint) (k : Z) (idx : nat) : HexPoint :=
  ring_point center k (idx / Z.to_nat k) (Z.of_nat (idx mod Z.to_nat k)).

(** ** The C library's [pow], for the statements *)

(** A [pow] whose square roots are correctly rounded. *)
Definition sqrt_pow (x y : spec_float) : spec_float := SFsqrt prec emax x.

(** [r * r] against [x], exactly, for doubles [r] and [x] that are finite
    and not negative. *)
Definition square_compare (r x : spec_float) : option comparison :=
  match r, x with
  | S754_zero _, S754_zero _ => Some Eq
  | S754_zero _, S754_finite false _ _ => Some Lt
  | S754_finite false _ _, S754_zero _ => Some Gt
  | S754_finite false mr er, S754_finite false mx ex =>
      let e := Z.min (2 * er) ex in
      Some (Zpos mr * Zpos mr * 2 ^ (2 * er - e) ?= Zpos mx * 2 ^ (ex - e))
  | _, _ => None
  end.

(** [r] is the real square root of [x], or the double next below it, or
    the double next above it. *)
Definition brackets_root (x r : spec_float) : bool :=
  match square_compare r x with
  | Some Eq => true
  | Some Lt =>
      match SFsucc prec emax r with
      | S754_infinity false => true
      | r' => match square_compare r' x with Some Gt => true | _ => false end
      end
  | Some Gt =>
      match square_compare (SFpred prec emax r) x with
      | Some Lt => true
      | _ => false
      end
  | None => false
  end.

(** What a [pow] with an error below one unit in the last place can return
    for [x ** 0.5]: the real root when it is a double, else the double
    next below it or the double next above it.  They are found next to the
    correctly rounded root. *)
Definition faithful_roots (x : spec_float) : list spec_float :=
  let s := SFsqrt prec emax x in
  filter (brackets_root x)
    (match square_compare s x with
     | Some Lt => [s; SFsucc prec emax s]
     | Some Gt => [SFpred prec emax s; s]
     | _ => [s]
     end).

(** The same double. *)
Definition float_same (a b : spec_float) : bool :=
  match a, b with
  | S754_zero sa, S754_zero sb => Bool.eqb sa sb
  | S754_infinity sa, S754_infinity sb => Bool.eqb sa sb
  | S754_nan, S754_nan => true
  | S754_finite sa ma ea, S754_finite sb mb eb =>
      Bool.eqb sa sb && (ma =? mb)%positive && (ea =? eb)
  | _, _ => false
  end.

(** The double under the square root, for [index]. *)
Definition radicand (index : Z) : spec_float :=
  binary_normalize prec emax (9 + 12 * (index - 1)) 0 false.

(** [libm_pow] rounds the square root that [_spiral_index_to_radius] asks
    for at [index] faithfully. *)
Definition faithful_at (libm_pow : spec_float -> spec_float -> spec_float)
    (index : Z) : bool :=
  existsb (float_same (libm_pow (radicand index) half))
    (faithful_roots (radicand index)).

(** ** The range on which the float computation of the radius is checked *)

(** [radius] is the ring that holds [index]. *)
Definition ring_holds (index radius : Z) : bool :=
  (0 <=? radius)
  && (_spiral_index_start_of_ring radius <=? index)
  && (index <? _spiral_index_start_of_ring (radius + 1)).

(** [_spiral_index_to_radius] returns the ring that holds [index]. *)
Definition radius_exact (libm_pow : spec_float -> spec_float -> spec_float)
    (index : Z) : bool :=
  match _spiral_index_to_radius libm_pow index with
  | Ok radius => ring_holds index radius
  | Raise _ => false
  end.

(** The rest of [_spiral_index_to_radius], once the root is known. *)
Definition radius_of_root (root : spec_float) : result Z :=
  x <- Num.add (Int 3) (Float root) ;;
  y <- truediv x (Int 6) ;;
  to_int y.

(** The number under the root converts to a double that goes to the C
    library: positive, and not [1.0]. *)
Definition ordinary_base (index : Z) : bool :=
  (Z.abs (9 + 12 * (index - 1)) <? overflow_threshold)
  && match radicand index with
     | S754_finite false _ _ => negb (SFeqb (radicand index) one)
     | _ => false
     end.

(** Whatever faithful root the C library returns for [index], the radius
    computed from it is the ring that holds [index]. *)
Definition exact_for_all_roots (index : Z) : bool :=
  ordinary_base index
  && forallb (fun root => match radius_of_root root with
                          | Ok radius => ring_holds index radius
                          | Raise _ => false
                          end)
       (faithful_roots (radicand index)).

(** Rings up to this radius are checked index by index, for every faithful
    root. *)
Definition faithful_radius : Z := 20.

(** The indices of those rings: [0 .. 1260]. *)
Definition faithful_indices : Z :=
  _spiral_index_start_of_ring (faithful_radius + 1).

(** Negative indices are checked one by one down to the negative of this
    number, 7651. *)
Definition checked_radius : Z := 50.

Definition checked_indices : Z :=
  _spiral_index_start_of_ring (checked_radius + 1).

(** The ring of radius [i] around the origin, as [fill_to_radius] walks
    it. *)
Definition ring_of (i : Z) : list HexPoint :=
  if i =? 0 then [mkHexPoint 0 0 0] else ring_walk (mkHexPoint 0 0 0) i.

(** The points of the rings [0 .. n-1], ring after ring, each in ring
    order. *)
Definition rings_upto (n : Z) : list HexPoint := concat (map ring_of (range n)).

Section Fill.

Context {Data : Type}.

(** The entry [set(point, None)] adds to the grid of [m]. *)
Definition new_cell (m : HexMap Data) (point : HexPoint)
  : HexPoint * HexCell Data :=
  (point, HexCell_init (map_orientation m) point (map_radius m) None).

(** The points of [pts] that the grid [g] does not hold. *)
Definition absent (g : dict Data) (pts : list HexPoint) : list HexPoint :=
  filter (fun p => negb (dict_contains p g)) pts.

End Fill.

(** ** Well-formed inputs and round trips, for the statements *)

(** A number: an [int], or a double that is neither infinite nor nan. *)
Definition finite_num (a : num) : bool :=
  match a with
  | Int _ => true
  | Float f => is_finite f && valid_binary prec emax f
  end.

(** The largest double. *)
Definition max_float : spec_float := S754_finite false 9007199254740991 971.

(** The integer a number is, when it is one: an [int], or a double with
    no fractional part. *)
Definition exact_integer (a : num) : option Z :=
  match a with
  | Int z => Some z
  | Float (S754_zero _) => Some 0
  | Float (S754_finite sg m e) =>
      if 0 <=? e then Some (cond_Zopp sg (Zpos m * 2 ^ e))
      else if Zpos m mod 2 ^ (- e) =? 0
           then Some (cond_Zopp sg (Zpos m / 2 ^ (- e)))
           else None
  | Float _ => None
  end.

(** An infinity or nan. *)
Definition infinite_or_nan (a : num) : bool :=
  match a with
  | Float (S754_infinity _) | Float S754_nan => true
  | _ => false
  end.

(** Offset pair to cube and back with the pointy-top pair: [_oddr_to_cube],
    then [_cube_to_oddr] on the fields of the point. *)
Definition oddr_of_cube_of_oddr (x y : Z) : result (num * num) :=
  p <- _oddr_to_cube (Int x) (Int y) ;;
  _cube_to_oddr (nq p) (nr p) (ns p).

(** Cube to offset pair and back: [_cube_to_oddr] on [(q, r, -q-r)], then
    [_oddr_to_cube] on the pair. *)
Definition cube_of_oddr_of_cube (q r : Z) : result HexPointN :=
  xy <- _cube_to_oddr (Int q) (Int r) (Int (- q - r)) ;;
  _oddr_to_cube (fst xy) (snd xy).

Definition oddq_of_cube_of_oddq (x y : Z) : result (num * num) :=
  p <- _oddq_to_cube (Int x) (Int y) ;;
  _cube_to_oddq (nq p) (nr p) (ns p).

Definition cube_of_oddq_of_cube (q r : Z) : result HexPointN :=
  xy <- _cube_to_oddq (Int q) (Int r) (Int (- q - r)) ;;
  _oddq_to_cube (fst xy) (snd xy).

(** The outcome is a pair equal ([==]) to [(x, y)]. *)
Definition returns_pair (c : result (num * num)) (x y : Z) : bool :=
  match c with
  | Ok xy => pair_eqb xy (Int x, Int y)
  | Raise _ => false
  end.

(** The outcome is a point equal ([==]) to [HexPoint(q, r, -q-r)]. *)
Definition returns_point (c : result HexPointN) (q r : Z) : bool :=
  match c with
  | Ok p => HexPointN_eqb p (mkHexPointN (Int q) (Int r) (Int (- q - r)))
  | Raise _ => false
  end.

(** The integer pairs with both components in [-6 .. 6]. *)
Definition sample_pairs : list (Z * Z) :=
  list_prod (map (fun i => i - 6) (range 13)) (map (fun i => i - 6) (range 13)).

(** ** hex_util.py: direction names, corner and edge angles *)

Definition DIRECTION_NAMES : list (Z * String.string) :=
  [ (0, "East"%string);
    (30, "Southeast"%string);
    (60, "Southeast"%string);
    (90, "South"%string);
    (120, "Southwest"%string);
    (150, "Southwest"%string);
    (180, "West"%string);
    (210, "Northwest"%string);
    (240, "Northwest"%string);
    (270, "North"%string);
    (300, "Northeast"%string);
    (330, "Northeast"%string);
    (360, "East"%string) ].

Definition direction_name (angle : Z) : result String.string :=
  match find (fun kv => fst kv =? angle) DIRECTION_NAMES with
  | Some kv => Ok (snd kv)
  | None => Raise ValueError
  end.

Definition hex_angles (orientation : GridOrientation) : list Z :=
  match orientation with
  | POINTY_TOP => [90; 150; 210; 270; 330; 30]
  | FLAT_TOP => [0; 60; 120; 180; 240; 300]
  end.

(** ** hex_util.py: a HexPoint instance with its cached spiral index *)

(** The instance attribute [_int] exists once [__int__] has run. *)
Record HexPointObj : Set := mkHexPointObj {
  obj_point : HexPoint;
  obj_int : option Z
}.

(** [__int__] *)
Definition HexPoint_int : M HexPointObj Z :=
  fun o =>
    match obj_int o with
    | Some i => (Ok i, o)
    | None =>
        match cube_to_spiral (obj_point o) with
        | Ok i => (Ok i, mkHexPointObj (obj_point o) (Some i))
        | Raise e => (Raise e, o)
        end
    end.

(** [__lt__], [__gt__], [__le__], [__ge__]: [int(self)] against
    [int(other)], on two instances. *)
Definition compare_by_index (test : Z -> Z -> bool)
  : M (HexPointObj * HexPointObj) bool :=
  fun st =>
    let '(self, other) := st in
    match HexPoint_int self with
    | (Raise e, self') => (Raise e, (self', other))
    | (Ok i, self') =>
        match HexPoint_int other with
        | (Raise e, other') => (Raise e, (self', other'))
        | (Ok j, other') => (Ok (test i j), (self', other'))
        end
    end.

Definition HexPoint_lt := compare_by_index Z.ltb.
Definition HexPoint_gt := compare_by_index Z.gtb.
Definition HexPoint_le := compare_by_index Z.leb.
Definition HexPoint_ge := compare_by_index Z.geb.

(** ** Built-ins: enumerate, min with a key *)

Definition enumerate {A} (l : list A) : list (Z * A) :=
  combine (range (Z.of_nat (length l))) l.

(** [min(items, key=key)]: the first item whose key is least; ValueError on
    an empty sequence. *)
Definition min_by_key (key : Z -> result Z) (items : list Z) : result Z :=
  match items with
  | [] => Raise ValueError
  | x :: rest =>
      kx <- key x ;;
      st <- for_each rest
              (fun y (st : Z * Z) =>
                 ky <- key y ;;
                 Ok (if ky <? snd st then (y, ky) else st))
              (x, kx) ;;
      Ok (fst st)
  end.

(** ** hex_cell.py: the remaining properties and methods *)

Section CellsMore.

Context {Data : Type}.

(** The [point] setter: the caches stay. *)
Definition set_point (p : HexPoint) (c : HexCell Data) : HexCell Data :=
  mkHexCell (cell_orientation c) (cell_radius c) p (cell_data c)
    (cell_size c) (cell_pixel_xy c).

Definition set_pixel_xy (v : option (num * num)) (c : HexCell Data)
  : HexCell Data :=
  mkHexCell (cell_orientation c) (cell_radius c) (cell_point c)
    (cell_data c) (cell_size c) v.

Definition corner_angles (c : HexCell Data) : list Z :=
  hex_angles (toggle (cell_orientation c)).

Definition edge_angles (c : HexCell Data) : list Z :=
  hex_angles (cell_orientation c).

Definition distance_to (c other : HexCell Data) : Z :=
  cube_distance (cell_point c) (cell_point other).

(** The cartesian centre, before it is cached. *)
Definition pixel_center (o : GridOrientation) (radius : num) (p : HexPoint)
  : result (num * num) :=
  match o with
  | POINTY_TOP =>
      a <- Num.mul (Float sqrt3) (Int (q p)) ;;
      h <- truediv (Float sqrt3) (Int 2) ;;
      b <- Num.mul h (Int (r p)) ;;
      x <- Num.add a b ;;
      t <- truediv (Int 3) (Int 2) ;;
      y <- Num.mul t (Int (r p)) ;;
      x <- Num.mul x radius ;;
      y <- Num.mul y radius ;;
      Ok (x, y)
  | FLAT_TOP =>
      t <- truediv (Int 3) (Int 2) ;;
      x <- Num.mul t (Int (q p)) ;;
      h <- truediv (Float sqrt3) (Int 2) ;;
      a <- Num.mul h (Int (q p)) ;;
      b <- Num.mul (Float sqrt3) (Int (r p)) ;;
      y <- Num.add a b ;;
      x <- Num.mul x radius ;;
      y <- Num.mul y radius ;;
      Ok (x, y)
  end.

(** The [pixel_xy] getter. *)
Definition HexCell_pixel_xy : M (HexCell Data) (num * num) :=
  fun c =>
    match cell_pixel_xy c with
    | Some v => (Ok v, c)
    | None =>
        match pixel_center (cell_orientation c) (cell_radius c)
                (cell_point c) with
        | Ok v => (Ok v, set_pixel_xy (Some v) c)
        | Raise e => (Raise e, c)
        end
    end.

(** [abs(corner_angle - n)], with the two wrap-arounds. *)
Definition angle_diff (corner_angle normalized_angle : Z) : Z :=
  Z.min
    (Z.min (Z.abs (corner_angle - normalized_angle))
       (Z.abs (corner_angle - (normalized_angle + 360))))
    (Z.abs ((corner_angle + 360) - normalized_angle)).

(** One turn of the loop of [nearest_direction_from_angle]; [min_diff] is
    [None] while it is [float('inf')]. *)
Definition nearest_step (normalized_angle : Z) (st : option Z * Z)
    (item : Z * Z) : option Z * Z :=
  let '(min_diff, closest_direction) := st in
  let '(direction, corner_angle) := item in
  let d := angle_diff corner_angle normalized_angle in
  if match min_diff with
     | None => true
     | Some m => d <? m
     end
  then (Some d, direction)
  else st.

Definition nearest_direction_from_angle (c : HexCell Data) (angle : Z) : Z :=
  let normalized_angle := angle mod 360 in
  snd (fold_left (nearest_step normalized_angle)
         (enumerate (edge_angles c)) (None, 0)).

Definition direction_angles (o : GridOrientation) : list Z :=
  match o with
  | POINTY_TOP => [0; 60; 120; 180; 240; 300]
  | FLAT_TOP => [30; 90; 150; 210; 270; 330]
  end.

Definition nearest_corner_from_angle (c : HexCell Data) (angle : Z)
  : result Z :=
  let angle := angle mod 360 in
  let angles := direction_angles (cell_orientation c) in
  idx <- min_by_key
           (fun i => a <- getitem angles i ;; Ok (Z.abs (a - angle)))
           (range 6) ;;
  getitem angles idx.

(** The operands of [+] in [neighbors]. *)
Inductive operand : Type :=
| OPoint (p : HexPoint)
| OCell (c : HexCell Data).

(** [a + b].  [HexPoint.__add__] reads [other.q], [other.r] and [other.s],
    which a cell has as well; [HexCell] defines no [__add__] and [HexPoint]
    no [__radd__], so a cell on the left raises TypeError. *)
Definition py_add (a b : operand) : result HexPoint :=
  match a, b with
  | OPoint p, OPoint p' => Ok (HexPoint_add p p')
  | OPoint p, OCell c => Ok (HexPoint_add p (cell_point c))
  | OCell _, _ => Raise TypeError
  end.

(** [[f(x) for x in l]] *)
Fixpoint comprehension {A B} (f : A -> result B) (l : list A)
  : result (list B) :=
  match l with
  | [] => Ok []
  | x :: l' => y <- f x ;; ys <- comprehension f l' ;; Ok (y :: ys)
  end.

(** The [neighbors] getter: [self + direction]. *)
Definition HexCell_neighbors (c : HexCell Data) : result (list HexPoint) :=
  comprehension (fun direction => py_add (OCell c) (OPoint direction))
    CUBE_DIRECTIONS.

(** *** hex_map.py: remove, pixel_to_hex *)

(** [d.pop(k, None)] *)
Fixpoint dict_pop (k : HexPoint) (d : dict Data) : dict Data :=
  match d with
  | [] => []
  | (k', c') :: d' =>
      if HexPoint_eqb k k' then d' else (k', c') :: dict_pop k d'
  end.

Definition HexMap_remove (point : HexPoint) : M (HexMap Data) unit :=
  fun m => (Ok tt, with_grid (dict_pop point (map_grid m)) m).

Definition _pixel_to_pointy_hex (m : HexMap Data) (target_x target_y : num)
  : result HexPoint :=
  d <- Num.sub target_x (map_radius m) ;;
  x <- truediv d (map_radius m) ;;
  y <- truediv target_y (map_radius m) ;;
  k <- truediv (Float sqrt3) (Int 3) ;;
  a <- Num.mul k x ;;
  t <- truediv (Int 1) (Int 3) ;;
  b <- Num.mul t y ;;
  q <- Num.sub a b ;;
  u <- truediv (Int 2) (Int 3) ;;
  r <- Num.mul u y ;;
  cube_round q r None.

(** The last lines of [_pixel_to_flat_hex], once [x] and [y] are known. *)
Definition flat_axial (x y : num) : result HexPoint :=
  u <- truediv (Int 2) (Int 3) ;;
  q <- Num.mul u x ;;
  t <- truediv (Int (-1)) (Int 3) ;;
  a <- Num.mul t x ;;
  k <- truediv (Float sqrt3) (Int 3) ;;
  b <- Num.mul k y ;;
  r <- Num.add a b ;;
  cube_round q r None.

(** It reads [self.size] twice, which fills the reference cell's cache. *)
Definition _pixel_to_flat_hex (target_x target_y : num)
  : M (HexMap Data) HexPoint :=
  sz <~ HexMap_size ;;
  w <~ lift_st (truediv (width sz) (Int 2)) ;;
  x <~ lift_st (truediv target_x w) ;;
  sz' <~ HexMap_size ;;
  h <~ lift_st (truediv (height sz') (Int 2)) ;;
  y <~ lift_st (truediv target_y h) ;;
  lift_st (flat_axial x y).

Definition pixel_to_hex (target_x target_y : num) : M (HexMap Data) HexPoint :=
  fun m =>
    (x <~ lift_st (Num.sub target_x (width (map_offset m))) ;;
     y <~ lift_st (Num.sub target_y (height (map_offset m))) ;;
     match map_orientation m with
     | POINTY_TOP => lift_st (_pixel_to_pointy_hex m x y)
     | FLAT_TOP => _pixel_to_flat_hex x y
     end) m.

End CellsMore.

Arguments operand Data : clear implicits.

(** ** Invariants, for the statements *)

Definition zero_sum (p : HexPoint) : Prop := q p + r p + s p = 0.

Section Invariants.

Context {Data : Type}.

(** The index an instance has cached is the index of its coordinates. *)
Definition cache_ok (o : HexPointObj) : Prop :=
  forall i, obj_int o = Some i -> cube_to_spiral (obj_point o) = Ok i.

(** Every key is the point of its cell, no key occurs twice, and every
    cell has the orientation and the radius of the map. *)
Definition grid_ok (m : HexMap Data) : Prop :=
  NoDup (map fst (map_grid m))
  /\ forall k c, In (k, c) (map_grid m) ->
                 cell_point c = k
                 /\ cell_orientation c = map_orientation m
                 /\ cell_radius c = map_radius m.

(** What a mutation of a stored cell must keep. *)
Definition keeps_place (f : HexCell Data -> HexCell Data) : Prop :=
  forall c, cell_point (f c) = cell_point c
            /\ cell_orientation (f c) = cell_orientation c
            /\ cell_radius (f c) = cell_radius c.

(** The same cells, the same orientation and the same radius. *)
Definition same_cells (m m' : HexMap Data) : Prop :=
  map_grid m' = map_grid m
  /\ map_orientation m' = map_orientation m
  /\ map_radius m' = map_radius m.

End Invariants.

(** ** Calls of the map's methods, for the statements *)

Section Calls.
Context {Data : Type}.

(** The payload [set] stores for its [data] argument. *)
Definition payload (data : set_arg Data) : option Data :=
  match data with
  | Cell c => cell_data c
  | Payload d => d
  end.

(** A call of one of the map's methods. *)
Inductive map_call : Type :=
| CallSet (point : HexPoint) (data : set_arg Data)
| CallGet (point : HexPoint)
| CallRemove (point : HexPoint)
| CallSwap (point1 point2 : HexPoint)
| CallFill (radius : Z)
| CallSize
| CallSpacing
| CallPixelToHex (target_x target_y : num).

(** The map after the call, whether it returned or raised. *)
Definition after_call (call : map_call) (m : HexMap Data) : HexMap Data :=
  match call with
  | CallSet point data => snd (HexMap_set point data m)
  | CallGet point => snd (HexMap_get point m)
  | CallRemove point => snd (HexMap_remove point m)
  | CallSwap point1 point2 => snd (swap point1 point2 m)
  | CallFill radius => snd (fill_to_radius radius m)
  | CallSize => snd (HexMap_size m)
  | CallSpacing => snd (spacing m)
  | CallPixelToHex target_x target_y => snd (pixel_to_hex target_x target_y m)
  end.

Definition after_calls (calls : list map_call) (m : HexMap Data)
  : HexMap Data :=
  fold_left (fun m call => after_call call m) calls m.

End Calls.
Arguments map_call Data : clear implicits.

(** ** The pixel centre of a cell, taken back to a cell *)

Section RoundTrip.
Context {Data : Type}.

(** On a new map: [set(p)], the [pixel_xy] of the cell it returns, and
    [pixel_to_hex] at that pixel. *)
Definition pixel_round_trip (o : GridOrientation) (radius : num)
    (p : HexPoint) : result HexPoint :=
  fst ((c <~ HexMap_set p (Payload None) ;;
        xy <~ lift_st (fst (HexCell_pixel_xy c)) ;;
        pixel_to_hex (fst xy) (snd xy))
         (HexMap_init radius o : HexMap Data)).

End RoundTrip.

(** The radii for which the round trip is checked cell by cell. *)
Definition checked_radii : list Z := [1; 2; 3; 7; 10; 33; 50; 64; 100; 1000].

Definition returns_exactly (c : result HexPoint) (p : HexPoint) : bool :=
  match c with
  | Ok p' => HexPoint_eqb p' p
  | Raise _ => false
  end.

(** * Proofs *)

(** ** Points *)

Lemma HexPoint_eta (a : HexPoint) : mkHexPoint (q a) (r a) (s a) = a.
Proof. destruct a; reflexivity. Qed.

Lemma HexPoint_ext (a b : HexPoint) :
  q a = q b -> r a = r b -> s a = s b -> a = b.
Proof. destruct a, b; simpl; intros; subst; reflexivity. Qed.

Lemma HexPoint_eqb_eq (a b : HexPoint) : HexPoint_eqb a b = true <-> a = b.
Proof.
  unfold HexPoint_eqb. rewrite !andb_true_iff, !Z.eqb_eq. split.
  - intros [[Hq Hr] Hs]. now apply HexPoint_ext.
  - intros ->. auto.
Qed.

Lemma HexPoint_eqb_refl (a : HexPoint) : HexPoint_eqb a a = true.
Proof. now apply HexPoint_eqb_eq. Qed.

Lemma HexPoint_eqb_neq (a b : HexPoint) : HexPoint_eqb a b = false <-> a <> b.
Proof.
  rewrite <- HexPoint_eqb_eq. destruct (HexPoint_eqb a b); split; congruence.
Qed.

(** Equations between points built with [+] and [*]: componentwise, linear. *)
Ltac hex_simpl :=
  unfold ring_point, HexPoint_add, HexPoint_mul, direction, CUBE_DIRECTIONS
    in *;
  cbn [q r s nth Nat.modulo Nat.divmod Nat.add Nat.sub fst snd] in *.

Ltac hex_ring := apply HexPoint_ext; hex_simpl; lia.

(** Linear arithmetic with division by a constant. *)
Ltac lia_div := Z.to_euclidean_division_equations; lia.

(** ** Sequences *)

Lemma range_length (n : Z) : length (range n) = Z.to_nat n.
Proof. unfold range. now rewrite length_map, length_seq. Qed.

Lemma range_nth (n : Z) (i : nat) :
  (i < Z.to_nat n)%nat -> nth_error (range n) i = Some (Z.of_nat i).
Proof.
  intros Hi. unfold range.
  rewrite nth_error_map, nth_error_seq.
  destruct (Nat.ltb_spec i (Z.to_nat n)); [reflexivity | lia].
Qed.

Lemma range_In (n i : Z) : In i (range n) <-> 0 <= i < n.
Proof.
  unfold range. rewrite in_map_iff. split.
  - intros (k & <- & Hk). apply in_seq in Hk. lia.
  - intros Hi. exists (Z.to_nat i). split; [lia |]. apply in_seq. lia.
Qed.

Lemma getitem_direction (i : nat) :
  (i < 6)%nat -> getitem CUBE_DIRECTIONS (Z.of_nat i) = Ok (direction i).
Proof.
  intros Hi.
  do 6 (destruct i as [|i]; [reflexivity |]). lia.
Qed.

(** ** The ring: the loops against the walk *)

Lemma side_length (p d : HexPoint) (n : nat) : length (side p d n) = n.
Proof. revert p. induction n; simpl; intros; [reflexivity | now rewrite IHn]. Qed.

Lemma side_nth (p d : HexPoint) (n j : nat) :
  (j < n)%nat ->
  nth_error (side p d n) j
  = Some (HexPoint_add p (HexPoint_mul d (Z.of_nat j))).
Proof.
  revert p j. induction n; intros p j Hj; [lia |].
  destruct j as [|j]; simpl.
  - f_equal. hex_ring.
  - rewrite IHn by lia. f_equal. hex_ring.
Qed.

Lemma inner_loop (i : Z) (d : HexPoint) (l : list Z) :
  getitem CUBE_DIRECTIONS i = Ok d ->
  forall results point,
    for_each l (fun _ => ring_step i) (results, point)
    = Ok (results ++ side point d (length l),
          HexPoint_add point (HexPoint_mul d (Z.of_nat (length l)))).
Proof.
  intros Hd. induction l as [|x l IH]; intros results point.
  - simpl. rewrite app_nil_r. do 2 f_equal. hex_ring.
  - cbn [for_each length side]. unfold ring_step at 1, cube_neighbor.
    rewrite Hd. cbn [bind]. rewrite IH, <- app_assoc. cbn [app].
    do 2 f_equal. hex_ring.
Qed.

Lemma walk_length (p : HexPoint) (dirs : list HexPoint) (n : nat) :
  length (walk p dirs n) = (length dirs * n)%nat.
Proof.
  revert p. induction dirs as [|d ds IH]; intros p; simpl; [reflexivity |].
  now rewrite length_app, side_length, IH.
Qed.

Lemma cube_ring_walk (center : HexPoint) (k : Z) :
  1 <= k -> cube_ring center k = Ok (ring_walk center k).
Proof.
  intros Hk. unfold cube_ring.
  destruct (Z.ltb_spec k 0); [lia |].
  destruct (Z.eqb_spec k 0); [lia |].
  change (getitem CUBE_DIRECTIONS 4) with (Ok (direction 4)). cbn [bind].
  change (range 6) with (map Z.of_nat [0; 1; 2; 3; 4; 5]%nat).
  cbn [map for_each].
  rewrite (inner_loop _ _ _ (getitem_direction 0 ltac:(lia))); cbn [bind].
  rewrite (inner_loop _ _ _ (getitem_direction 1 ltac:(lia))); cbn [bind].
  rewrite (inner_loop _ _ _ (getitem_direction 2 ltac:(lia))); cbn [bind].
  rewrite (inner_loop _ _ _ (getitem_direction 3 ltac:(lia))); cbn [bind].
  rewrite (inner_loop _ _ _ (getitem_direction 4 ltac:(lia))); cbn [bind].
  rewrite (inner_loop _ _ _ (getitem_direction 5 ltac:(lia))); cbn [bind].
  cbn [fst]. rewrite range_length.
  unfold ring_walk, CUBE_DIRECTIONS at 1. cbn [walk app].
  rewrite app_nil_r, <- !app_assoc. reflexivity.
Qed.

Lemma walk_nth (dirs : list HexPoint) (n : nat) :
  forall p i j d,
    nth_error dirs i = Some d -> (j < n)%nat ->
    nth_error (walk p dirs n) (i * n + j)
    = Some (HexPoint_add (walk_start p dirs n i)
              (HexPoint_mul d (Z.of_nat j))).
Proof.
  induction dirs as [|d0 ds IH]; intros p i j d Hd Hj.
  - destruct i; discriminate.
  - destruct i as [|i]; cbn [walk walk_start].
    + injection Hd as ->. simpl.
      rewrite nth_error_app1 by (rewrite side_length; lia).
      now apply side_nth.
    + simpl in Hd.
      rewrite nth_error_app2 by (rewrite side_length; lia).
      rewrite side_length.
      replace (S i * n + j - n)%nat with (i * n + j)%nat by lia.
      now apply IH.
Qed.

Lemma ring_walk_length (center : HexPoint) (k : Z) :
  0 <= k -> Z.of_nat (length (ring_walk center k)) = 6 * k.
Proof.
  intros Hk. unfold ring_walk. rewrite walk_length. simpl length. lia.
Qed.

Lemma ring_walk_point (center : HexPoint) (k : Z) (i j : nat) :
  0 <= k -> (i < 6)%nat -> (j < Z.to_nat k)%nat ->
  nth_error (ring_walk center k) (i * Z.to_nat k + j)
  = Some (ring_point center k i (Z.of_nat j)).
Proof.
  intros Hk Hi Hj. unfold ring_walk.
  rewrite walk_nth with (d := direction i); [| | assumption].
  - f_equal. unfold ring_point. f_equal.
    do 6 (destruct i as [|i];
          [cbn [walk_start CUBE_DIRECTIONS]; rewrite ?Z2Nat.id by lia;
           hex_ring |]).
    lia.
  - do 6 (destruct i as [|i]; [reflexivity |]). lia.
Qed.

Lemma ring_walk_nth (center : HexPoint) (k : Z) (idx : nat) :
  0 <= k -> (idx < 6 * Z.to_nat k)%nat ->
  nth_error (ring_walk center k) idx = Some (ring_pos center k idx).
Proof.
  intros Hk Hidx. unfold ring_pos.
  assert (Hn : (Z.to_nat k <> 0)%nat) by lia.
  pose proof (Nat.div_mod_eq idx (Z.to_nat k)) as Hdm.
  pose proof (Nat.mod_upper_bound idx (Z.to_nat k) Hn) as Hm.
  assert (Hd : (idx / Z.to_nat k < 6)%nat)
    by (apply Nat.Div0.div_lt_upper_bound; lia).
  rewrite <- ring_walk_point by assumption.
  f_equal. lia.
Qed.

(** ** The ring: distance, distinct points, every point of the ring *)

Lemma ring_point_distance (center : HexPoint) (k : Z) (i : nat) (j : Z) :
  (i < 6)%nat -> 0 <= j <= k ->
  cube_distance center (ring_point center k i j) = k
  /\ cube_distance (ring_point center k i j) center = k.
Proof.
  intros Hi Hj. unfold cube_distance, ring_point.
  do 6 (destruct i as [|i]; [hex_simpl; lia_div |]).
  lia.
Qed.

Lemma ring_point_inj (center : HexPoint) (k : Z) (i i' : nat) (j j' : Z) :
  (i < 6)%nat -> (i' < 6)%nat -> 0 <= j < k -> 0 <= j' < k ->
  ring_point center k i j = ring_point center k i' j' ->
  i = i' /\ j = j'.
Proof.
  intros Hi Hi' Hj Hj' E.
  pose proof (f_equal q E) as Eq. pose proof (f_equal r E) as Er.
  pose proof (f_equal s E) as Es. clear E.
  unfold ring_point in Eq, Er, Es.
  do 6 (destruct i as [|i]; [
    do 6 (destruct i' as [|i']; [hex_simpl; lia |]); lia |]).
  lia.
Qed.

Lemma ring_pos_inj (center : HexPoint) (k : Z) (a b : nat) :
  0 <= k -> (a < 6 * Z.to_nat k)%nat -> (b < 6 * Z.to_nat k)%nat ->
  ring_pos center k a = ring_pos center k b -> a = b.
Proof.
  intros Hk Ha Hb E. unfold ring_pos in E.
  assert (Hn : (Z.to_nat k <> 0)%nat) by lia.
  pose proof (Nat.div_mod_eq a (Z.to_nat k)) as Hda.
  pose proof (Nat.div_mod_eq b (Z.to_nat k)) as Hdb.
  pose proof (Nat.mod_upper_bound a (Z.to_nat k) Hn) as Hma.
  pose proof (Nat.mod_upper_bound b (Z.to_nat k) Hn) as Hmb.
  assert (Hia : (a / Z.to_nat k < 6)%nat)
    by (apply Nat.Div0.div_lt_upper_bound; lia).
  assert (Hib : (b / Z.to_nat k < 6)%nat)
    by (apply Nat.Div0.div_lt_upper_bound; lia).
  assert (Hja : 0 <= Z.of_nat (a mod Z.to_nat k) < k) by lia.
  assert (Hjb : 0 <= Z.of_nat (b mod Z.to_nat k) < k) by lia.
  destruct (ring_point_inj center k _ _ _ _ Hia Hib Hja Hjb E) as [E1 E2].
  apply Nat2Z.inj in E2. congruence.
Qed.

Lemma ring_pos_onto (k : Z) (p : HexPoint) :
  1 <= k -> q p + r p + s p = 0 ->
  cube_distance p (mkHexPoint 0 0 0) = k ->
  exists idx, (idx < 6 * Z.to_nat k)%nat
              /\ ring_pos (mkHexPoint 0 0 0) k idx = p.
Proof.
  intros Hk Hsum Hd. destruct p as [a b c].
  unfold cube_distance in Hd. simpl in *.
  assert (Hcases :
    (b = - k /\ 0 <= a < k) \/ (a = k /\ - k <= b < 0) \/
    (c = - k /\ 0 <= b < k) \/ (b = k /\ - k < a <= 0) \/
    (a = - k /\ 0 < b <= k) \/ (c = k /\ - k < b <= 0)) by lia_div.
  assert (Hn : (Z.to_nat k <> 0)%nat) by lia.
  assert (Hpos : forall (i : nat) (j : Z), (i < 6)%nat -> 0 <= j < k ->
            ring_pos (mkHexPoint 0 0 0) k (i * Z.to_nat k + Z.to_nat j)
            = ring_point (mkHexPoint 0 0 0) k i j).
  { intros i j Hi Hj. unfold ring_pos.
    rewrite Nat.div_add_l, Nat.div_small, Nat.add_0_r by lia.
    rewrite Nat.add_comm, Nat.Div0.mod_add, Nat.mod_small by lia.
    now rewrite Z2Nat.id by lia. }
  destruct Hcases as [H|[H|[H|[H|[H|H]]]]].
  - exists (0 * Z.to_nat k + Z.to_nat a)%nat. split; [lia |].
    rewrite Hpos by lia. hex_ring.
  - exists (1 * Z.to_nat k + Z.to_nat (b + k))%nat. split; [lia |].
    rewrite Hpos by lia. hex_ring.
  - exists (2 * Z.to_nat k + Z.to_nat b)%nat. split; [lia |].
    rewrite Hpos by lia. hex_ring.
  - exists (3 * Z.to_nat k + Z.to_nat (- a))%nat. split; [lia |].
    rewrite Hpos by lia. hex_ring.
  - exists (4 * Z.to_nat k + Z.to_nat (k - b))%nat. split; [lia |].
    rewrite Hpos by lia. hex_ring.
  - exists (5 * Z.to_nat k + Z.to_nat (- b))%nat. split; [lia |].
    rewrite Hpos by lia. hex_ring.
Qed.

(** ** The spiral index *)

Lemma getitem_nth {A} (l : list A) (n : nat) (a : A) :
  nth_error l n = Some a -> getitem l (Z.of_nat n) = Ok a.
Proof.
  intros Hn. unfold getitem.
  assert (Hlt : (n < length l)%nat) by (apply nth_error_Some; congruence).
  destruct (Z.ltb_spec (Z.of_nat n) 0); [lia |].
  destruct (Z.ltb_spec (Z.of_nat n) 0); [lia |].
  destruct (Z.leb_spec (Z.of_nat (length l)) (Z.of_nat n)); [lia |].
  cbn [orb]. now rewrite Nat2Z.id, Hn.
Qed.

Lemma find_index_first (p : HexPoint) (l : list HexPoint) :
  forall (i0 : Z) (n : nat),
    nth_error l n = Some p ->
    (forall m x, (m < n)%nat -> nth_error l m = Some x -> x <> p) ->
    find_index p l i0 = Some (i0 + Z.of_nat n).
Proof.
  induction l as [|h t IH]; intros i0 n Hn Hfirst.
  - destruct n; discriminate.
  - destruct n as [|n]; cbn [find_index].
    + injection Hn as ->. rewrite HexPoint_eqb_refl. f_equal. lia.
    + destruct (HexPoint_eqb p h) eqn:E.
      * apply HexPoint_eqb_eq in E. subst h.
        exfalso. apply (Hfirst 0%nat p); [lia | reflexivity | reflexivity].
      * rewrite (IH (i0 + 1) n Hn).
        -- f_equal. lia.
        -- intros m x Hm Hx. apply (Hfirst (S m) x); [lia | exact Hx].
Qed.

Lemma start_of_ring_step (k : Z) :
  1 <= k ->
  _spiral_index_start_of_ring (k + 1) = _spiral_index_start_of_ring k + 6 * k.
Proof.
  intros Hk. unfold _spiral_index_start_of_ring.
  destruct (Z.eqb_spec (k + 1) 0); [lia |].
  destruct (Z.eqb_spec k 0); lia.
Qed.

Lemma start_of_ring_mono (a b : Z) :
  0 <= a <= b ->
  _spiral_index_start_of_ring a <= _spiral_index_start_of_ring b.
Proof.
  intros H. unfold _spiral_index_start_of_ring.
  destruct (Z.eqb_spec a 0), (Z.eqb_spec b 0); nia.
Qed.

(** An index lies in one ring only. *)
Lemma ring_of_index_unique (i a b : Z) :
  0 <= a -> 0 <= b ->
  _spiral_index_start_of_ring a <= i < _spiral_index_start_of_ring (a + 1) ->
  _spiral_index_start_of_ring b <= i < _spiral_index_start_of_ring (b + 1) ->
  a = b.
Proof.
  intros Ha Hb Hia Hib.
  destruct (Z.lt_trichotomy a b) as [Hlt | [Heq | Hgt]]; [| exact Heq |].
  - pose proof (start_of_ring_mono (a + 1) b). lia.
  - pose proof (start_of_ring_mono (b + 1) a). lia.
Qed.

Lemma find_in_ring (k : Z) (idx : nat) :
  1 <= k -> (idx < 6 * Z.to_nat k)%nat ->
  find_index (ring_pos (mkHexPoint 0 0 0) k idx)
    (ring_walk (mkHexPoint 0 0 0) k) 0
  = Some (Z.of_nat idx).
Proof.
  intros Hk Hidx.
  rewrite (find_index_first _ _ 0 idx); [reflexivity | |].
  - apply ring_walk_nth; lia.
  - intros m x Hm Hx E.
    rewrite ring_walk_nth in Hx by lia. injection Hx as <-.
    apply ring_pos_inj in E; lia.
Qed.

Lemma ring_pos_distance (k : Z) (idx : nat) :
  1 <= k -> (idx < 6 * Z.to_nat k)%nat ->
  cube_distance (ring_pos (mkHexPoint 0 0 0) k idx) (mkHexPoint 0 0 0) = k.
Proof.
  intros Hk Hidx. unfold ring_pos.
  assert (Hn : (Z.to_nat k <> 0)%nat) by lia.
  pose proof (Nat.mod_upper_bound idx (Z.to_nat k) Hn).
  apply ring_point_distance; [| lia].
  apply Nat.Div0.div_lt_upper_bound; lia.
Qed.

Lemma cube_to_spiral_ring (k : Z) (idx : nat) :
  1 <= k -> (idx < 6 * Z.to_nat k)%nat ->
  cube_to_spiral (ring_pos (mkHexPoint 0 0 0) k idx)
  = Ok (Z.of_nat idx + _spiral_index_start_of_ring k).
Proof.
  intros Hk Hidx. unfold cube_to_spiral.
  rewrite ring_pos_distance, cube_ring_walk by assumption. cbn [bind].
  now rewrite find_in_ring.
Qed.

Lemma spiral_to_cube_ring libm_pow (i k : Z) :
  1 <= k ->
  _spiral_index_to_radius libm_pow i = Ok k ->
  _spiral_index_start_of_ring k <= i < _spiral_index_start_of_ring (k + 1) ->
  spiral_to_cube libm_pow i
  = Ok (ring_pos (mkHexPoint 0 0 0) k
          (Z.to_nat (i - _spiral_index_start_of_ring k))).
Proof.
  intros Hk Hrad Hi. unfold spiral_to_cube.
  rewrite Hrad. cbn [bind]. rewrite cube_ring_walk by assumption. cbn [bind].
  rewrite start_of_ring_step in Hi by assumption.
  rewrite <- (Z2Nat.id (i - _spiral_index_start_of_ring k)) at 1 by lia.
  apply getitem_nth, ring_walk_nth; lia.
Qed.

Lemma radius_exact_ring libm_pow (i : Z) :
  radius_exact libm_pow i = true ->
  exists k,
    _spiral_index_to_radius libm_pow i = Ok k /\ 0 <= k
    /\ _spiral_index_start_of_ring k <= i
       < _spiral_index_start_of_ring (k + 1).
Proof.
  unfold radius_exact, ring_holds. intros H.
  destruct (_spiral_index_to_radius libm_pow i) as [k|]; [| discriminate].
  rewrite !andb_true_iff in H. destruct H as [[H0 H1] H2].
  exists k. split; [reflexivity |]. lia.
Qed.

Lemma zero_sum_distance_zero (p : HexPoint) :
  q p + r p + s p = 0 -> cube_distance p (mkHexPoint 0 0 0) = 0 ->
  p = mkHexPoint 0 0 0.
Proof.
  intros Hsum Hd. unfold cube_distance in Hd. cbn [q r s] in Hd.
  apply HexPoint_ext; cbn [q r s]; lia_div.
Qed.

Lemma cube_distance_nonneg (a b : HexPoint) : 0 <= cube_distance a b.
Proof. unfold cube_distance. lia_div. Qed.

(** A point of the grid has an index, in the ring of its distance from the
    origin: its position in that ring, counted from the ring's start. *)
Lemma point_index (p : HexPoint) :
  q p + r p + s p = 0 ->
  exists i,
    cube_to_spiral p = Ok i
    /\ _spiral_index_start_of_ring (cube_distance p (mkHexPoint 0 0 0)) <= i
       < _spiral_index_start_of_ring (cube_distance p (mkHexPoint 0 0 0) + 1)
    /\ (1 <= cube_distance p (mkHexPoint 0 0 0) ->
        p = ring_pos (mkHexPoint 0 0 0) (cube_distance p (mkHexPoint 0 0 0))
              (Z.to_nat
                 (i - _spiral_index_start_of_ring
                        (cube_distance p (mkHexPoint 0 0 0))))).
Proof.
  intros Hsum.
  set (k := cube_distance p (mkHexPoint 0 0 0)) in *.
  pose proof (cube_distance_nonneg p (mkHexPoint 0 0 0)) as Hk0. fold k in Hk0.
  destruct (Z.eq_dec k 0) as [Hz | Hnz].
  - rewrite (zero_sum_distance_zero p Hsum Hz), Hz. exists 0.
    split; [reflexivity |]. split; [split; reflexivity | lia].
  - assert (Hk : 1 <= k) by lia.
    destruct (ring_pos_onto k p Hk Hsum eq_refl) as (idx & Hidx & Hp).
    set (i := Z.of_nat idx + _spiral_index_start_of_ring k).
    assert (Hring : _spiral_index_start_of_ring k <= i
                    < _spiral_index_start_of_ring (k + 1)).
    { rewrite start_of_ring_step by assumption. lia. }
    exists i. split; [| split; [exact Hring |]].
    + rewrite <- Hp. now apply cube_to_spiral_ring.
    + intros _. rewrite <- Hp. f_equal. lia.
Qed.

(** The way back finds the point when the float computation of the radius
    is right at its index. *)
Lemma point_index_point libm_pow (p : HexPoint) (i : Z) :
  q p + r p + s p = 0 ->
  cube_to_spiral p = Ok i ->
  radius_exact libm_pow i = true ->
  spiral_to_cube libm_pow i = Ok p.
Proof.
  intros Hsum Hi Hexact.
  destruct (point_index p Hsum) as (i' & Hi' & Hring & Hpos).
  assert (i' = i) by congruence. subst i'. clear Hi'.
  set (k := cube_distance p (mkHexPoint 0 0 0)) in *.
  pose proof (cube_distance_nonneg p (mkHexPoint 0 0 0)) as Hk0. fold k in Hk0.
  destruct (radius_exact_ring libm_pow i Hexact) as (k' & Hrad & Hk' & Hring').
  assert (k' = k) by (apply (ring_of_index_unique i); assumption || lia).
  subst k'.
  destruct (Z.eq_dec k 0) as [Hz | Hnz].
  - rewrite Hz in *.
    change (_spiral_index_start_of_ring 0) with 0 in Hring.
    change (_spiral_index_start_of_ring (0 + 1)) with 1 in Hring.
    assert (i = 0) by lia. subst i.
    rewrite (zero_sum_distance_zero p Hsum Hz).
    unfold spiral_to_cube. rewrite Hrad. reflexivity.
  - rewrite spiral_to_cube_ring with (k := k) by (assumption || lia).
    f_equal. symmetry. apply Hpos. lia.
Qed.

(** From an index to its point and back. *)
Lemma index_point_index libm_pow (i : Z) :
  radius_exact libm_pow i = true ->
  (p <- spiral_to_cube libm_pow i ;; cube_to_spiral p) = Ok i.
Proof.
  intros Hexact.
  destruct (radius_exact_ring libm_pow i Hexact) as (k & Hrad & Hk & Hring).
  destruct (Z.eq_dec k 0) as [-> | Hnz].
  - change (_spiral_index_start_of_ring 0) with 0 in Hring.
    change (_spiral_index_start_of_ring (0 + 1)) with 1 in Hring.
    assert (i = 0) by lia. subst i.
    unfold spiral_to_cube. rewrite Hrad. reflexivity.
  - assert (Hk1 : 1 <= k) by lia.
    rewrite spiral_to_cube_ring with (k := k) by assumption. cbn [bind].
    rewrite start_of_ring_step in Hring by assumption.
    rewrite cube_to_spiral_ring by lia. f_equal. lia.
Qed.

(** *** The root the C library returns *)

Lemma float_same_eq (a b : spec_float) : float_same a b = true -> a = b.
Proof.
  destruct a as [sa | sa | | sa ma ea], b as [sb | sb | | sb mb eb];
    cbn [float_same]; try discriminate.
  - intros H. apply Bool.eqb_prop in H. now subst.
  - intros H. apply Bool.eqb_prop in H. now subst.
  - reflexivity.
  - rewrite !andb_true_iff. intros [[Hs Hm] He].
    apply Bool.eqb_prop in Hs. apply Pos.eqb_eq in Hm. apply Z.eqb_eq in He.
    now subst.
Qed.

(** A faithful root is a finite double. *)
Lemma faithful_root_finite (x r : spec_float) :
  In r (faithful_roots x) ->
  match r with S754_infinity _ => False | _ => True end.
Proof.
  unfold faithful_roots. intros H. apply filter_In in H. destruct H as [_ H].
  destruct r; try exact I. discriminate H.
Qed.

(** At an index whose number under the root is an ordinary base, the code
    computes the radius from what the C library returns. *)
Lemma radius_by_root libm_pow (i : Z) :
  i <> 0 -> ordinary_base i = true -> faithful_at libm_pow i = true ->
  In (libm_pow (radicand i) half) (faithful_roots (radicand i))
  /\ _spiral_index_to_radius libm_pow i
     = radius_of_root (libm_pow (radicand i) half).
Proof.
  intros Hi Hb Hf.
  assert (Hin : In (libm_pow (radicand i) half)
                  (faithful_roots (radicand i))).
  { unfold faithful_at in Hf. apply existsb_exists in Hf.
    destruct Hf as (r & Hr & Hs). apply float_same_eq in Hs.
    now rewrite Hs. }
  split; [exact Hin |].
  pose proof (faithful_root_finite _ _ Hin) as Hfin.
  unfold _spiral_index_to_radius. destruct (Z.eqb_spec i 0); [contradiction |].
  unfold ordinary_base in Hb. apply andb_true_iff in Hb.
  destruct Hb as [Hlt Hx].
  unfold pow_half, as_float, of_int. rewrite Hlt. cbn [bind].
  fold (radicand i). unfold radius_of_root.
  destruct (radicand i) as [sg | sg | | [|] m e]; try discriminate Hx.
  apply negb_true_iff in Hx. rewrite Hx.
  destruct (libm_pow (S754_finite false m e) half);
    [reflexivity | contradiction | reflexivity | reflexivity].
Qed.

(** The radius, index by index and root by root. *)
Lemma exact_for_all_roots_checked :
  forallb exact_for_all_roots
    (map (fun i => i + 1) (range (faithful_indices - 1)))
  = true.
Proof. vm_compute. reflexivity. Qed.

Lemma radius_exact_below libm_pow :
  (forall i, 1 <= i < faithful_indices -> faithful_at libm_pow i = true) ->
  forall i, 0 <= i < faithful_indices -> radius_exact libm_pow i = true.
Proof.
  intros Hpow i Hi. destruct (Z.eq_dec i 0) as [-> | Hnz]; [reflexivity |].
  pose proof exact_for_all_roots_checked as H.
  rewrite forallb_forall in H. specialize (H i).
  assert (Hin : In i (map (fun i => i + 1) (range (faithful_indices - 1)))).
  { apply in_map_iff. exists (i - 1). split; [lia |]. apply range_In. lia. }
  specialize (H Hin). unfold exact_for_all_roots in H.
  apply andb_true_iff in H. destruct H as [Hb Hall].
  destruct (radius_by_root libm_pow i Hnz Hb (Hpow i ltac:(lia)))
    as [Hroot Hrad].
  rewrite forallb_forall in Hall. specialize (Hall _ Hroot).
  unfold radius_exact. now rewrite Hrad.
Qed.

(** *** One index before a ring start *)

Lemma ring_pos_last (k : Z) :
  1 <= k ->
  ring_pos (mkHexPoint 0 0 0) k (6 * Z.to_nat k - 1)
  = mkHexPoint (-1) (1 - k) k.
Proof.
  intros Hk. unfold ring_pos.
  assert (Hn : (1 <= Z.to_nat k)%nat) by lia.
  assert (Hk' : Z.of_nat (Z.to_nat k) = k) by lia.
  revert Hn Hk'. generalize (Z.to_nat k) as n. intros n Hn Hk'.
  assert (Hdiv : ((6 * n - 1) / n = 5)%nat).
  { symmetry. apply (Nat.div_unique _ _ _ (n - 1)); lia. }
  assert (Hmod : ((6 * n - 1) mod n = n - 1)%nat).
  { symmetry. apply (Nat.mod_unique _ _ 5); lia. }
  rewrite Hdiv, Hmod. apply HexPoint_ext; hex_simpl; lia.
Qed.

(** The last point of ring [k] has the last index before ring [k + 1]. *)
Lemma cube_to_spiral_last (k : Z) :
  1 <= k ->
  cube_to_spiral (mkHexPoint (-1) (1 - k) k)
  = Ok (_spiral_index_start_of_ring (k + 1) - 1).
Proof.
  intros Hk. rewrite <- (ring_pos_last k Hk).
  rewrite cube_to_spiral_ring by lia.
  rewrite start_of_ring_step by assumption. f_equal. lia.
Qed.

Lemma getitem_last {A} (l : list A) (a : A) :
  nth_error l (length l - 1) = Some a -> getitem l (-1) = Ok a.
Proof.
  intros Hn.
  assert (Hlen : (length l - 1 < length l)%nat)
    by (apply nth_error_Some; congruence).
  unfold getitem. change (-1 <? 0) with true. cbn iota.
  destruct (Z.ltb_spec (-1 + Z.of_nat (length l)) 0); [lia |].
  destruct (Z.leb_spec (Z.of_nat (length l)) (-1 + Z.of_nat (length l)));
    [lia |].
  cbn [orb].
  replace (Z.to_nat (-1 + Z.of_nat (length l))) with (length l - 1)%nat
    by lia.
  now rewrite Hn.
Qed.

(** When the radius computed for the last index of ring [k - 1] is [k], the
    index minus the ring start is [-1], and the list index [-1] is the last
    point of ring [k]. *)
Lemma spiral_to_cube_ring_late libm_pow (i k : Z) :
  1 <= k ->
  _spiral_index_to_radius libm_pow i = Ok k ->
  i = _spiral_index_start_of_ring k - 1 ->
  spiral_to_cube libm_pow i = Ok (mkHexPoint (-1) (1 - k) k).
Proof.
  intros Hk Hrad Hi. unfold spiral_to_cube.
  rewrite Hrad. cbn [bind]. rewrite cube_ring_walk by assumption. cbn [bind].
  replace (i - _spiral_index_start_of_ring k) with (-1) by lia.
  apply getitem_last.
  pose proof (ring_walk_length (mkHexPoint 0 0 0) k ltac:(lia)) as Hlen.
  replace (length (ring_walk (mkHexPoint 0 0 0) k) - 1)%nat
    with (6 * Z.to_nat k - 1)%nat by lia.
  rewrite ring_walk_nth by lia. f_equal. now apply ring_pos_last.
Qed.

(** C1, on the code.  What holds: every point with [q + r + s = 0] has an
    index [i >= 0], [spiral_to_cube(i)] is that point whenever the radius
    computed for [i] is the ring that holds [i], and at every such index
    [cube_to_spiral(spiral_to_cube(i)) == i]; with a C library that rounds
    the square root faithfully this is so for every index of the rings of
    radius at most 20, [0 .. 1260], checked index by index and root by
    root.  What fails: at the index [6004799458421418], the last of ring
    [44739242], every faithful root gives the radius [44739243];
    [spiral_to_cube] then takes position [-1] of ring [44739243] and
    returns its last point, whose index is [6004799726856876], and the
    point that has the index [6004799458421418] does not come back.  The
    index [10^400] raises OverflowError. *)
Theorem spiral_roundtrip_breaks
    (libm_pow : spec_float -> spec_float -> spec_float) :
  (forall p : HexPoint,
      q p + r p + s p = 0 ->
      exists i, cube_to_spiral p = Ok i /\ 0 <= i
                /\ (radius_exact libm_pow i = true ->
                    spiral_to_cube libm_pow i = Ok p))
  /\ (forall i : Z,
         radius_exact libm_pow i = true ->
         (p <- spiral_to_cube libm_pow i ;; cube_to_spiral p) = Ok i)
  /\ ((forall i : Z, 1 <= i < 1261 -> faithful_at libm_pow i = true) ->
      (forall i : Z, 0 <= i < 1261 -> radius_exact libm_pow i = true)
      /\ (forall p : HexPoint,
             q p + r p + s p = 0 ->
             cube_distance p (mkHexPoint 0 0 0) <= 20 ->
             (i <- cube_to_spiral p ;; spiral_to_cube libm_pow i) = Ok p)
      /\ (forall i : Z,
             0 <= i < 1261 ->
             (p <- spiral_to_cube libm_pow i ;; cube_to_spiral p) = Ok i))
  /\ (faithful_at libm_pow 6004799458421418 = true ->
      _spiral_index_start_of_ring 44739242 <= 6004799458421418
      < _spiral_index_start_of_ring 44739243
      /\ _spiral_index_to_radius libm_pow 6004799458421418 = Ok 44739243
      /\ spiral_to_cube libm_pow 6004799458421418
         = Ok (mkHexPoint (-1) (-44739242) 44739243)
      /\ (p <- spiral_to_cube libm_pow 6004799458421418 ;; cube_to_spiral p)
         = Ok 6004799726856876
      /\ cube_to_spiral (mkHexPoint (-1) (-44739241) 44739242)
         = Ok 6004799458421418
      /\ (i <- cube_to_spiral (mkHexPoint (-1) (-44739241) 44739242) ;;
          spiral_to_cube libm_pow i)
         = Ok (mkHexPoint (-1) (-44739242) 44739243))
  /\ spiral_to_cube libm_pow (10 ^ 400) = Raise OverflowError.
Proof.
  split; [| split; [| split; [| split]]].
  - intros p Hsum.
    destruct (point_index p Hsum) as (i & Hi & Hring & _).
    exists i. split; [exact Hi |]. split.
    + pose proof (cube_distance_nonneg p (mkHexPoint 0 0 0)).
      pose proof (start_of_ring_mono 0 (cube_distance p (mkHexPoint 0 0 0))
                    ltac:(lia)) as H0.
      change (_spiral_index_start_of_ring 0) with 0 in H0. lia.
    + now apply point_index_point.
  - apply index_point_index.
  - intros Hpow.
    assert (Hbelow : forall i, 0 <= i < 1261 ->
                               radius_exact libm_pow i = true)
      by (apply radius_exact_below; exact Hpow).
    split; [exact Hbelow |]. split.
    + intros p Hsum Hbound.
      destruct (point_index p Hsum) as (i & Hi & Hring & _).
      rewrite Hi. cbn [bind]. apply point_index_point; [assumption .. |].
      apply Hbelow.
      pose proof (cube_distance_nonneg p (mkHexPoint 0 0 0)).
      pose proof (start_of_ring_mono 0 (cube_distance p (mkHexPoint 0 0 0))
                    ltac:(lia)) as H0.
      pose proof (start_of_ring_mono
                    (cube_distance p (mkHexPoint 0 0 0) + 1)
                    (20 + 1) ltac:(lia)) as H1.
      change (_spiral_index_start_of_ring 0) with 0 in H0.
      change (_spiral_index_start_of_ring (20 + 1)) with 1261 in H1. lia.
    + intros i Hi. apply index_point_index, Hbelow, Hi.
  - intros Hf.
    assert (Hring : _spiral_index_start_of_ring 44739242 <= 6004799458421418
                    < _spiral_index_start_of_ring 44739243)
      by (split; [apply Z.leb_le | apply Z.ltb_lt]; vm_compute; reflexivity).
    assert (Hrad : _spiral_index_to_radius libm_pow 6004799458421418
                   = Ok 44739243).
    { destruct (radius_by_root libm_pow 6004799458421418) as [Hroot ->];
        [discriminate | vm_compute; reflexivity | exact Hf |].
      assert (Hall : forallb
                       (fun root => match radius_of_root root with
                                    | Ok radius => radius =? 44739243
                                    | Raise _ => false
                                    end)
                       (faithful_roots (radicand 6004799458421418)) = true)
        by (vm_compute; reflexivity).
      rewrite forallb_forall in Hall. specialize (Hall _ Hroot).
      destruct (radius_of_root _) as [radius |]; [| discriminate].
      apply Z.eqb_eq in Hall. rewrite Hall. reflexivity. }
    assert (Hback : spiral_to_cube libm_pow 6004799458421418
                    = Ok (mkHexPoint (-1) (-44739242) 44739243)).
    { change (-44739242) with (1 - 44739243).
      apply spiral_to_cube_ring_late; [lia | exact Hrad | reflexivity]. }
    assert (Hlast : cube_to_spiral (mkHexPoint (-1) (-44739242) 44739243)
                    = Ok 6004799726856876).
    { change (-44739242) with (1 - 44739243).
      rewrite cube_to_spiral_last by lia. reflexivity. }
    assert (Hpoint : cube_to_spiral (mkHexPoint (-1) (-44739241) 44739242)
                     = Ok 6004799458421418).
    { change (-44739241) with (1 - 44739242).
      rewrite cube_to_spiral_last by lia. reflexivity. }
    split; [exact Hring |]. split; [exact Hrad |]. split; [exact Hback |].
    split; [rewrite Hback; exact Hlast |]. split; [exact Hpoint |].
    rewrite Hpoint. exact Hback.
  - vm_compute. reflexivity.
Qed.

(** With correctly rounded square roots. *)
Lemma spiral_roundtrip_breaks_witness :
  (p <- spiral_to_cube sqrt_pow 6004799458421418 ;; cube_to_spiral p)
  = Ok 6004799726856876
  /\ (p <- spiral_to_cube sqrt_pow 100 ;; cube_to_spiral p) = Ok 100.
Proof.
  destruct (spiral_roundtrip_breaks sqrt_pow) as (_ & _ & Hrange & Hfail & _).
  split.
  - apply (Hfail ltac:(vm_compute; reflexivity)).
  - apply Hrange; [| lia].
    assert (Hall : forallb (faithful_at sqrt_pow)
                     (map (fun i => i + 1) (range (faithful_indices - 1)))
                   = true)
      by (vm_compute; reflexivity).
    intros i Hi. rewrite forallb_forall in Hall. apply Hall.
    apply in_map_iff. exists (i - 1). split; [lia |].
    apply range_In. change faithful_indices with 1261. lia.
Defined.

(** At the index [6720947430205950] the radius depends on the last bit of
    the root: the real root lies between two doubles, the lower one (the
    correctly rounded root) gives the ring [47331974] that holds the index,
    the upper one gives the ring [47331975]. *)
Lemma radius_depends_on_root :
  faithful_roots (radicand 6720947430205950)
  = [S754_finite false 4764592559357951 (-24);
     S754_finite false 4764592559357952 (-24)]
  /\ map radius_of_root (faithful_roots (radicand 6720947430205950))
     = [Ok 47331974; Ok 47331975]
  /\ ring_holds 6720947430205950 47331974 = true
  /\ ring_holds 6720947430205950 47331975 = false.
Proof. repeat split; vm_compute; reflexivity. Qed.

(** ** C3: the ring *)

Lemma ring_walk_distance (center : HexPoint) (k : Z) :
  1 <= k ->
  Forall (fun x => cube_distance center x = k) (ring_walk center k).
Proof.
  intros Hk. apply Forall_forall. intros x Hx.
  apply In_nth_error in Hx. destruct Hx as [idx Hidx].
  assert (Hlt : (idx < 6 * Z.to_nat k)%nat).
  { pose proof (ring_walk_length center k ltac:(lia)).
    assert ((idx < length (ring_walk center k))%nat)
      by (apply nth_error_Some; congruence).
    lia. }
  rewrite ring_walk_nth in Hidx by lia. injection Hidx as <-.
  unfold ring_pos.
  assert (Hn : (Z.to_nat k <> 0)%nat) by lia.
  pose proof (Nat.mod_upper_bound idx (Z.to_nat k) Hn).
  apply ring_point_distance; [| lia].
  apply Nat.Div0.div_lt_upper_bound; lia.
Qed.

(** C3: [cube_ring(center, 0) == [center]]; for every radius [k >= 1] the
    ring is the walk that starts at [center + direction[4]*k] and takes six
    sides of [k] unit steps in the order of the directions, each point
    appended before the step; it has exactly [6*k] points, each at cube
    distance [k] from the center; a negative radius raises ValueError. *)
Theorem cube_ring_spec (center : HexPoint) (k : Z) :
  cube_ring center 0 = Ok [center]
  /\ (1 <= k ->
      cube_ring center k = Ok (ring_walk center k)
      /\ Z.of_nat (length (ring_walk center k)) = 6 * k
      /\ Forall (fun x => cube_distance center x = k) (ring_walk center k))
  /\ (k < 0 -> cube_ring center k = Raise ValueError).
Proof.
  split; [reflexivity |]. split.
  - intros Hk. split; [now apply cube_ring_walk |].
    split; [apply ring_walk_length; lia | now apply ring_walk_distance].
  - intros Hk. unfold cube_ring.
    destruct (Z.ltb_spec k 0); [reflexivity | lia].
Qed.

Lemma cube_ring_spec_witness :
  (cube_ring (mkHexPoint 1 2 (-3)) 2
   = Ok (ring_walk (mkHexPoint 1 2 (-3)) 2)
   /\ Z.of_nat (length (ring_walk (mkHexPoint 1 2 (-3)) 2)) = 6 * 2
   /\ Forall (fun x => cube_distance (mkHexPoint 1 2 (-3)) x = 2)
        (ring_walk (mkHexPoint 1 2 (-3)) 2))
  /\ cube_ring (mkHexPoint 1 2 (-3)) (-1) = Raise ValueError.
Proof.
  split.
  - apply (proj1 (proj2 (cube_ring_spec (mkHexPoint 1 2 (-3)) 2))). lia.
  - apply (proj2 (proj2 (cube_ring_spec (mkHexPoint 1 2 (-3)) (-1)))). lia.
Defined.

(** ** C5: neighbours *)

(** C5, as the code has it: for [d] in [0..5] the neighbour is
    [p + CUBE_DIRECTIONS[d]]; for [d] in [-6..-1] the index counts from the
    end of the list and the neighbour is [p + CUBE_DIRECTIONS[d + 6]]; for
    every other [d] the call raises IndexError. *)
Theorem cube_neighbor_spec (p : HexPoint) (d : Z) :
  (0 <= d <= 5 ->
   cube_neighbor p d = Ok (HexPoint_add p (direction (Z.to_nat d))))
  /\ (-6 <= d <= -1 ->
      cube_neighbor p d = Ok (HexPoint_add p (direction (Z.to_nat (d + 6)))))
  /\ (d < -6 \/ 6 <= d -> cube_neighbor p d = Raise IndexError).
Proof.
  unfold cube_neighbor. split; [| split].
  - intros Hd.
    assert (H : d = 0 \/ d = 1 \/ d = 2 \/ d = 3 \/ d = 4 \/ d = 5) by lia.
    destruct H as [->|[->|[->|[->|[->| ->]]]]]; reflexivity.
  - intros Hd.
    assert (H : d = -6 \/ d = -5 \/ d = -4 \/ d = -3 \/ d = -2 \/ d = -1)
      by lia.
    destruct H as [->|[->|[->|[->|[->| ->]]]]]; reflexivity.
  - intros Hd. unfold getitem. cbn [length CUBE_DIRECTIONS].
    change (Z.of_nat 6) with 6.
    destruct (Z.ltb_spec d 0).
    + destruct (Z.ltb_spec (d + 6) 0); [reflexivity | lia].
    + destruct (Z.ltb_spec d 0); [lia |].
      destruct (Z.leb_spec 6 d); [reflexivity | lia].
Qed.

Lemma cube_neighbor_spec_witness :
  cube_neighbor (mkHexPoint 0 0 0) 0 = Ok (mkHexPoint 1 0 (-1))
  /\ cube_neighbor (mkHexPoint 0 0 0) (-6) = Ok (mkHexPoint 1 0 (-1))
  /\ cube_neighbor (mkHexPoint 0 0 0) 6 = Raise IndexError
  /\ cube_neighbor (mkHexPoint 0 0 0) (-7) = Raise IndexError.
Proof.
  split; [| split; [| split]].
  - apply (proj1 (cube_neighbor_spec (mkHexPoint 0 0 0) 0)). lia.
  - apply (proj1 (proj2 (cube_neighbor_spec (mkHexPoint 0 0 0) (-6)))). lia.
  - apply (proj2 (proj2 (cube_neighbor_spec (mkHexPoint 0 0 0) 6))). lia.
  - apply (proj2 (proj2 (cube_neighbor_spec (mkHexPoint 0 0 0) (-7)))). lia.
Defined.

(** C5 as stated fails: [-1] is not in [0..5], and [cube_neighbor] returns
    the neighbour in direction 5 instead of raising. *)
Lemma cube_neighbor_negative_direction :
  ~ (0 <= -1 <= 5)
  /\ cube_neighbor (mkHexPoint 0 0 0) (-1) = Ok (mkHexPoint 1 (-1) 0).
Proof. split; [lia | reflexivity]. Qed.

(** ** C8: angle conventions *)

Lemma angle_to_math_angle_formula (angle : Z) :
  _angle_to_math_angle angle = (90 - angle) mod 360.
Proof. unfold _angle_to_math_angle. f_equal. lia. Qed.

(** C8, what the code does: [_angle_to_math_angle(a) = (90 - a) mod 360],
    which is its own inverse on [0, 360); [_math_angle_to_angle] composed
    with it, either way round, is a half turn:
    [(a + 180) mod 360], never [a]. *)
Theorem angle_conversion_half_turn (a : Z) :
  _angle_to_math_angle a = (90 - a) mod 360
  /\ _math_angle_to_angle (_angle_to_math_angle a) = (a + 180) mod 360
  /\ _angle_to_math_angle (_math_angle_to_angle a) = (a + 180) mod 360
  /\ _math_angle_to_angle (_angle_to_math_angle a) <> a
  /\ (0 <= a < 360 -> _angle_to_math_angle (_angle_to_math_angle a) = a).
Proof.
  unfold _angle_to_math_angle, _math_angle_to_angle.
  split; [| split; [| split; [| split]]]; try intros H; lia_div.
Qed.

Lemma angle_conversion_half_turn_witness :
  _math_angle_to_angle (_angle_to_math_angle 0) = 180
  /\ _angle_to_math_angle (_angle_to_math_angle 0) = 0.
Proof.
  split.
  - apply (proj1 (proj2 (angle_conversion_half_turn 0))).
  - apply (proj2 (proj2 (proj2 (proj2 (angle_conversion_half_turn 0))))). lia.
Defined.

(** ** C10, C9, C6, C7: cells and the map *)

Section CellProofs.

Context {Data : Type}.

Implicit Types (c : HexCell Data) (m : HexMap Data) (g : dict Data).

(** C10: reading [xy], [x] or [y] of any cell raises TypeError: the getter
    passes the point as one argument to a conversion of three parameters. *)
Theorem HexCell_xy_raises c :
  HexCell_xy c = Raise TypeError
  /\ HexCell_x c = Raise TypeError
  /\ HexCell_y c = Raise TypeError.
Proof.
  unfold HexCell_x, HexCell_y, HexCell_xy.
  destruct (cell_orientation c); repeat split.
Qed.

(** *** [spacing] *)

Lemma bind_st_ok {S A B} (c : M S A) (k : A -> M S B) st a st' :
  c st = (Ok a, st') -> bind_st c k st = k a st'.
Proof. unfold bind_st. now intros ->. Qed.

Lemma bind_st_raise {S A B} (c : M S A) (k : A -> M S B) st e st' :
  c st = (Raise e, st') -> bind_st c k st = (Raise e, st').
Proof. unfold bind_st. now intros ->. Qed.

Lemma mul_raises_overflow (a b : num) (e : exn) :
  Num.mul a b = Raise e -> e = OverflowError.
Proof.
  unfold Num.mul, as_float, of_int.
  destruct a as [x | x], b as [y | y]; cbn [bind];
    repeat match goal with
           | |- context [if ?t then _ else _] => destruct t
           end; cbn [bind]; congruence.
Qed.

Lemma HexCell_size_cases c :
  (exists sz c', HexCell_size c = (Ok sz, c'))
  \/ HexCell_size c = (Raise OverflowError, c).
Proof.
  unfold HexCell_size.
  destruct (negb (Size_bool (cell_size c))); [| left; eauto].
  destruct (Num.mul (Int 2) (cell_radius c)) as [a | e] eqn:E2.
  - destruct (Num.mul (Float sqrt3) (cell_radius c)) as [b | e] eqn:E3.
    + left. eauto.
    + right. now rewrite (mul_raises_overflow _ _ _ E3).
  - right. now rewrite (mul_raises_overflow _ _ _ E2).
Qed.

(** [self.width] and [self.height]: a number, or the OverflowError of the
    size computation; [_spacing] and the orientation are left alone. *)
Lemma HexMap_side_cases (side_of : Size -> num) m :
  let getter : M (HexMap Data) num :=
    sz <~ HexMap_size ;; ret_st (side_of sz) in
  exists m', map_spacing m' = map_spacing m
             /\ ((exists v, getter m = (Ok v, m'))
                 \/ getter m = (Raise OverflowError, m')).
Proof.
  intros getter. unfold getter, bind_st, HexMap_size, ret_st.
  destruct (HexCell_size_cases (map_reference m)) as [(sz & c' & ->) | ->].
  - exists (with_reference c' m). split; [reflexivity |]. left. eauto.
  - exists (with_reference (map_reference m) m).
    split; [reflexivity |]. right. reflexivity.
Qed.

Lemma assign_spacing_raises (f : Size_field) (v : num) m :
  assign_spacing f v m = (Raise AttributeError, m).
Proof. reflexivity. Qed.

Lemma spacing_unset_raises m :
  Size_bool (map_spacing m) = false ->
  exists e, fst (spacing m) = Raise e
            /\ (e = AttributeError \/ e = OverflowError)
            /\ map_spacing (snd (spacing m)) = map_spacing m.
Proof.
  intros Hfalsy. unfold spacing. rewrite Hfalsy. cbn [negb].
  destruct (HexMap_side_cases width m) as (m1 & Hsp & Hw).
  cbv zeta in Hw. fold (@HexMap_width Data) in Hw.
  destruct (map_orientation m).
  - destruct Hw as [[w Hw] | Hw].
    + erewrite bind_st_raise;
        [| erewrite bind_st_ok by exact Hw;
           erewrite bind_st_raise by apply assign_spacing_raises;
           reflexivity].
      cbn [fst snd]. eauto.
    + erewrite bind_st_raise;
        [| erewrite bind_st_raise by exact Hw; reflexivity].
      cbn [fst snd]. eauto.
  - destruct Hw as [[w Hw] | Hw].
    + destruct (Num.mul (Float three_quarters) w) as [v | e] eqn:Ev.
      * erewrite bind_st_raise;
          [| erewrite bind_st_ok by exact Hw;
             erewrite bind_st_ok by (unfold lift_st; rewrite Ev; reflexivity);
             erewrite bind_st_raise by apply assign_spacing_raises;
             reflexivity].
        cbn [fst snd]. eauto.
      * erewrite bind_st_raise;
          [| erewrite bind_st_ok by exact Hw;
             erewrite bind_st_raise
               by (unfold lift_st; rewrite Ev; reflexivity);
             reflexivity].
        cbn [fst snd]. rewrite (mul_raises_overflow _ _ _ Ev). eauto.
    + erewrite bind_st_raise;
        [| erewrite bind_st_raise by exact Hw; reflexivity].
      cbn [fst snd]. eauto.
Qed.

(** C9, what the code does: on a map as the constructor builds it,
    reading [spacing] raises and leaves [_spacing] at [Size(0, 0)], so
    that every later read raises as well, and no pair
    [(width, 0.75 * height)] is ever returned.  The exception is the
    AttributeError of the assignment to a field of the [NamedTuple],
    unless the radius is an [int] too large for the float arithmetic
    before the assignment (OverflowError). *)
Theorem HexMap_spacing_raises (radius : num) (o : GridOrientation) :
  let m : HexMap Data := HexMap_init radius o in
  (exists e, fst (spacing m) = Raise e
             /\ (e = AttributeError \/ e = OverflowError))
  /\ map_spacing (snd (spacing m)) = mkSize (Int 0) (Int 0)
  /\ (forall z, radius = Int z -> Z.abs z < 2 ^ 1000 ->
                fst (spacing m) = Raise AttributeError).
Proof.
  intros m.
  destruct (spacing_unset_raises m eq_refl) as (e & He & Hor & Hsp).
  split; [eauto |]. split; [exact Hsp |].
  intros z -> Hz.
  assert (Hsmall : forall k, Z.abs k <= 2 -> exists w,
              of_int (k * z) = Ok w).
  { intros k Hk. unfold of_int.
    assert (2 ^ 1001 < overflow_threshold) by (vm_compute; reflexivity).
    assert (2 ^ 1001 = 2 * 2 ^ 1000) by (vm_compute; reflexivity).
    destruct (Z.ltb_spec (Z.abs (k * z)) overflow_threshold);
      [eauto | nia]. }
  destruct (Hsmall 1 ltac:(lia)) as [w1 Hw1]. rewrite Z.mul_1_l in Hw1.
  destruct (Hsmall 2 ltac:(lia)) as [w2 Hw2].
  assert (Hsize : exists sz m1,
             HexMap_size m = (Ok sz, m1)
             /\ (o = FLAT_TOP -> width sz = Int (2 * z))).
  { unfold HexMap_size, m, HexCell_size.
    cbn [HexMap_init map_reference HexCell_init cell_size cell_radius
           cell_orientation].
    change (negb (Size_bool (mkSize (Int 0) (Int 0)))) with true. cbv iota.
    unfold Num.mul. cbn [as_float bind]. rewrite Hw1. cbn [bind].
    do 2 eexists. split; [reflexivity |]. now intros ->. }
  destruct Hsize as (sz & m1 & Hsize & Hflat).
  assert (Hwidth : HexMap_width m = (Ok (width sz), m1)).
  { unfold HexMap_width. erewrite bind_st_ok by exact Hsize. reflexivity. }
  unfold spacing. change (negb (Size_bool (map_spacing m))) with true.
  cbv iota. change (map_orientation m) with o.
  destruct o.
  - erewrite bind_st_raise;
      [| erewrite bind_st_ok by exact Hwidth;
         erewrite bind_st_raise by apply assign_spacing_raises;
         reflexivity].
    reflexivity.
  - rewrite (Hflat eq_refl) in Hwidth.
    erewrite bind_st_raise;
      [| erewrite bind_st_ok by exact Hwidth;
         erewrite bind_st_ok
           by (unfold lift_st, Num.mul; cbn [as_float bind];
               rewrite Hw2; reflexivity);
         erewrite bind_st_raise by apply assign_spacing_raises;
         reflexivity].
    reflexivity.
Qed.

End CellProofs.

Lemma HexMap_spacing_raises_witness :
  fst (spacing (HexMap_init (Int 100) POINTY_TOP : HexMap unit))
  = Raise AttributeError.
Proof.
  apply (proj2 (proj2 (HexMap_spacing_raises (Int 100) POINTY_TOP)) 100 eq_refl).
  vm_compute. reflexivity.
Defined.

(** ** C6: swap *)

Section MapProofs.

Context {Data : Type}.

Implicit Types (c : HexCell Data) (m : HexMap Data) (g : dict Data).

Lemma dict_contains_get k g :
  dict_contains k g = true <-> exists c, dict_get k g = Some c.
Proof.
  induction g as [|[k' c'] g IH]; cbn [dict_contains existsb dict_get fst].
  - split; [discriminate | intros [c Hc]; discriminate].
  - destruct (HexPoint_eqb k k'); cbn [orb]; [split; eauto | exact IH].
Qed.

Lemma dict_contains_false k g :
  dict_contains k g = false <-> dict_get k g = None.
Proof.
  pose proof (dict_contains_get k g) as H.
  destruct (dict_contains k g), (dict_get k g) as [c|].
  - split; discriminate.
  - destruct (proj1 H eq_refl) as [c Hc]. discriminate.
  - pose proof (proj2 H (ex_intro _ c eq_refl)). discriminate.
  - split; reflexivity.
Qed.

Lemma dict_update_keys k (f : HexCell Data -> HexCell Data) g :
  map fst (dict_update k f g) = map fst g.
Proof.
  induction g as [|[k' c'] g IH]; cbn [dict_update map fst]; [reflexivity |].
  destruct (HexPoint_eqb k k'); cbn [map fst]; [reflexivity | now rewrite IH].
Qed.

Lemma dict_get_update k k' (f : HexCell Data -> HexCell Data) g :
  dict_get k' (dict_update k f g)
  = if HexPoint_eqb k' k then option_map f (dict_get k' g)
    else dict_get k' g.
Proof.
  induction g as [|[k0 c0] g IH]; cbn [dict_update dict_get].
  - now destruct (HexPoint_eqb k' k).
  - destruct (HexPoint_eqb k k0) eqn:E0; cbn [dict_get].
    + apply HexPoint_eqb_eq in E0. subst k0.
      destruct (HexPoint_eqb k' k); reflexivity.
    + destruct (HexPoint_eqb k' k0) eqn:E1.
      * apply HexPoint_eqb_eq in E1. subst k0.
        destruct (HexPoint_eqb k' k) eqn:E2; [| reflexivity].
        apply HexPoint_eqb_eq in E2. subst k'.
        rewrite HexPoint_eqb_refl in E0. discriminate.
      * exact IH.
Qed.

Lemma HexMap_get_found point m c :
  dict_get point (map_grid m) = Some c -> HexMap_get point m = (Ok c, m).
Proof. unfold HexMap_get. now intros ->. Qed.

Lemma with_grid_grid g m : map_grid (with_grid g m) = g.
Proof. reflexivity. Qed.

Lemma with_grid_twice g g' m : with_grid g' (with_grid g m) = with_grid g' m.
Proof. reflexivity. Qed.

Lemma with_grid_same m : with_grid (map_grid m) m = m.
Proof. now destruct m. Qed.

(** C6: when both points are present, [swap] returns normally; the keys of
    the grid and their order stay, the cell under [point1] keeps its point,
    orientation, radius and size and now carries the payload of the cell
    under [point2], and the other way round; the pixel cache of both is
    cleared; every other cell and every other field of the map is as before.
    When a point is absent, [swap] raises ValueError and the map is as
    before. *)
Theorem swap_spec m (point1 point2 : HexPoint) :
  (forall c1 c2,
      dict_get point1 (map_grid m) = Some c1 ->
      dict_get point2 (map_grid m) = Some c2 ->
      exists g',
        swap point1 point2 m = (Ok tt, with_grid g' m)
        /\ map fst g' = map fst (map_grid m)
        /\ dict_get point1 g'
           = Some (mkHexCell (cell_orientation c1) (cell_radius c1)
                     (cell_point c1) (cell_data c2) (cell_size c1) None)
        /\ dict_get point2 g'
           = Some (mkHexCell (cell_orientation c2) (cell_radius c2)
                     (cell_point c2) (cell_data c1) (cell_size c2) None)
        /\ (forall k, k <> point1 -> k <> point2 ->
                      dict_get k g' = dict_get k (map_grid m)))
  /\ (HexMap_contains m point1 = false \/ HexMap_contains m point2 = false ->
      swap point1 point2 m = (Raise ValueError, m)).
Proof.
  split.
  - intros c1 c2 H1 H2.
    assert (Hc1 : HexMap_contains m point1 = true)
      by (apply dict_contains_get; eauto).
    assert (Hc2 : HexMap_contains m point2 = true)
      by (apply dict_contains_get; eauto).
    unfold swap. rewrite Hc1, Hc2. cbn [negb orb].
    erewrite bind_st_ok by (apply HexMap_get_found; exact H2).
    erewrite bind_st_ok by (apply HexMap_get_found; exact H1).
    unfold bind_st, mutate_cell. rewrite !with_grid_grid, !with_grid_twice.
    eexists. split; [reflexivity |]. split; [| split; [| split]].
    + now rewrite !dict_update_keys.
    + rewrite !dict_get_update, HexPoint_eqb_refl, H1.
      destruct (HexPoint_eqb point1 point2) eqn:E; [| reflexivity].
      apply HexPoint_eqb_eq in E. subst point2.
      assert (c2 = c1) by congruence. subst c2. reflexivity.
    + rewrite !dict_get_update, HexPoint_eqb_refl, H2.
      destruct (HexPoint_eqb point2 point1) eqn:E; [| reflexivity].
      apply HexPoint_eqb_eq in E. subst point2.
      assert (c2 = c1) by congruence. subst c2. reflexivity.
    + intros k Hk1 Hk2. rewrite !dict_get_update.
      apply HexPoint_eqb_neq in Hk1, Hk2. now rewrite Hk1, Hk2.
  - intros H. unfold swap.
    destruct H as [-> | ->]; cbn [negb orb]; [reflexivity |].
    now rewrite orb_true_r.
Qed.

End MapProofs.

Lemma swap_spec_witness :
  let m : HexMap nat :=
    snd (HexMap_set (mkHexPoint 1 0 (-1)) (Payload (Some 7%nat))
           (snd (HexMap_set (mkHexPoint 0 0 0) (Payload None)
                   (HexMap_init (Int 1) POINTY_TOP)))) in
  (exists g',
      swap (mkHexPoint 0 0 0) (mkHexPoint 1 0 (-1)) m = (Ok tt, with_grid g' m)
      /\ option_map cell_data (dict_get (mkHexPoint 0 0 0) g')
         = Some (Some 7%nat)
      /\ option_map cell_data (dict_get (mkHexPoint 1 0 (-1)) g')
         = Some None)
  /\ swap (mkHexPoint 0 0 0) (mkHexPoint 5 0 (-5)) m = (Raise ValueError, m).
Proof.
  intros m. split.
  - destruct (proj1 (swap_spec m (mkHexPoint 0 0 0) (mkHexPoint 1 0 (-1)))
                _ _ eq_refl eq_refl) as (g' & Hs & _ & H1 & H2 & _).
    exists g'. rewrite H1, H2. split; [exact Hs |]. split; reflexivity.
  - apply (proj2 (swap_spec m (mkHexPoint 0 0 0) (mkHexPoint 5 0 (-5)))).
    right. reflexivity.
Defined.

(** ** C7: fill_to_radius *)

Lemma cube_ring_ring_of (i : Z) :
  0 <= i -> cube_ring (mkHexPoint 0 0 0) i = Ok (ring_of i).
Proof.
  intros Hi. unfold ring_of. destruct (Z.eqb_spec i 0) as [-> | Hnz].
  - reflexivity.
  - apply cube_ring_walk. lia.
Qed.

Lemma ring_of_distance (i : Z) (p : HexPoint) :
  0 <= i -> In p (ring_of i) -> cube_distance (mkHexPoint 0 0 0) p = i.
Proof.
  intros Hi Hp. unfold ring_of in Hp. destruct (Z.eqb_spec i 0) as [-> | Hnz].
  - destruct Hp as [<- | []]. reflexivity.
  - pose proof (ring_walk_distance (mkHexPoint 0 0 0) i ltac:(lia)) as H.
    rewrite Forall_forall in H. now apply H.
Qed.

Lemma ring_walk_NoDup (center : HexPoint) (k : Z) :
  1 <= k -> NoDup (ring_walk center k).
Proof.
  intros Hk. apply NoDup_nth_error. intros a b Ha E.
  pose proof (ring_walk_length center k ltac:(lia)) as Hlen.
  assert (Ha' : (a < 6 * Z.to_nat k)%nat) by lia.
  rewrite (ring_walk_nth center k a) in E by lia.
  assert (Hb' : (b < 6 * Z.to_nat k)%nat).
  { assert ((b < length (ring_walk center k))%nat)
      by (apply nth_error_Some; congruence).
    lia. }
  rewrite (ring_walk_nth center k b) in E by lia.
  assert (E' : ring_pos center k a = ring_pos center k b) by congruence.
  apply (ring_pos_inj center k); assumption || lia.
Qed.

Lemma ring_of_NoDup (i : Z) : 0 <= i -> NoDup (ring_of i).
Proof.
  intros Hi. unfold ring_of. destruct (Z.eqb_spec i 0).
  - constructor; [intros [] | constructor].
  - apply ring_walk_NoDup. lia.
Qed.

Lemma rings_NoDup (l : list Z) :
  NoDup l -> (forall i, In i l -> 0 <= i) -> NoDup (concat (map ring_of l)).
Proof.
  induction 1 as [|a l Ha Hl IH]; intros Hpos; cbn [map concat].
  - constructor.
  - apply NoDup_app.
    + apply ring_of_NoDup, Hpos. now left.
    + apply IH. intros i Hi. apply Hpos. now right.
    + intros p Hp Hin. apply in_concat in Hin.
      destruct Hin as (ring & Hring & Hp').
      apply in_map_iff in Hring. destruct Hring as (b & <- & Hb).
      apply ring_of_distance in Hp; [| apply Hpos; now left].
      apply ring_of_distance in Hp'; [| apply Hpos; now right].
      congruence.
Qed.

Lemma range_NoDup (n : Z) : NoDup (range n).
Proof.
  apply NoDup_nth_error. intros a b Ha E. rewrite range_length in Ha.
  rewrite range_nth in E by assumption.
  assert (Hb : (b < Z.to_nat n)%nat).
  { rewrite <- range_length. apply nth_error_Some. congruence. }
  rewrite range_nth in E by assumption.
  assert (Z.of_nat a = Z.of_nat b) by congruence. lia.
Qed.

Lemma rings_upto_NoDup (n : Z) : NoDup (rings_upto n).
Proof.
  apply rings_NoDup; [apply range_NoDup |].
  intros i Hi. apply range_In in Hi. lia.
Qed.

Section FillProofs.

Context {Data : Type}.

Implicit Types (c : HexCell Data) (m : HexMap Data) (g : dict Data).

Lemma dict_contains_app k g g' :
  dict_contains k (g ++ g') = dict_contains k g || dict_contains k g'.
Proof. unfold dict_contains. apply existsb_app. Qed.

Lemma dict_set_absent k c g :
  dict_contains k g = false -> dict_set k c g = g ++ [(k, c)].
Proof.
  induction g as [|[k' c'] g IH];
    cbn [dict_contains existsb dict_set fst app]; [reflexivity |].
  intros H. apply orb_false_iff in H. destruct H as [-> H].
  now rewrite (IH H).
Qed.

Lemma dict_get_app_found k c g g' :
  dict_get k g = Some c -> dict_get k (g ++ g') = Some c.
Proof.
  induction g as [|[k' c'] g IH]; cbn [dict_get app]; [discriminate |].
  destruct (HexPoint_eqb k k'); [trivial | exact IH].
Qed.

Lemma dict_contains_new_cells m k (pts : list HexPoint) :
  dict_contains k (map (new_cell m) pts) = true <-> In k pts.
Proof.
  unfold dict_contains. rewrite existsb_exists. split.
  - intros ([k' c'] & Hin & Heq). apply in_map_iff in Hin.
    destruct Hin as (p & Hp & Hin). injection Hp as <- _.
    apply HexPoint_eqb_eq in Heq. cbn [fst] in Heq. now subst.
  - intros Hin. exists (new_cell m k). split.
    + now apply in_map.
    + apply HexPoint_eqb_refl.
Qed.

(** The inner loop on points that are pairwise distinct. *)
Lemma fill_points m (pts : list HexPoint) :
  NoDup pts ->
  forall g,
    for_each_st pts fill_point (with_grid g m)
    = (Ok tt, with_grid (g ++ map (new_cell m) (absent g pts)) m).
Proof.
  induction 1 as [|p pts Hp Hnd IH]; intros g.
  - cbn. now rewrite app_nil_r.
  - cbn [for_each_st]. unfold bind_st at 1. unfold fill_point at 1.
    unfold HexMap_contains. rewrite with_grid_grid.
    unfold absent. cbn [filter]. fold (absent g pts).
    destruct (dict_contains p g) eqn:Ec; cbn [negb].
    + apply IH.
    + unfold bind_st, HexMap_set, ret_st.
      rewrite with_grid_grid, with_grid_twice.
      rewrite (dict_set_absent _ _ _ Ec).
      change (p, HexCell_init (map_orientation (with_grid g m)) p
                   (map_radius (with_grid g m)) None)
        with (new_cell m p).
      rewrite IH. cbn [map]. rewrite <- app_assoc. cbn [app].
      do 5 f_equal. unfold absent. apply filter_ext_in.
      intros x Hx. rewrite dict_contains_app.
      cbn [dict_contains existsb new_cell fst].
      destruct (HexPoint_eqb x p) eqn:E.
      * apply HexPoint_eqb_eq in E. subst x. contradiction.
      * now rewrite !orb_false_r.
Qed.

Lemma for_each_st_app {S A} (body : A -> M S unit) (l l' : list A) (st : S) :
  for_each_st (l ++ l') body st
  = bind_st (for_each_st l body) (fun _ => for_each_st l' body) st.
Proof.
  revert st. induction l as [|x l IH]; intros st; cbn [for_each_st app].
  - reflexivity.
  - unfold bind_st. destruct (body x st) as [[[] | e] st'].
    + rewrite IH. reflexivity.
    + reflexivity.
Qed.

(** The two loops of [fill_to_radius] are one loop over the points of the
    rings. *)
Lemma fill_rings (l : list Z) m :
  (forall i, In i l -> 0 <= i) ->
  for_each_st l fill_ring m
  = for_each_st (concat (map ring_of l)) fill_point m.
Proof.
  revert m. induction l as [|i l IH]; intros m Hpos; cbn [map concat].
  - reflexivity.
  - assert (Hring : fill_ring i m = for_each_st (ring_of i) fill_point m).
    { unfold fill_ring, bind_st, lift_st.
      now rewrite cube_ring_ring_of by (apply Hpos; now left). }
    rewrite for_each_st_app. cbn [for_each_st]. unfold bind_st.
    rewrite Hring.
    destruct (for_each_st (ring_of i) fill_point m) as [[[] | e] m'];
      [| reflexivity].
    apply IH. intros j Hj. apply Hpos. now right.
Qed.

(** C7: [fill_to_radius(n)] returns normally and appends to the grid, in
    this order, a cell with payload [None] for every point of ring 0, ring
    1, ..., ring [n-1] (each in ring order) that the grid did not hold; the
    cells it held stay where and as they were, and afterwards every point of
    these rings is present.  On an empty grid [fill_to_radius(2)] leaves
    exactly 7 cells. *)
Theorem fill_to_radius_spec m (n : Z) :
  let g := map_grid m in
  let g' := g ++ map (new_cell m) (absent g (rings_upto n)) in
  fill_to_radius n m = (Ok tt, with_grid g' m)
  /\ (forall k c, dict_get k g = Some c -> dict_get k g' = Some c)
  /\ (forall i p, 0 <= i < n -> In p (ring_of i) -> dict_contains p g' = true)
  /\ (forall radius o,
         HexMap_len (snd (fill_to_radius 2 (HexMap_init radius o
                                            : HexMap Data))) = 7).
Proof.
  intros g g'. split; [| split; [| split]].
  - unfold fill_to_radius. rewrite fill_rings.
    + rewrite <- (with_grid_same m) at 1.
      apply fill_points, rings_upto_NoDup.
    + intros i Hi. apply range_In in Hi. lia.
  - intros k c Hk. now apply dict_get_app_found.
  - intros i p Hi Hp. unfold g'. rewrite dict_contains_app.
    destruct (dict_contains p g) eqn:Ec; [reflexivity |]. cbn [orb].
    apply dict_contains_new_cells. unfold absent. apply filter_In.
    split; [| now rewrite Ec].
    unfold rings_upto. apply in_concat. exists (ring_of i).
    split; [| exact Hp]. apply in_map, range_In. exact Hi.
  - intros radius o. reflexivity.
Qed.

End FillProofs.

Lemma fill_to_radius_spec_witness :
  let m : HexMap nat :=
    snd (HexMap_set (mkHexPoint 1 0 (-1)) (Payload (Some 7%nat))
           (HexMap_init (Int 1) POINTY_TOP)) in
  option_map cell_data
    (dict_get (mkHexPoint 1 0 (-1)) (map_grid (snd (fill_to_radius 2 m))))
  = Some (Some 7%nat)
  /\ dict_contains (mkHexPoint 0 1 (-1)) (map_grid (snd (fill_to_radius 2 m)))
     = true.
Proof.
  intros m.
  destruct (fill_to_radius_spec m 2) as (Hfill & Hold & Hnew & _).
  rewrite Hfill. cbn [snd]. rewrite with_grid_grid. split.
  - rewrite (Hold (mkHexPoint 1 0 (-1))
               (HexCell_init POINTY_TOP (mkHexPoint 1 0 (-1)) (Int 1)
                  (Some 7%nat)) eq_refl).
    reflexivity.
  - apply (Hnew 1); [lia |]. right. right. right. left. reflexivity.
Defined.

(** ** C4: cube_round *)

Lemma digits2_pos_bound (m : positive) : Zpos m < 2 ^ Zpos (digits2_pos m).
Proof.
  induction m as [m IH | m IH |]; cbn [digits2_pos].
  - rewrite Pos2Z.inj_succ, Z.pow_succ_r by lia. lia.
  - rewrite Pos2Z.inj_succ, Z.pow_succ_r by lia. lia.
  - reflexivity.
Qed.

Lemma bounded_mantissa (m : positive) (e : Z) :
  bounded prec emax m e = true -> Zpos m < 2 ^ 53 /\ e <= 971.
Proof.
  unfold bounded, canonical_mantissa, fexp, emin, prec, emax.
  rewrite andb_true_iff, Z.eqb_eq, Z.leb_le. intros [Hc He].
  split; [| lia].
  pose proof (digits2_pos_bound m) as Hm.
  assert (Hd : Zpos (digits2_pos m) <= 53) by lia.
  pose proof (Z.pow_le_mono_r 2 _ _ ltac:(lia) Hd). lia.
Qed.

Lemma round_half_even_bound (m : positive) (e : Z) :
  e < 0 -> 0 <= round_half_even m e <= Zpos m + 1.
Proof.
  intros He. unfold round_half_even.
  assert (Hd : 0 < 2 ^ (- e)) by (apply Z.pow_pos_nonneg; lia).
  pose proof (Z.div_pos (Zpos m) _ ltac:(lia) Hd) as H0.
  assert (Hk : Zpos m / 2 ^ (- e) <= Zpos m).
  { apply Z.div_le_upper_bound; [assumption | nia]. }
  destruct (2 * (Zpos m mod 2 ^ (- e)) ?= 2 ^ (- e));
    [destruct (Z.even _) | |]; lia.
Qed.

(** The integer next to a finite double converts back to a float. *)
Lemma round_float_bound (f : spec_float) :
  finite_num (Float f) = true ->
  exists z, round (Float f) = Ok z /\ Z.abs z < overflow_threshold.
Proof.
  destruct f as [sg | sg | | sg m e]; cbn [finite_num round is_finite andb].
  - intros _. exists 0. split; [reflexivity | reflexivity].
  - discriminate.
  - discriminate.
  - cbn [valid_binary]. intros Hb.
    apply bounded_mantissa in Hb. destruct Hb as [Hm He].
    eexists. split; [reflexivity |].
    assert (Habs : forall v, Z.abs (cond_Zopp sg v) = Z.abs v)
      by (intros v; destruct sg; cbn [cond_Zopp]; lia).
    rewrite Habs.
    assert (Hmax : (2 ^ 53 - 1) * 2 ^ 971 < overflow_threshold)
      by (apply Z.ltb_lt; vm_compute; reflexivity).
    assert (H53 : 2 ^ 53 <= (2 ^ 53 - 1) * 2 ^ 971)
      by (apply Z.leb_le; vm_compute; reflexivity).
    apply Z.le_lt_trans with ((2 ^ 53 - 1) * 2 ^ 971); [| exact Hmax].
    clear Hmax. destruct (Z.leb_spec 0 e).
    + clear H53.
      assert (0 < 2 ^ e) by (apply Z.pow_pos_nonneg; lia).
      pose proof (Z.pow_le_mono_r 2 e 971 ltac:(lia) He).
      rewrite Z.abs_eq by lia.
      apply Z.mul_le_mono_nonneg; lia.
    + pose proof (round_half_even_bound m e ltac:(lia)).
      rewrite Z.abs_eq by lia.
      apply Z.le_trans with (2 ^ 53); [lia | exact H53].
Qed.

(** On a finite number, [round] and the rounding error both return. *)
Lemma rounding_error_total (a : num) :
  finite_num a = true ->
  exists z d, round a = Ok z /\ rounding_error z a = Ok d.
Proof.
  intros Ha. destruct a as [x | f].
  - exists x, (Int (Z.abs (x - x))). split; reflexivity.
  - destruct (round_float_bound f Ha) as (z & Hz & Hb).
    exists z. unfold rounding_error, Num.sub. cbn [as_float bind].
    unfold of_int. destruct (Z.ltb_spec (Z.abs z) overflow_threshold);
      [| lia].
    cbn [bind]. eauto.
Qed.

Lemma correct_largest_zero_sum (q0 r0 s0 : Z) (dq dr ds : num) :
  let p := correct_largest q0 r0 s0 dq dr ds in q p + r p + s p = 0.
Proof.
  unfold correct_largest.
  destruct (gtb dq dr && gtb dq ds); [cbn [q r s]; lia |].
  destruct (gtb dr ds); cbn [q r s]; lia.
Qed.

(** *** Doubles without a fractional part *)

Lemma iter_xO_value (m d : positive) :
  Zpos (Pos.iter xO m d) = Zpos m * 2 ^ Zpos d.
Proof.
  induction d as [|d IH] using Pos.peano_ind.
  - cbn [Pos.iter]. lia.
  - rewrite Pos.iter_succ, Pos2Z.inj_xO, IH, Pos2Z.inj_succ.
    rewrite Z.pow_succ_r by lia. lia.
Qed.

Lemma iter_xO_digits (m d : positive) :
  digits2_pos (Pos.iter xO m d) = (digits2_pos m + d)%positive.
Proof.
  induction d as [|d IH] using Pos.peano_ind.
  - cbn. lia.
  - rewrite Pos.iter_succ. cbn [digits2_pos]. rewrite IH. lia.
Qed.

(** Shifting out the zeros that [iter xO] put in. *)
Lemma shr_iter_xO (d : positive) :
  forall m : positive,
    iter_pos shr_1 d
      {| shr_m := Zpos (Pos.iter xO m d); shr_r := false; shr_s := false |}
    = {| shr_m := Zpos m; shr_r := false; shr_s := false |}.
Proof.
  induction d as [d IH | d IH |]; intros m; cbn [iter_pos Pos.iter].
  - cbn [shr_1 orb]. now rewrite !IH.
  - now rewrite !IH.
  - reflexivity.
Qed.

Lemma bounded_canonical (m : positive) (e : Z) :
  bounded prec emax m e = true ->
  fexp prec emax (Zpos (digits2_pos m) + e) = e /\ (e <=? emax - prec) = true.
Proof.
  unfold bounded, canonical_mantissa. rewrite andb_true_iff, Z.eqb_eq.
  intros [Hc He]. split; [exact Hc | exact He].
Qed.

(** Rounding a mantissa that is canonical already. *)
Lemma binary_round_aux_canonical (sx : bool) (m : positive) (e : Z) :
  bounded prec emax m e = true ->
  binary_round_aux prec emax sx (Zpos m) e loc_Exact = S754_finite sx m e.
Proof.
  intros Hb. destruct (bounded_canonical m e Hb) as [Hc He].
  unfold binary_round_aux, shr_fexp. cbn [Zdigits2 shr_record_of_loc].
  change (IntDef.Z.add (Zpos (digits2_pos m)) e)
    with (Zpos (digits2_pos m) + e).
  change (shr {| shr_m := Zpos m; shr_r := false; shr_s := false |} e
            (IntDef.Z.sub (fexp prec emax (Zpos (digits2_pos m) + e)) e))
    with (shr {| shr_m := Zpos m; shr_r := false; shr_s := false |} e
            (fexp prec emax (Zpos (digits2_pos m) + e) - e)).
  rewrite Hc, Z.sub_diag.
  cbn [shr shr_m loc_of_shr_record round_nearest_even Zdigits2
         shr_record_of_loc].
  change (IntDef.Z.sub (fexp prec emax (IntDef.Z.add (Zpos (digits2_pos m)) e))
            e)
    with (fexp prec emax (Zpos (digits2_pos m) + e) - e).
  rewrite Hc, Z.sub_diag. cbn [shr shr_m].
  change (IntDef.Z.leb e (IntDef.Z.sub emax prec)) with (e <=? emax - prec).
  now rewrite He.
Qed.

(** The conversion of the integer [m * 2^d] is the double [(m, d)]. *)
Lemma binary_round_shifted (sx : bool) (m : positive) (d : positive) :
  bounded prec emax m (Zpos d) = true ->
  binary_round prec emax sx (Pos.iter xO m d) 0
  = S754_finite sx m (Zpos d).
Proof.
  intros Hb. destruct (bounded_canonical m _ Hb) as [Hc He].
  assert (Hd : fexp prec emax (Zpos (digits2_pos (Pos.iter xO m d)) + 0)
               = Zpos d)
    by (rewrite iter_xO_digits, Z.add_0_r, Pos2Z.inj_add; exact Hc).
  assert (Hshift : IntDef.Z.sub
                     (fexp prec emax
                        (IntDef.Z.add
                           (Zpos (digits2_pos (Pos.iter xO m d))) 0)) 0
                   = Zpos d).
  { change (fexp prec emax (Zpos (digits2_pos (Pos.iter xO m d)) + 0) - 0
            = Zpos d).
    rewrite Hd. reflexivity. }
  assert (Hstay : IntDef.Z.sub
                    (fexp prec emax
                       (IntDef.Z.add (Zpos (digits2_pos m)) (Zpos d)))
                    (Zpos d)
                  = 0).
  { change (fexp prec emax (Zpos (digits2_pos m) + Zpos d) - Zpos d = 0).
    rewrite Hc. apply Z.sub_diag. }
  assert (E : shr_fexp prec emax (Zpos (Pos.iter xO m d)) 0 loc_Exact
              = shr_fexp prec emax (Zpos m) (Zpos d) loc_Exact).
  { unfold shr_fexp. cbn [Zdigits2 shr_record_of_loc].
    rewrite Hshift, Hstay. cbn [shr]. now rewrite shr_iter_xO. }
  unfold binary_round.
  change (IntDef.Z.add (Zpos (digits2_pos (Pos.iter xO m d))) 0)
    with (Zpos (digits2_pos (Pos.iter xO m d)) + 0).
  rewrite Hd. cbn [shl_align IntDef.Z.sub IntDef.Z.opp IntDef.Z.add].
  rewrite <- (binary_round_aux_canonical sx m (Zpos d) Hb).
  unfold binary_round_aux. now rewrite E.
Qed.

(** The conversion of the integer [m / 2^d], when [2^d] divides [m], is the
    double [(m, -d)]. *)
Lemma binary_round_unshifted (sx : bool) (z0 : positive) (d : positive) :
  bounded prec emax (Pos.iter xO z0 d) (Zneg d) = true ->
  binary_round prec emax sx z0 0
  = S754_finite sx (Pos.iter xO z0 d) (Zneg d).
Proof.
  intros Hb. destruct (bounded_canonical _ _ Hb) as [Hc He].
  assert (Hd : fexp prec emax (Zpos (digits2_pos z0) + 0) = Zneg d).
  { replace (Zpos (digits2_pos z0) + 0)
      with (Zpos (digits2_pos (Pos.iter xO z0 d)) + Zneg d)
      by (rewrite iter_xO_digits, Pos2Z.inj_add; lia).
    exact Hc. }
  unfold binary_round.
  change (IntDef.Z.add (Zpos (digits2_pos z0)) 0)
    with (Zpos (digits2_pos z0) + 0).
  rewrite Hd. cbn [shl_align IntDef.Z.sub IntDef.Z.opp IntDef.Z.add].
  now apply binary_round_aux_canonical.
Qed.

Lemma binary_round_same (sx : bool) (m : positive) (e : Z) :
  bounded prec emax m e = true ->
  binary_round prec emax sx m e = S754_finite sx m e.
Proof.
  intros Hb. destruct (bounded_canonical m e Hb) as [Hc He].
  unfold binary_round.
  change (IntDef.Z.add (Zpos (digits2_pos m)) e)
    with (Zpos (digits2_pos m) + e).
  rewrite Hc. unfold shl_align.
  replace (IntDef.Z.sub e e) with 0 by (symmetry; apply Z.sub_diag).
  now apply binary_round_aux_canonical.
Qed.

Lemma SFsub_same (sx : bool) (m : positive) (e : Z) :
  SFsub prec emax (S754_finite sx m e) (S754_finite sx m e)
  = S754_zero false.
Proof.
  unfold SFsub.
  replace (IntDef.Z.min e e) with e by (symmetry; apply Z.min_id).
  unfold shl_align.
  replace (IntDef.Z.sub e e) with 0 by (symmetry; apply Z.sub_diag).
  cbn [fst].
  replace (IntDef.Z.sub (cond_Zopp sx (Zpos m)) (cond_Zopp sx (Zpos m)))
    with 0 by (symmetry; apply Z.sub_diag).
  reflexivity.
Qed.

(** The conversion of the integer a double is gives the double back. *)
Lemma of_int_exact (sg : bool) (m : positive) (e : Z) (z : Z) :
  bounded prec emax m e = true ->
  exact_integer (Float (S754_finite sg m e)) = Some z ->
  round (Float (S754_finite sg m e)) = Ok z
  /\ binary_normalize prec emax z 0 false = S754_finite sg m e.
Proof.
  intros Hb. unfold exact_integer, round.
  destruct (Z.leb_spec 0 e) as [He | He].
  - intros Hz.
    assert (Ez : z = cond_Zopp sg (Zpos m * 2 ^ e)) by congruence.
    clear Hz. subst z. split; [reflexivity |].
    destruct e as [| d | d]; [| | lia].
    + replace (Zpos m * 2 ^ 0) with (Zpos m) by (rewrite Z.pow_0_r; lia).
      destruct sg; now apply binary_round_same.
    + rewrite <- iter_xO_value.
      destruct sg; now apply binary_round_shifted.
  - destruct e as [| d | d]; [lia | lia |].
    change (- Zneg d) with (Zpos d).
    destruct (Z.eqb_spec (Zpos m mod 2 ^ Zpos d) 0) as [Hmod | Hmod];
      [| discriminate].
    intros Hz.
    assert (Ez : z = cond_Zopp sg (Zpos m / 2 ^ Zpos d)) by congruence.
    clear Hz. subst z.
    assert (Hpow : 0 < 2 ^ Zpos d) by (apply Z.pow_pos_nonneg; lia).
    pose proof (Z.div_mod (Zpos m) (2 ^ Zpos d) ltac:(lia)) as Hdm.
    rewrite Hmod, Z.add_0_r in Hdm.
    assert (Hhalf : round_half_even m (Zneg d) = Zpos m / 2 ^ Zpos d).
    { unfold round_half_even. change (- Zneg d) with (Zpos d).
      rewrite Hmod.
      assert (Hc : (2 * 0 ?= 2 ^ Zpos d) = Lt)
        by (apply Z.compare_lt_iff; lia).
      now rewrite Hc. }
    rewrite Hhalf. split; [reflexivity |].
    destruct (Zpos m / 2 ^ Zpos d) as [| z0 | z0]; [lia | | lia].
    assert (Hm : m = Pos.iter xO z0 d).
    { apply Pos2Z.inj. rewrite iter_xO_value. lia. }
    subst m. destruct sg; now apply binary_round_unshifted.
Qed.

(** A number that is an integer rounds to that integer, with no error. *)
Lemma exact_integer_round (a : num) (z : Z) :
  finite_num a = true -> exact_integer a = Some z ->
  round a = Ok z
  /\ (rounding_error z a = Ok (Int 0)
      \/ rounding_error z a = Ok (Float (S754_zero false))).
Proof.
  intros Ha Hz. destruct a as [x | f].
  - injection Hz as <-. split; [reflexivity |]. left.
    unfold rounding_error. cbn [Num.sub bind Num.abs]. now rewrite Z.sub_diag.
  - destruct f as [sg | sg | | sg m e]; try discriminate.
    + injection Hz as <-. split; [reflexivity |]. right.
      destruct sg; reflexivity.
    + cbn [finite_num is_finite valid_binary andb] in Ha.
      destruct (of_int_exact sg m e z Ha Hz) as [Hr Hn].
      split; [exact Hr |]. right.
      destruct (round_float_bound (S754_finite sg m e)) as (z' & Hz' & Hb);
        [exact Ha |].
      assert (z' = z) by congruence. subst z'.
      unfold rounding_error, Num.sub. cbn [as_float bind]. unfold of_int.
      apply Z.ltb_lt in Hb. rewrite Hb, Hn. cbn [bind].
      now rewrite SFsub_same.
Qed.

(** No error is greater than a rounding error, which is an absolute
    value. *)
Lemma gtb_zero_abs (d0 d : num) :
  d0 = Int 0 \/ d0 = Float (S754_zero false) ->
  gtb d0 (Num.abs d) = false.
Proof.
  intros [-> | ->]; destruct d as [x | f]; unfold gtb;
    cbn [Num.abs compare compare_int_float option_map].
  - destruct (Z.compare_spec 0 (Z.abs x)); [reflexivity | reflexivity | lia].
  - destruct f as [sg | sg | | sg m e]; cbn [SFabs compare_int_float];
      try reflexivity.
    cbn [cond_Zopp]. destruct (Z.leb_spec 0 e) as [He | He].
    + assert (H : 0 < Zpos m * 2 ^ e)
        by (apply Z.mul_pos_pos; [lia | apply Z.pow_pos_nonneg; lia]).
      apply Z.compare_lt_iff in H. now rewrite H.
    + rewrite Z.mul_0_l. reflexivity.
  - destruct (Z.compare_spec (Z.abs x) 0); [reflexivity | lia | reflexivity].
  - destruct f as [sg | sg | | sg m e]; reflexivity.
Qed.

Lemma gtb_zero_zero (d0 d1 : num) :
  d0 = Int 0 \/ d0 = Float (S754_zero false) ->
  d1 = Int 0 \/ d1 = Float (S754_zero false) ->
  gtb d0 d1 = false.
Proof. intros [-> | ->] [-> | ->]; reflexivity. Qed.

(** *** Infinities and nan *)

Lemma sub_raises_overflow (a b : num) (e : exn) :
  Num.sub a b = Raise e -> e = OverflowError.
Proof.
  assert (Hof : forall z e', of_int z = Raise e' -> e' = OverflowError).
  { intros z e'. unfold of_int. destruct (_ <? _); congruence. }
  destruct a as [x | f], b as [y | g]; cbn [Num.sub as_float bind].
  - discriminate.
  - destruct (of_int x) eqn:E; cbn [bind]; [discriminate |].
    intros H. injection H as <-. eapply Hof, E.
  - destruct (of_int y) eqn:E; cbn [bind]; [discriminate |].
    intros H. injection H as <-. eapply Hof, E.
  - discriminate.
Qed.

Lemma round_cases (a : num) :
  (infinite_or_nan a = false /\ exists z, round a = Ok z)
  \/ (infinite_or_nan a = true
      /\ exists e, round a = Raise e
                   /\ (e = OverflowError \/ e = ValueError)).
Proof.
  destruct a as [x | [sg | sg | | sg m e]]; cbn [infinite_or_nan round].
  - left. eauto.
  - left. eauto.
  - right. split; [reflexivity |]. exists OverflowError. auto.
  - right. split; [reflexivity |]. exists ValueError. auto.
  - left. eauto.
Qed.

Lemma third_coordinate_raises (frac_q frac_r : num) (frac_s : option num)
    (e : exn) :
  third_coordinate frac_q frac_r frac_s = Raise e ->
  frac_s = None /\ e = OverflowError.
Proof.
  destruct frac_s as [v |]; cbn [third_coordinate]; [discriminate |].
  intros H. split; [reflexivity |]. eapply sub_raises_overflow, H.
Qed.

(** An infinite or nan coordinate, given or derived, stops [cube_round]. *)
Lemma cube_round_raises (frac_q frac_r : num) (frac_s : option num) :
  infinite_or_nan frac_q = true \/ infinite_or_nan frac_r = true
  \/ (exists fs, third_coordinate frac_q frac_r frac_s = Ok fs
                 /\ infinite_or_nan fs = true) ->
  exists e, cube_round frac_q frac_r frac_s = Raise e
            /\ (e = OverflowError \/ e = ValueError).
Proof.
  intros H. unfold cube_round.
  destruct (third_coordinate frac_q frac_r frac_s) as [fs | e] eqn:Hthird;
    cbn [bind].
  2:{ exists e. split; [reflexivity |]. left.
      eapply third_coordinate_raises, Hthird. }
  destruct (round_cases frac_q) as [[Iq [q0 Hq]] | [_ (e & He & Hk)]].
  2:{ rewrite He. cbn [bind]. eauto. }
  rewrite Hq. cbn [bind].
  destruct (round_cases frac_r) as [[Ir [r0 Hr]] | [_ (e & He & Hk)]].
  2:{ rewrite He. cbn [bind]. eauto. }
  rewrite Hr. cbn [bind].
  destruct (round_cases fs) as [[Is [s0 Hs]] | [_ (e & He & Hk)]].
  2:{ rewrite He. cbn [bind]. eauto. }
  exfalso. destruct H as [H | [H | (fs' & Hfs & H)]]; try congruence.
Qed.

(** Coordinates [q, r] that are integers come back unchanged, whatever the
    third coordinate is, as long as it is finite. *)
Lemma cube_round_integers (frac_q frac_r : num) (frac_s : option num)
    (fs : num) (zq zr : Z) :
  finite_num frac_q = true -> finite_num frac_r = true ->
  exact_integer frac_q = Some zq -> exact_integer frac_r = Some zr ->
  third_coordinate frac_q frac_r frac_s = Ok fs -> finite_num fs = true ->
  cube_round frac_q frac_r frac_s = Ok (mkHexPoint zq zr (- zq - zr)).
Proof.
  intros Fq Fr Eq Er Hthird Fs.
  destruct (exact_integer_round frac_q zq Fq Eq) as [Hq Hdq].
  destruct (exact_integer_round frac_r zr Fr Er) as [Hr Hdr].
  destruct (rounding_error_total fs Fs) as (s0 & ds & Hs & Hds).
  assert (Habs : exists d, ds = Num.abs d).
  { unfold rounding_error in Hds.
    destruct (Num.sub (Int s0) fs) as [d | e]; cbn [bind] in Hds;
      [| discriminate].
    exists d. congruence. }
  destruct Habs as [d ->].
  unfold cube_round. rewrite Hthird. cbn [bind]. rewrite Hq, Hr, Hs.
  cbn [bind].
  assert (Hgo : forall dq dr,
             dq = Int 0 \/ dq = Float (S754_zero false) ->
             dr = Int 0 \/ dr = Float (S754_zero false) ->
             correct_largest zq zr s0 dq dr (Num.abs d)
             = mkHexPoint zq zr (- zq - zr)).
  { intros dq dr Zq Zr. unfold correct_largest.
    rewrite (gtb_zero_zero dq dr Zq Zr), (gtb_zero_abs dr d Zr).
    reflexivity. }
  destruct Hdq as [Hdq | Hdq], Hdr as [Hdr | Hdr];
    rewrite Hdq, Hdr, Hds; cbn [bind]; rewrite Hgo; auto.
Qed.

(** C4, as the code has it: on finite numbers, with a third coordinate,
    given or derived as [-frac_q - frac_r], that is finite as well,
    [cube_round] returns a point with [q + r + s == 0]: it rounds the three
    coordinates, and recomputes [q] from the other two when the rounding
    error of [q] is strictly the largest, else [r] when its error is
    strictly greater than that of [s], else [s].  Coordinates [q, r] that
    are integers, as [int] or as a double without fractional part, come
    back unchanged, with [s = -q - r]; a third coordinate that is an
    integer with [q + r + s == 0] comes back unchanged as well.  When a
    coordinate, given or derived, is infinite or nan, or when deriving the
    third coordinate overflows, the call raises OverflowError or ValueError
    and returns no point. *)
Theorem cube_round_spec :
  (forall (frac_q frac_r : num) (frac_s : option num) (fs : num),
      finite_num frac_q = true -> finite_num frac_r = true ->
      third_coordinate frac_q frac_r frac_s = Ok fs ->
      finite_num fs = true ->
      exists q0 r0 s0 dq dr ds p,
        round frac_q = Ok q0 /\ round frac_r = Ok r0 /\ round fs = Ok s0
        /\ rounding_error q0 frac_q = Ok dq
        /\ rounding_error r0 frac_r = Ok dr
        /\ rounding_error s0 fs = Ok ds
        /\ cube_round frac_q frac_r frac_s = Ok p
        /\ q p + r p + s p = 0
        /\ (gtb dq dr && gtb dq ds = true ->
            p = mkHexPoint (- r0 - s0) r0 s0)
        /\ (gtb dq dr && gtb dq ds = false -> gtb dr ds = true ->
            p = mkHexPoint q0 (- q0 - s0) s0)
        /\ (gtb dq dr && gtb dq ds = false -> gtb dr ds = false ->
            p = mkHexPoint q0 r0 (- q0 - r0)))
  /\ (forall frac_q frac_r : num,
         third_coordinate frac_q frac_r None
         = Num.sub (neg frac_q) frac_r)
  /\ (forall a b : Z,
         cube_round (Int a) (Int b) None = Ok (mkHexPoint a b (- a - b)))
  /\ (forall a b c : Z,
         a + b + c = 0 ->
         cube_round (Int a) (Int b) (Some (Int c)) = Ok (mkHexPoint a b c))
  /\ (forall (frac_q frac_r : num) (frac_s : option num) (fs : num)
             (zq zr : Z),
         finite_num frac_q = true -> finite_num frac_r = true ->
         exact_integer frac_q = Some zq -> exact_integer frac_r = Some zr ->
         third_coordinate frac_q frac_r frac_s = Ok fs ->
         finite_num fs = true ->
         cube_round frac_q frac_r frac_s
         = Ok (mkHexPoint zq zr (- zq - zr))
         /\ (forall zs, exact_integer fs = Some zs -> zq + zr + zs = 0 ->
               cube_round frac_q frac_r frac_s = Ok (mkHexPoint zq zr zs)))
  /\ (forall (frac_q frac_r : num) (frac_s : option num),
         infinite_or_nan frac_q = true \/ infinite_or_nan frac_r = true
         \/ (exists fs, third_coordinate frac_q frac_r frac_s = Ok fs
                        /\ infinite_or_nan fs = true) ->
         exists e, cube_round frac_q frac_r frac_s = Raise e
                   /\ (e = OverflowError \/ e = ValueError))
  /\ (forall (frac_q frac_r : num) (frac_s : option num) (e : exn),
         third_coordinate frac_q frac_r frac_s = Raise e ->
         frac_s = None /\ e = OverflowError
         /\ cube_round frac_q frac_r frac_s = Raise OverflowError).
Proof.
  split; [| split; [| split; [| split; [| split; [| split]]]]].
  - intros frac_q frac_r frac_s fs Hq Hr Hthird Hs.
    destruct (rounding_error_total frac_q Hq) as (q0 & dq & Hq0 & Hdq).
    destruct (rounding_error_total frac_r Hr) as (r0 & dr & Hr0 & Hdr).
    destruct (rounding_error_total fs Hs) as (s0 & ds & Hs0 & Hds).
    exists q0, r0, s0, dq, dr, ds, (correct_largest q0 r0 s0 dq dr ds).
    repeat (split; [assumption |]).
    split.
    { unfold cube_round. rewrite Hthird. cbn [bind].
      rewrite Hq0, Hr0, Hs0. cbn [bind]. rewrite Hdq, Hdr, Hds. reflexivity. }
    split; [apply correct_largest_zero_sum |].
    unfold correct_largest.
    split; [| split]; intros H1; try intros H2; rewrite H1; try rewrite H2;
      reflexivity.
  - reflexivity.
  - intros a b. unfold cube_round. cbn [third_coordinate neg Num.sub bind round].
    unfold rounding_error. cbn [Num.sub bind Num.abs].
    rewrite !Z.sub_diag. reflexivity.
  - intros a b c Hsum. unfold cube_round.
    cbn [third_coordinate neg Num.sub bind round].
    unfold rounding_error. cbn [Num.sub bind Num.abs].
    rewrite !Z.sub_diag.
    change (correct_largest a b c (Int (Z.abs 0)) (Int (Z.abs 0))
              (Int (Z.abs 0)))
      with (mkHexPoint a b (- a - b)).
    do 2 f_equal. lia.
  - intros frac_q frac_r frac_s fs zq zr Fq Fr Eq Er Hthird Fs.
    pose proof (cube_round_integers frac_q frac_r frac_s fs zq zr
                  Fq Fr Eq Er Hthird Fs) as Hp.
    split; [exact Hp |].
    intros zs _ Hsum. rewrite Hp. do 2 f_equal. lia.
  - exact cube_round_raises.
  - intros frac_q frac_r frac_s e Hthird.
    destruct (third_coordinate_raises _ _ _ _ Hthird) as [Hs He].
    split; [exact Hs |]. split; [exact He |].
    unfold cube_round. rewrite Hthird, He. reflexivity.
Qed.

Lemma cube_round_spec_witness :
  (exists p, cube_round (Float (S754_finite false 6755399441055744 (-52)))
               (Float (S754_finite false 5629499534213120 (-52))) None = Ok p
             /\ q p + r p + s p = 0)
  /\ cube_round (Int 3) (Int 4) (Some (Int (-7))) = Ok (mkHexPoint 3 4 (-7))
  /\ cube_round (Float (S754_finite false 6755399441055744 (-51)))
       (Float (S754_finite false 4503599627370496 (-50))) None
     = Ok (mkHexPoint 3 4 (- 3 - 4))
  /\ cube_round (Float (S754_finite false 6755399441055744 (-51))) (Int 4)
       (Some (Float (S754_finite true 7881299347898368 (-50))))
     = Ok (mkHexPoint 3 4 (-7))
  /\ (exists e, cube_round (Float (S754_infinity false)) (Int 0) None
                = Raise e
                /\ (e = OverflowError \/ e = ValueError))
  /\ (exists e, cube_round (Int 0) (Int 0) (Some (Float S754_nan)) = Raise e
                /\ (e = OverflowError \/ e = ValueError))
  /\ cube_round (Int (10 ^ 400)) (Float (S754_zero false)) None
     = Raise OverflowError.
Proof.
  split; [| split; [| split; [| split; [| split; [| split]]]]].
  - destruct (proj1 cube_round_spec
                (Float (S754_finite false 6755399441055744 (-52)))
                (Float (S754_finite false 5629499534213120 (-52)))
                None
                (Float (S754_finite true 6192449487634432 (-51)))
                eq_refl eq_refl eq_refl eq_refl)
      as (q0 & r0 & s0 & dq & dr & ds & p & _ & _ & _ & _ & _ & _ & Hp & Hsum & _).
    exists p. split; assumption.
  - apply (proj1 (proj2 (proj2 (proj2 cube_round_spec)))). reflexivity.
  - exact (proj1 (proj1 (proj2 (proj2 (proj2 (proj2 cube_round_spec))))
                    (Float (S754_finite false 6755399441055744 (-51)))
                    (Float (S754_finite false 4503599627370496 (-50)))
                    None
                    (Float (S754_finite true 7881299347898368 (-50)))
                    3 4 eq_refl eq_refl eq_refl eq_refl eq_refl eq_refl)).
  - exact (proj2 (proj1 (proj2 (proj2 (proj2 (proj2 cube_round_spec))))
                    (Float (S754_finite false 6755399441055744 (-51)))
                    (Int 4)
                    (Some (Float (S754_finite true 7881299347898368 (-50))))
                    (Float (S754_finite true 7881299347898368 (-50)))
                    3 4 eq_refl eq_refl eq_refl eq_refl eq_refl eq_refl)
             (-7) eq_refl eq_refl).
  - apply (proj1 (proj2 (proj2 (proj2 (proj2 (proj2 cube_round_spec)))))).
    left. reflexivity.
  - apply (proj1 (proj2 (proj2 (proj2 (proj2 (proj2 cube_round_spec)))))).
    right. right. exists (Float S754_nan). split; reflexivity.
  - apply (proj2 (proj2 (proj2 (proj2 (proj2 (proj2 cube_round_spec)))))
             (Int (10 ^ 400)) (Float (S754_zero false)) None OverflowError).
    vm_compute. reflexivity.
Defined.

(** C4 as stated fails: both inputs are finite, the derived third coordinate
    overflows to infinity, and rounding it raises OverflowError. *)
Lemma cube_round_overflow :
  finite_num (Float (SFopp max_float)) = true
  /\ cube_round (Float (SFopp max_float)) (Float (SFopp max_float)) None
     = Raise OverflowError.
Proof. split; vm_compute; reflexivity. Qed.

(** ** C2: offset coordinates *)

(** C2, evaluated: the flat-top pair of conversions reproduces every
    sampled offset pair and cube coordinate.  The pointy-top pair does not:
    [_oddr_to_cube(1, 0)] is [HexPoint(0.0, 1, -1.0)], converting it back
    gives [(0.0, 1)]; on every sampled pair [(x, y)] the round trip returns
    [(y, x)], and the cube coordinate [(1, 0, -1)] comes back as
    [(0.0, 1.0, -1.0)].  The conversions divide with [/], so that their
    results are floats: beyond 2^53 the flat-top pair loses the coordinate
    as well. *)
Theorem oddr_roundtrip_swaps :
  oddr_of_cube_of_oddr 1 0 = Ok (Float (S754_zero false), Int 1)
  /\ returns_pair (oddr_of_cube_of_oddr 1 0) 1 0 = false
  /\ returns_point (cube_of_oddr_of_cube 1 0) 1 0 = false
  /\ returns_point (cube_of_oddr_of_cube 1 0) 0 1 = true
  /\ forallb (fun xy => returns_pair (oddr_of_cube_of_oddr (fst xy) (snd xy))
                          (snd xy) (fst xy)) sample_pairs = true
  /\ forallb (fun xy => returns_pair (oddq_of_cube_of_oddq (fst xy) (snd xy))
                          (fst xy) (snd xy)) sample_pairs = true
  /\ forallb (fun qr => returns_point (cube_of_oddq_of_cube (fst qr) (snd qr))
                          (fst qr) (snd qr)) sample_pairs = true
  /\ returns_point (cube_of_oddq_of_cube 0 (2 ^ 53 + 1)) 0 (2 ^ 53 + 1)
     = false.
Proof. repeat split; vm_compute; reflexivity. Qed.

(** * Further properties of the code *)

(** ** Distance, arithmetic on points, neighbours *)

(** X1: [cube_distance] is symmetric and never negative; on points with
    [q + r + s = 0] it is the largest coordinate difference, it is zero only
    between equal points, and it satisfies the triangle inequality. *)
Theorem cube_distance_metric (a b c : HexPoint) :
  cube_distance a b = cube_distance b a
  /\ 0 <= cube_distance a b
  /\ (zero_sum a -> zero_sum b ->
      cube_distance a b
      = Z.max (Z.abs (q a - q b))
          (Z.max (Z.abs (r a - r b)) (Z.abs (s a - s b))))
  /\ (zero_sum a -> zero_sum b -> (cube_distance a b = 0 <-> a = b))
  /\ (zero_sum a -> zero_sum b -> zero_sum c ->
      cube_distance a c <= cube_distance a b + cube_distance b c).
Proof.
  unfold zero_sum, cube_distance.
  split; [lia_div |]. split; [lia_div |]. split; [intros; lia_div |].
  split.
  - intros Ha Hb. split.
    + intros H. apply HexPoint_ext; lia_div.
    + intros ->. rewrite !Z.sub_diag. reflexivity.
  - intros Ha Hb Hc. lia_div.
Qed.

Lemma cube_distance_metric_witness :
  cube_distance (mkHexPoint 2 (-3) 1) (mkHexPoint (-1) 0 1) = 3
  /\ cube_distance (mkHexPoint 2 (-3) 1) (mkHexPoint 0 0 0)
     <= cube_distance (mkHexPoint 2 (-3) 1) (mkHexPoint (-1) 0 1)
        + cube_distance (mkHexPoint (-1) 0 1) (mkHexPoint 0 0 0).
Proof.
  destruct (cube_distance_metric (mkHexPoint 2 (-3) 1) (mkHexPoint (-1) 0 1)
              (mkHexPoint 0 0 0)) as (_ & _ & Hmax & _ & Htri).
  split.
  - rewrite Hmax; reflexivity.
  - apply Htri; reflexivity.
Defined.

(** X2: [+], [-] and [*] by an integer keep [q + r + s = 0]; [-] undoes [+],
    and [*] distributes over [+]. *)
Theorem HexPoint_arithmetic (a b : HexPoint) (k : Z) :
  (zero_sum a -> zero_sum b -> zero_sum (HexPoint_add a b))
  /\ (zero_sum a -> zero_sum b -> zero_sum (HexPoint_sub a b))
  /\ (zero_sum a -> zero_sum (HexPoint_mul a k))
  /\ HexPoint_sub (HexPoint_add a b) b = a
  /\ HexPoint_add (HexPoint_sub a b) b = a
  /\ HexPoint_add a b = HexPoint_add b a
  /\ HexPoint_mul (HexPoint_add a b) k
     = HexPoint_add (HexPoint_mul a k) (HexPoint_mul b k)
  /\ cube_distance (HexPoint_mul a k) (HexPoint_mul b k)
     = (Z.abs k * (Z.abs (q a - q b) + Z.abs (r a - r b)
                   + Z.abs (s a - s b))) / 2.
Proof.
  unfold zero_sum, HexPoint_add, HexPoint_sub, HexPoint_mul. cbn [q r s].
  split; [lia |]. split; [lia |]. split; [nia |].
  split; [apply HexPoint_ext; cbn [q r s]; lia |].
  split; [apply HexPoint_ext; cbn [q r s]; lia |].
  split; [apply HexPoint_ext; cbn [q r s]; lia |].
  split; [apply HexPoint_ext; cbn [q r s]; lia |].
  unfold cube_distance. cbn [q r s]. f_equal.
  rewrite <- !Z.mul_sub_distr_r, !Z.abs_mul. lia.
Qed.

Lemma HexPoint_arithmetic_witness :
  zero_sum (HexPoint_add (mkHexPoint 1 0 (-1)) (mkHexPoint 0 2 (-2)))
  /\ zero_sum (HexPoint_mul (mkHexPoint 1 0 (-1)) 3).
Proof.
  destruct (HexPoint_arithmetic (mkHexPoint 1 0 (-1)) (mkHexPoint 0 2 (-2)) 3)
    as (Hadd & _ & Hmul & _).
  split; [apply Hadd; reflexivity | apply Hmul; reflexivity].
Defined.

(** Literals [Z.to_nat 3] to [3]. *)
Ltac to_nat_literals :=
  repeat match goal with
         | |- context [Z.to_nat ?z] =>
             let n := eval compute in (Z.to_nat z) in
             change (Z.to_nat z) with n
         | H : context [Z.to_nat ?z] |- _ =>
             let n := eval compute in (Z.to_nat z) in
             change (Z.to_nat z) with n in H
         end.

Lemma cube_neighbor_direction (p : HexPoint) (d : Z) :
  0 <= d <= 5 ->
  cube_neighbor p d = Ok (HexPoint_add p (direction (Z.to_nat d))).
Proof.
  intros Hd. unfold cube_neighbor.
  rewrite <- (Z2Nat.id d) at 1 by lia.
  rewrite getitem_direction by lia. reflexivity.
Qed.

(** X3: The six neighbours of a point: each at distance 1, pairwise distinct,
    on the grid when the point is; and every grid point at distance 1 from a
    grid point is one of its six neighbours. *)
Theorem cube_neighbor_adjacent (p : HexPoint) :
  (forall d, 0 <= d <= 5 ->
             exists n, cube_neighbor p d = Ok n
                       /\ cube_distance p n = 1
                       /\ (zero_sum p -> zero_sum n))
  /\ (forall d d' n, 0 <= d <= 5 -> 0 <= d' <= 5 ->
                     cube_neighbor p d = Ok n -> cube_neighbor p d' = Ok n ->
                     d = d')
  /\ (forall n, zero_sum p -> zero_sum n -> cube_distance p n = 1 ->
                exists d, 0 <= d <= 5 /\ cube_neighbor p d = Ok n).
Proof.
  split; [| split].
  - intros d Hd. rewrite cube_neighbor_direction by assumption.
    eexists. split; [reflexivity |].
    assert (H : d = 0 \/ d = 1 \/ d = 2 \/ d = 3 \/ d = 4 \/ d = 5) by lia.
    unfold zero_sum, cube_distance.
    destruct H as [->|[->|[->|[->|[->| ->]]]]];
      to_nat_literals; hex_simpl; (split; [lia_div | lia]).
  - intros d d' n Hd Hd'.
    rewrite !cube_neighbor_direction by assumption.
    intros H1 H2. rewrite <- H1 in H2. clear H1.
    injection H2 as Hq Hr Hs.
    assert (H : d = 0 \/ d = 1 \/ d = 2 \/ d = 3 \/ d = 4 \/ d = 5) by lia.
    assert (H' : d' = 0 \/ d' = 1 \/ d' = 2 \/ d' = 3 \/ d' = 4 \/ d' = 5)
      by lia.
    destruct H as [->|[->|[->|[->|[->| ->]]]]];
      destruct H' as [->|[->|[->|[->|[->| ->]]]]];
      to_nat_literals; hex_simpl; lia.
  - intros n Hp Hn Hd. unfold zero_sum, cube_distance in *.
    assert (H : (q n = q p + 1 /\ r n = r p) \/ (q n = q p /\ r n = r p + 1)
                \/ (q n = q p - 1 /\ r n = r p + 1)
                \/ (q n = q p - 1 /\ r n = r p)
                \/ (q n = q p /\ r n = r p - 1)
                \/ (q n = q p + 1 /\ r n = r p - 1)) by lia_div.
    destruct H as [H|[H|[H|[H|[H|H]]]]];
      [exists 0 | exists 1 | exists 2 | exists 3 | exists 4 | exists 5];
      (split; [lia |]); rewrite cube_neighbor_direction by lia;
      f_equal; to_nat_literals; apply HexPoint_ext; hex_simpl; lia.
Qed.

Lemma cube_neighbor_adjacent_witness :
  (exists n, cube_neighbor (mkHexPoint 2 (-3) 1) 4 = Ok n
             /\ cube_distance (mkHexPoint 2 (-3) 1) n = 1)
  /\ exists d, 0 <= d <= 5
               /\ cube_neighbor (mkHexPoint 2 (-3) 1) d
                  = Ok (mkHexPoint 1 (-2) 1).
Proof.
  destruct (cube_neighbor_adjacent (mkHexPoint 2 (-3) 1)) as (H1 & _ & H3).
  split.
  - destruct (H1 4 ltac:(lia)) as (n & Hn & Hd & _). exists n. now split.
  - apply H3; reflexivity.
Defined.

(** ** The ring as a set and as a loop *)

Lemma ring_pos_translate (center : HexPoint) (k : Z) (idx : nat) :
  ring_pos center k idx
  = HexPoint_add center (ring_pos (mkHexPoint 0 0 0) k idx).
Proof.
  unfold ring_pos, ring_point.
  apply HexPoint_ext; unfold HexPoint_add, HexPoint_mul; cbn [q r s]; lia.
Qed.

Lemma ring_point_zero_sum (center : HexPoint) (k : Z) (i : nat) (j : Z) :
  zero_sum center -> zero_sum (ring_point center k i j).
Proof.
  unfold zero_sum. intros Hc.
  assert (Hdir : forall n, q (direction n) + r (direction n)
                           + s (direction n) = 0).
  { intros n. unfold direction.
    do 6 (destruct n as [|n]; [reflexivity |]). destruct n; reflexivity. }
  pose proof (Hdir i). pose proof (Hdir ((i + 4) mod 6)%nat).
  unfold ring_point, HexPoint_add, HexPoint_mul. cbn [q r s]. nia.
Qed.

Lemma ring_walk_In (center : HexPoint) (k : Z) (p : HexPoint) :
  1 <= k ->
  In p (ring_walk center k)
  <-> exists idx, (idx < 6 * Z.to_nat k)%nat /\ ring_pos center k idx = p.
Proof.
  intros Hk. pose proof (ring_walk_length center k ltac:(lia)) as Hlen.
  split.
  - intros Hin. apply In_nth_error in Hin. destruct Hin as [idx Hidx].
    assert ((idx < length (ring_walk center k))%nat)
      by (apply nth_error_Some; congruence).
    exists idx. split; [lia |].
    rewrite ring_walk_nth in Hidx by lia. congruence.
  - intros (idx & Hidx & <-). eapply nth_error_In.
    apply ring_walk_nth; lia.
Qed.

(** X4: For a centre on the grid and a radius [k >= 1], [cube_ring] lists,
    without repetition, exactly the grid points at distance [k] from the
    centre. *)
Theorem cube_ring_exact (center : HexPoint) (k : Z) :
  1 <= k -> zero_sum center ->
  exists ring,
    cube_ring center k = Ok ring
    /\ NoDup ring
    /\ forall p, In p ring <-> zero_sum p /\ cube_distance center p = k.
Proof.
  intros Hk Hc. exists (ring_walk center k).
  split; [now apply cube_ring_walk |]. split; [now apply ring_walk_NoDup |].
  intros p. rewrite ring_walk_In by assumption. split.
  - intros (idx & Hidx & <-).
    assert (Hn : (Z.to_nat k <> 0)%nat) by lia.
    pose proof (Nat.mod_upper_bound idx (Z.to_nat k) Hn).
    unfold ring_pos. split; [now apply ring_point_zero_sum |].
    apply ring_point_distance; [| lia].
    apply Nat.Div0.div_lt_upper_bound; lia.
  - intros [Hp Hd].
    destruct (ring_pos_onto k (HexPoint_sub p center) Hk) as (idx & Hidx & E).
    + unfold zero_sum in *. unfold HexPoint_sub. cbn [q r s]. lia.
    + rewrite <- Hd. unfold cube_distance, HexPoint_sub. cbn [q r s]. lia_div.
    + exists idx. split; [exact Hidx |].
      rewrite ring_pos_translate, E.
      apply HexPoint_ext; unfold HexPoint_add, HexPoint_sub; cbn [q r s]; lia.
Qed.

Lemma cube_ring_exact_witness :
  exists ring,
    cube_ring (mkHexPoint 1 1 (-2)) 2 = Ok ring
    /\ In (mkHexPoint 3 0 (-3)) ring.
Proof.
  destruct (cube_ring_exact (mkHexPoint 1 1 (-2)) 2 ltac:(lia) eq_refl)
    as (ring & Hring & _ & Hin).
  exists ring. split; [exact Hring |]. apply Hin. split; reflexivity.
Defined.

Lemma ring_point_next (center : HexPoint) (k : Z) (i : nat) (j : Z) :
  (i < 6)%nat ->
  HexPoint_add (ring_point center k i j) (direction i)
  = ring_point center k i (j + 1)
  /\ ring_point center k i k = ring_point center k (S i mod 6) 0.
Proof.
  intros Hi. unfold ring_point.
  do 6 (destruct i as [|i]; [split; hex_ring |]). lia.
Qed.

(** X5: The ring is a closed loop of unit steps: the point after position
    [idx], the first point after the last, is the neighbour in the direction
    of the side [idx / k]. *)
Theorem cube_ring_loop (center : HexPoint) (k idx : Z) :
  1 <= k -> 0 <= idx < 6 * k ->
  exists ring a b,
    cube_ring center k = Ok ring
    /\ getitem ring idx = Ok a
    /\ getitem ring ((idx + 1) mod (6 * k)) = Ok b
    /\ cube_neighbor a (idx / k) = Ok b
    /\ cube_distance a b = 1.
Proof.
  intros Hk Hidx.
  set (n := Z.to_nat k). set (i := Z.to_nat (idx / k)).
  set (j := idx mod k).
  assert (Hj : 0 <= j < k) by (apply Z.mod_pos_bound; lia).
  assert (Hdiv : 0 <= idx / k < 6).
  { split; [apply Z.div_pos; lia | apply Z.div_lt_upper_bound; lia]. }
  assert (Hi : (i < 6)%nat) by (unfold i; lia).
  pose proof (Z.div_mod idx k ltac:(lia)) as Hdm. fold j in Hdm.
  assert (Hpos : forall (i' : nat) (j' : Z), (i' < 6)%nat -> 0 <= j' < k ->
            getitem (ring_walk center k) (Z.of_nat i' * k + j')
            = Ok (ring_point center k i' j')).
  { intros i' j' Hi' Hj'.
    replace (Z.of_nat i' * k + j')
      with (Z.of_nat (i' * n + Z.to_nat j')) by (unfold n; lia).
    apply getitem_nth.
    rewrite ring_walk_point by (unfold n in *; lia).
    now rewrite Z2Nat.id by lia. }
  exists (ring_walk center k), (ring_point center k i j).
  assert (Ha : getitem (ring_walk center k) idx
               = Ok (ring_point center k i j)).
  { rewrite <- (Hpos i j Hi Hj). f_equal. unfold i. lia. }
  assert (Hnb : cube_neighbor (ring_point center k i j) (idx / k)
                = Ok (ring_point center k i (j + 1))).
  { rewrite cube_neighbor_direction by lia. fold i.
    now rewrite (proj1 (ring_point_next center k i j Hi)). }
  assert (Hd1 : forall a d, 0 <= d <= 5 ->
                  cube_distance a (HexPoint_add a (direction (Z.to_nat d))) = 1).
  { intros a d Hd0.
    assert (H : d = 0 \/ d = 1 \/ d = 2 \/ d = 3 \/ d = 4 \/ d = 5) by lia.
    unfold cube_distance.
    destruct H as [->|[->|[->|[->|[->| ->]]]]];
      to_nat_literals; hex_simpl; lia_div. }
  assert (Hdist : cube_distance (ring_point center k i j)
                    (ring_point center k i (j + 1)) = 1).
  { rewrite <- (proj1 (ring_point_next center k i j Hi)).
    unfold i. apply Hd1. lia. }
  destruct (Z.eq_dec (j + 1) k) as [Hlast | Hmid].
  - exists (ring_point center k (S i mod 6) 0).
    rewrite Hlast in Hnb, Hdist.
    rewrite (proj2 (ring_point_next center k i k Hi)) in Hnb, Hdist.
    split; [now apply cube_ring_walk |]. split; [exact Ha |].
    split; [| split; assumption].
    assert (Hmod : (S i mod 6 < 6)%nat) by (apply Nat.mod_upper_bound; lia).
    rewrite <- (Hpos (S i mod 6)%nat 0 Hmod ltac:(lia)). f_equal.
    assert (Hnext : idx + 1 = (idx / k + 1) * k) by lia.
    destruct (Z.eq_dec (idx / k) 5) as [H5 | H5].
    + assert (i = 5%nat) by (unfold i; lia).
      replace (idx + 1) with (6 * k) by lia.
      rewrite Z.mod_same by lia. subst i. rewrite H. reflexivity.
    + rewrite Z.mod_small by nia.
      rewrite Nat.mod_small by lia. unfold i. lia.
  - exists (ring_point center k i (j + 1)).
    split; [now apply cube_ring_walk |]. split; [exact Ha |].
    split; [| split; assumption].
    rewrite Z.mod_small by nia.
    rewrite <- (Hpos i (j + 1) Hi ltac:(lia)). f_equal. unfold i. lia.
Qed.

Lemma cube_ring_loop_witness :
  exists ring a b,
    cube_ring (mkHexPoint 0 0 0) 2 = Ok ring
    /\ getitem ring 11 = Ok a
    /\ getitem ring 0 = Ok b
    /\ cube_distance a b = 1.
Proof.
  destruct (cube_ring_loop (mkHexPoint 0 0 0) 2 11 ltac:(lia) ltac:(lia))
    as (ring & a & b & Hring & Ha & Hb & _ & Hd).
  exists ring, a, b. repeat split; assumption.
Defined.

(** ** Ring starts and spiral indices *)

Lemma ring_start_exists (n : nat) (i : Z) :
  0 <= i < _spiral_index_start_of_ring (Z.of_nat n + 1) ->
  exists k, 0 <= k <= Z.of_nat n
            /\ _spiral_index_start_of_ring k <= i
               < _spiral_index_start_of_ring (k + 1).
Proof.
  induction n as [|n IH]; intros Hi.
  - exists 0. change (Z.of_nat 0) with 0 in *.
    change (_spiral_index_start_of_ring (0 + 1)) with 1 in *.
    change (_spiral_index_start_of_ring 0) with 0. lia.
  - assert (HS : Z.of_nat (S n) = Z.of_nat n + 1) by lia.
    rewrite HS in Hi.
    destruct (Z_lt_le_dec i (_spiral_index_start_of_ring (Z.of_nat n + 1)))
      as [Hlt | Hge].
    + destruct (IH ltac:(lia)) as (k & Hk & Hr). exists k. split; lia.
    + exists (Z.of_nat n + 1). split; lia.
Qed.

(** X6: The ring starts cut the non-negative integers into consecutive ranges,
    one per ring, each as long as the ring: every index lies in exactly one
    ring, ring 0 holds one index and ring [k >= 1] holds [6 * k], as many as
    [cube_ring] returns points. *)
Theorem ring_starts_partition :
  (forall i, 0 <= i ->
             exists k, 0 <= k
                       /\ _spiral_index_start_of_ring k <= i
                          < _spiral_index_start_of_ring (k + 1)
                       /\ forall k', 0 <= k' ->
                            _spiral_index_start_of_ring k' <= i
                            < _spiral_index_start_of_ring (k' + 1) ->
                            k' = k)
  /\ (forall k ring,
         0 <= k -> cube_ring (mkHexPoint 0 0 0) k = Ok ring ->
         _spiral_index_start_of_ring (k + 1)
         = _spiral_index_start_of_ring k + Z.of_nat (length ring)).
Proof.
  split.
  - intros i Hi.
    destruct (ring_start_exists (Z.to_nat i) i) as (k & Hk & Hr).
    { rewrite Z2Nat.id by lia. unfold _spiral_index_start_of_ring.
      destruct (Z.eqb_spec (i + 1) 0); nia. }
    exists k. split; [lia |]. split; [exact Hr |].
    intros k' Hk' Hr'. apply (ring_of_index_unique i); assumption || lia.
  - intros k ring Hk Hring. rewrite cube_ring_ring_of in Hring by assumption.
    injection Hring as <-. unfold ring_of.
    destruct (Z.eqb_spec k 0) as [-> | Hnz]; [reflexivity |].
    rewrite ring_walk_length, start_of_ring_step by lia. reflexivity.
Qed.

Lemma ring_starts_partition_witness :
  exists k, 0 <= k
            /\ _spiral_index_start_of_ring k <= 40
               < _spiral_index_start_of_ring (k + 1).
Proof.
  destruct (proj1 ring_starts_partition 40 ltac:(lia)) as (k & Hk & Hr & _).
  exists k. split; assumption.
Defined.

Lemma find_index_absent (p : HexPoint) (l : list HexPoint) (i0 : Z) :
  ~ In p l -> find_index p l i0 = None.
Proof.
  revert i0. induction l as [|h t IH]; intros i0 Hnin; cbn [find_index].
  - reflexivity.
  - destruct (HexPoint_eqb p h) eqn:E.
    + apply HexPoint_eqb_eq in E. subst h. exfalso. apply Hnin. now left.
    + apply IH. intros Hin. apply Hnin. now right.
Qed.

Lemma ring_of_zero_sum (i : Z) (p : HexPoint) :
  0 <= i -> In p (ring_of i) -> zero_sum p.
Proof.
  intros Hi Hp. unfold ring_of in Hp. destruct (Z.eqb_spec i 0).
  - destruct Hp as [<- | []]. reflexivity.
  - apply ring_walk_In in Hp; [| lia]. destruct Hp as (idx & _ & <-).
    apply ring_point_zero_sum. reflexivity.
Qed.

Lemma cube_to_spiral_position (p : HexPoint) :
  zero_sum p -> 1 <= cube_distance p (mkHexPoint 0 0 0) ->
  exists idx,
    (idx < 6 * Z.to_nat (cube_distance p (mkHexPoint 0 0 0)))%nat
    /\ ring_pos (mkHexPoint 0 0 0) (cube_distance p (mkHexPoint 0 0 0)) idx = p
    /\ cube_to_spiral p
       = Ok (Z.of_nat idx
             + _spiral_index_start_of_ring
                 (cube_distance p (mkHexPoint 0 0 0))).
Proof.
  intros Hsum Hd.
  destruct (ring_pos_onto _ p Hd Hsum eq_refl) as (idx & Hidx & Hp).
  exists idx. split; [exact Hidx |]. split; [exact Hp |].
  rewrite <- Hp at 1. now apply cube_to_spiral_ring.
Qed.

Lemma cube_to_spiral_on_grid (p : HexPoint) :
  zero_sum p ->
  exists i, cube_to_spiral p = Ok i
            /\ _spiral_index_start_of_ring
                 (cube_distance p (mkHexPoint 0 0 0)) <= i
               < _spiral_index_start_of_ring
                   (cube_distance p (mkHexPoint 0 0 0) + 1)
            /\ 0 <= i.
Proof.
  intros Hsum.
  destruct (point_index p Hsum) as (i & Hi & Hring & _).
  exists i. split; [exact Hi |]. split; [exact Hring |].
  pose proof (cube_distance_nonneg p (mkHexPoint 0 0 0)).
  pose proof (start_of_ring_mono 0 (cube_distance p (mkHexPoint 0 0 0))
                ltac:(lia)) as H0.
  change (_spiral_index_start_of_ring 0) with 0 in H0. lia.
Qed.

Lemma cube_to_spiral_off_grid (p : HexPoint) :
  ~ zero_sum p -> cube_to_spiral p = Raise ValueError.
Proof.
  intros Hoff. unfold cube_to_spiral.
  pose proof (cube_distance_nonneg p (mkHexPoint 0 0 0)) as Hd.
  rewrite cube_ring_ring_of by assumption. cbn [bind].
  rewrite find_index_absent; [reflexivity |].
  intros Hin. apply Hoff. eapply ring_of_zero_sum; eassumption.
Qed.

Lemma cube_to_spiral_zero_sum (p : HexPoint) (i : Z) :
  cube_to_spiral p = Ok i -> zero_sum p.
Proof.
  intros Hi. destruct (Z.eq_dec (q p + r p + s p) 0) as [H | H]; [exact H |].
  rewrite (cube_to_spiral_off_grid p H) in Hi. discriminate.
Qed.

(** X7: [cube_to_spiral] returns an index exactly on the points with
    [q + r + s = 0], and raises ValueError on every other point; the index
    lies in the range of the ring of the point's distance from the origin,
    so it is never negative. *)
Theorem cube_to_spiral_defined (p : HexPoint) :
  (zero_sum p ->
   exists i, cube_to_spiral p = Ok i
             /\ _spiral_index_start_of_ring
                  (cube_distance p (mkHexPoint 0 0 0)) <= i
                < _spiral_index_start_of_ring
                    (cube_distance p (mkHexPoint 0 0 0) + 1)
             /\ 0 <= i)
  /\ (~ zero_sum p -> cube_to_spiral p = Raise ValueError).
Proof.
  split; [apply cube_to_spiral_on_grid | apply cube_to_spiral_off_grid].
Qed.

Lemma cube_to_spiral_defined_witness :
  (exists i, cube_to_spiral (mkHexPoint 3 (-1) (-2)) = Ok i /\ 0 <= i)
  /\ cube_to_spiral (mkHexPoint 1 0 0) = Raise ValueError.
Proof.
  split.
  - destruct (proj1 (cube_to_spiral_defined (mkHexPoint 3 (-1) (-2))) eq_refl)
      as (i & Hi & _ & H0).
    exists i. now split.
  - apply (proj2 (cube_to_spiral_defined (mkHexPoint 1 0 0))).
    unfold zero_sum. cbn [q r s]. lia.
Defined.

Lemma spiral_index_order (a b : HexPoint) (ia ib : Z) :
  cube_to_spiral a = Ok ia -> cube_to_spiral b = Ok ib ->
  (ia = ib -> a = b)
  /\ (cube_distance a (mkHexPoint 0 0 0) < cube_distance b (mkHexPoint 0 0 0)
      -> ia < ib).
Proof.
  intros Ha Hb.
  pose proof (cube_to_spiral_zero_sum a ia Ha) as Hsa.
  pose proof (cube_to_spiral_zero_sum b ib Hb) as Hsb.
  destruct (cube_to_spiral_on_grid a Hsa) as (ia' & Ha' & Hra & _).
  destruct (cube_to_spiral_on_grid b Hsb) as (ib' & Hb' & Hrb & _).
  assert (ia' = ia) by congruence. assert (ib' = ib) by congruence.
  subst ia' ib'. clear Ha' Hb'.
  set (da := cube_distance a (mkHexPoint 0 0 0)) in *.
  set (db := cube_distance b (mkHexPoint 0 0 0)) in *.
  pose proof (cube_distance_nonneg a (mkHexPoint 0 0 0)) as Hda. fold da in Hda.
  pose proof (cube_distance_nonneg b (mkHexPoint 0 0 0)) as Hdb. fold db in Hdb.
  split.
  - intros ->.
    assert (Hd : da = db) by (apply (ring_of_index_unique ib); assumption).
    destruct (Z.eq_dec da 0) as [Hz | Hnz].
    + rewrite (zero_sum_distance_zero a Hsa Hz).
      rewrite (zero_sum_distance_zero b Hsb); [reflexivity | ].
      fold db. lia.
    + destruct (cube_to_spiral_position a Hsa ltac:(fold da; lia))
        as (xa & Hxa & Hpa & Hca).
      destruct (cube_to_spiral_position b Hsb ltac:(fold db; lia))
        as (xb & Hxb & Hpb & Hcb).
      fold da in Hxa, Hpa, Hca. fold db in Hxb, Hpb, Hcb.
      rewrite Ha in Hca. rewrite Hb in Hcb.
      rewrite <- Hd in *.
      assert (xa = xb) by (injection Hca as Hca; injection Hcb as Hcb; lia).
      subst xb. congruence.
  - intros Hlt. pose proof (start_of_ring_mono (da + 1) db ltac:(lia)). lia.
Qed.

(** X8: Two points with the same spiral index are the same point, and a point
    nearer to the origin has the smaller index. *)
Theorem cube_to_spiral_injective (a b : HexPoint) (ia ib : Z) :
  cube_to_spiral a = Ok ia -> cube_to_spiral b = Ok ib ->
  (ia = ib -> a = b)
  /\ (cube_distance a (mkHexPoint 0 0 0) < cube_distance b (mkHexPoint 0 0 0)
      -> ia < ib).
Proof. apply spiral_index_order. Qed.

Lemma cube_to_spiral_injective_witness :
  cube_to_spiral (mkHexPoint 1 (-2) 1) = Ok 8
  /\ cube_to_spiral (mkHexPoint 0 (-3) 3) = Ok 19
  /\ 8 < 19.
Proof.
  split; [reflexivity |]. split; [reflexivity |].
  apply (proj2 (cube_to_spiral_injective (mkHexPoint 1 (-2) 1)
                  (mkHexPoint 0 (-3) 3) 8 19 eq_refl eq_refl)).
  vm_compute. reflexivity.
Defined.

(** ** Comparing points *)

Lemma HexPoint_int_cached (o : HexPointObj) (i : Z) :
  cache_ok o -> cube_to_spiral (obj_point o) = Ok i ->
  HexPoint_int o = (Ok i, mkHexPointObj (obj_point o) (Some i)).
Proof.
  intros Hok Hi. unfold HexPoint_int, cache_ok in *.
  destruct o as [p [j |]]; cbn [obj_point obj_int] in *.
  - specialize (Hok j eq_refl). assert (j = i) by congruence. now subst.
  - now rewrite Hi.
Qed.

(** X9: The comparison operators order the grid points by spiral index: on two
    instances whose cached index, if any, is that of their coordinates, [<],
    [<=], [>] and [>=] return the comparison of the two indices and leave
    both indices cached; the indices are equal only for equal points, so of
    [a < b], [a == b] and [b < a] exactly one holds, and a point nearer to
    the origin is the smaller.  An instance whose index is cached keeps
    that index whatever its coordinates are now. *)
Theorem HexPoint_comparisons (a b : HexPointObj) :
  (cache_ok a -> cache_ok b ->
   zero_sum (obj_point a) -> zero_sum (obj_point b) ->
   exists i j,
     cube_to_spiral (obj_point a) = Ok i
     /\ cube_to_spiral (obj_point b) = Ok j
     /\ (let st := (mkHexPointObj (obj_point a) (Some i),
                    mkHexPointObj (obj_point b) (Some j)) in
         HexPoint_lt (a, b) = (Ok (i <? j), st)
         /\ HexPoint_le (a, b) = (Ok (i <=? j), st)
         /\ HexPoint_gt (a, b) = (Ok (i >? j), st)
         /\ HexPoint_ge (a, b) = (Ok (i >=? j), st)
         /\ cache_ok (fst st) /\ cache_ok (snd st))
     /\ (i = j <-> obj_point a = obj_point b)
     /\ (cube_distance (obj_point a) (mkHexPoint 0 0 0)
         < cube_distance (obj_point b) (mkHexPoint 0 0 0) -> i < j))
  /\ (forall i, obj_int a = Some i -> HexPoint_int a = (Ok i, a))
  /\ (obj_int a = None -> ~ zero_sum (obj_point a) ->
      HexPoint_lt (a, b) = (Raise ValueError, (a, b))).
Proof.
  split; [| split].
  - intros Hca Hcb Hsa Hsb.
    destruct (cube_to_spiral_on_grid (obj_point a) Hsa) as (i & Hi & _).
    destruct (cube_to_spiral_on_grid (obj_point b) Hsb) as (j & Hj & _).
    exists i, j. split; [exact Hi |]. split; [exact Hj |].
    split; [| split].
    + unfold HexPoint_lt, HexPoint_le, HexPoint_gt, HexPoint_ge,
        compare_by_index.
      rewrite (HexPoint_int_cached a i Hca Hi),
        (HexPoint_int_cached b j Hcb Hj).
      repeat (split; [reflexivity |]).
      split; intros k Hk; injection Hk as <-; assumption.
    + split.
      * intros E. subst j.
        now apply (proj1 (spiral_index_order _ _ i i Hi Hj)).
      * intros E. rewrite E in Hi. congruence.
    + apply (proj2 (spiral_index_order _ _ i j Hi Hj)).
  - intros i Hi. unfold HexPoint_int. now rewrite Hi.
  - intros Hnone Hoff. unfold HexPoint_lt, compare_by_index, HexPoint_int.
    rewrite Hnone, (cube_to_spiral_off_grid (obj_point a) Hoff).
    reflexivity.
Qed.

Lemma HexPoint_comparisons_witness :
  fst (HexPoint_lt (mkHexPointObj (mkHexPoint 1 0 (-1)) None,
                    mkHexPointObj (mkHexPoint 0 2 (-2)) None))
  = Ok true
  /\ fst (HexPoint_lt (mkHexPointObj (mkHexPoint 1 0 0) None,
                       mkHexPointObj (mkHexPoint 0 2 (-2)) None))
     = Raise ValueError.
Proof.
  split.
  - destruct (proj1 (HexPoint_comparisons
                       (mkHexPointObj (mkHexPoint 1 0 (-1)) None)
                       (mkHexPointObj (mkHexPoint 0 2 (-2)) None)))
      as (i & j & Hi & Hj & (Hlt & _) & _ & Hd);
      [intros k Hk; discriminate | intros k Hk; discriminate
       | reflexivity | reflexivity |].
    rewrite Hlt. cbn [fst]. f_equal. apply Z.ltb_lt, Hd.
    vm_compute. reflexivity.
  - rewrite (proj2 (proj2 (HexPoint_comparisons
                             (mkHexPointObj (mkHexPoint 1 0 0) None)
                             (mkHexPointObj (mkHexPoint 0 2 (-2)) None)))
               eq_refl).
    + reflexivity.
    + unfold zero_sum. cbn. lia.
Defined.

(** ** The order of a freshly filled map *)

Lemma range_succ (k : Z) : 0 <= k -> range (k + 1) = range k ++ [k].
Proof.
  intros Hk. unfold range.
  replace (Z.to_nat (k + 1)) with (S (Z.to_nat k)) by lia.
  rewrite seq_S, map_app. cbn [map Nat.add]. now rewrite Z2Nat.id by lia.
Qed.

Lemma rings_upto_succ (k : Z) :
  0 <= k -> rings_upto (k + 1) = rings_upto k ++ ring_of k.
Proof.
  intros Hk. unfold rings_upto.
  rewrite range_succ, map_app, concat_app by assumption.
  cbn [map concat]. now rewrite app_nil_r.
Qed.

Lemma rings_upto_length (n : nat) :
  Z.of_nat (length (rings_upto (Z.of_nat n)))
  = _spiral_index_start_of_ring (Z.of_nat n).
Proof.
  induction n as [|n IH]; [reflexivity |].
  replace (Z.of_nat (S n)) with (Z.of_nat n + 1) by lia.
  rewrite rings_upto_succ, length_app, Nat2Z.inj_add, IH by lia.
  unfold ring_of. destruct (Z.eqb_spec (Z.of_nat n) 0) as [E | E].
  - rewrite E. reflexivity.
  - rewrite ring_walk_length, start_of_ring_step by lia. reflexivity.
Qed.

Lemma rings_upto_nth (n : nat) (i : nat) (p : HexPoint) :
  nth_error (rings_upto (Z.of_nat n)) i = Some p ->
  cube_to_spiral p = Ok (Z.of_nat i).
Proof.
  induction n as [|n IH]; intros Hnth.
  - destruct i; discriminate.
  - replace (Z.of_nat (S n)) with (Z.of_nat n + 1) in Hnth by lia.
    rewrite rings_upto_succ in Hnth by lia.
    pose proof (rings_upto_length n) as Hlen.
    destruct (Nat.lt_ge_cases i (length (rings_upto (Z.of_nat n))))
      as [Hlt | Hge].
    + rewrite nth_error_app1 in Hnth by assumption. now apply IH.
    + rewrite nth_error_app2 in Hnth by assumption.
      set (idx := (i - length (rings_upto (Z.of_nat n)))%nat) in *.
      assert (Hi : Z.of_nat i
                   = Z.of_nat idx + _spiral_index_start_of_ring (Z.of_nat n))
        by (unfold idx; lia).
      rewrite Hi. unfold ring_of in Hnth.
      destruct (Z.eqb_spec (Z.of_nat n) 0) as [E | E].
      * rewrite E. destruct idx as [|[|idx]]; try discriminate.
        injection Hnth as <-. reflexivity.
      * assert (Hidx : (idx < 6 * Z.to_nat (Z.of_nat n))%nat).
        { pose proof (ring_walk_length (mkHexPoint 0 0 0) (Z.of_nat n)
                        ltac:(lia)).
          assert ((idx < length (ring_walk (mkHexPoint 0 0 0) (Z.of_nat n)))
                  %nat) by (apply nth_error_Some; congruence).
          lia. }
        rewrite ring_walk_nth in Hnth by lia. injection Hnth as <-.
        apply cube_to_spiral_ring; lia.
Qed.

Section FillOrder.

Context {Data : Type}.

Lemma absent_empty (pts : list HexPoint) :
  absent (@nil (HexPoint * HexCell Data)) pts = pts.
Proof.
  unfold absent. induction pts as [|p pts IH];
    cbn [filter dict_contains existsb negb]; [reflexivity |].
  f_equal. exact IH.
Qed.

Lemma new_cells_keys (m : HexMap Data) (pts : list HexPoint) :
  map fst (map (new_cell m) pts) = pts.
Proof. induction pts as [|p pts IH]; cbn; [reflexivity | now rewrite IH]. Qed.

(** X10: A map filled from empty iterates in spiral order: after
    [fill_to_radius(n)] on a new map the keys are the points of the rings
    [0 .. n-1], the cell at position [i] is the point with spiral index [i],
    and the map holds [_spiral_index_start_of_ring(n)] cells ([n >= 0]). *)
Theorem fill_order_is_spiral_order (radius : num) (o : GridOrientation)
    (n : Z) :
  let m : HexMap Data := snd (fill_to_radius n (HexMap_init radius o)) in
  map fst (map_grid m) = rings_upto n
  /\ (0 <= n -> HexMap_len m = _spiral_index_start_of_ring n)
  /\ (forall i p, nth_error (map fst (map_grid m)) i = Some p ->
                  cube_to_spiral p = Ok (Z.of_nat i)).
Proof.
  intros m.
  assert (Hkeys : map fst (map_grid m) = rings_upto n).
  { unfold m, fill_to_radius. rewrite fill_rings.
    - change (HexMap_init radius o)
        with (with_grid [] (HexMap_init radius o : HexMap Data)).
      rewrite fill_points by apply rings_upto_NoDup.
      cbn [snd app]. rewrite with_grid_grid, absent_empty.
      apply new_cells_keys.
    - intros i Hi. apply range_In in Hi. lia. }
  split; [exact Hkeys |]. split.
  - intros Hn. unfold HexMap_len.
    rewrite <- (length_map fst), Hkeys.
    rewrite <- (Z2Nat.id n) by lia. apply rings_upto_length.
  - intros i p Hnth. rewrite Hkeys in Hnth.
    destruct (Z_lt_le_dec n 0) as [Hneg | Hpos].
    + unfold rings_upto, range in Hnth.
      replace (Z.to_nat n) with 0%nat in Hnth by lia.
      destruct i; discriminate.
    + rewrite <- (Z2Nat.id n) in Hnth by lia.
      now apply (rings_upto_nth (Z.to_nat n)).
Qed.

End FillOrder.

Lemma fill_order_is_spiral_order_witness :
  HexMap_len (snd (fill_to_radius 3 (HexMap_init (Int 1) POINTY_TOP
                                     : HexMap unit)))
  = 19.
Proof.
  apply (proj1 (proj2 (fill_order_is_spiral_order (Data := unit) (Int 1)
                         POINTY_TOP 3))).
  lia.
Defined.

(** ** Direction names *)

(** X11: [direction_name] knows exactly the thirteen multiples of 30 from 0 to
    360, and raises ValueError on every other angle; 360 is named as 0 is,
    and an angle and the one 180 degrees on never share a name. *)
Theorem direction_name_defined (angle : Z) :
  (0 <= angle <= 360 /\ angle mod 30 = 0 ->
   exists name, direction_name angle = Ok name)
  /\ (~ (0 <= angle <= 360 /\ angle mod 30 = 0) ->
      direction_name angle = Raise ValueError)
  /\ direction_name 360 = direction_name 0
  /\ (0 <= angle <= 180 -> forall name,
        direction_name angle = Ok name ->
        direction_name (angle + 180) <> Ok name).
Proof.
  assert (Hcases : 0 <= angle <= 360 /\ angle mod 30 = 0 ->
            angle = 0 \/ angle = 30 \/ angle = 60 \/ angle = 90 \/ angle = 120
            \/ angle = 150 \/ angle = 180 \/ angle = 210 \/ angle = 240
            \/ angle = 270 \/ angle = 300 \/ angle = 330 \/ angle = 360)
    by lia_div.
  assert (Hfound : forall name, direction_name angle = Ok name ->
                                0 <= angle <= 360 /\ angle mod 30 = 0).
  { unfold direction_name. intros name Hn.
    destruct (find _ DIRECTION_NAMES) as [kv |] eqn:E; [| discriminate].
    apply find_some in E. destruct E as [Hin Heq].
    apply Z.eqb_eq in Heq. subst angle.
    unfold DIRECTION_NAMES in Hin. cbn [In] in Hin.
    repeat (destruct Hin as [<- | Hin]; [cbn [fst]; split; [lia | reflexivity] |]).
    contradiction. }
  split; [| split; [| split]].
  - intros H. apply Hcases in H.
    repeat (destruct H as [-> | H]; [eexists; reflexivity |]).
    subst. eexists. reflexivity.
  - intros Hn. destruct (direction_name angle) as [name |] eqn:E.
    + exfalso. apply Hn. now apply (Hfound name).
    + unfold direction_name in E.
      destruct (find _ DIRECTION_NAMES); [discriminate |]. now symmetry.
  - reflexivity.
  - intros Hr name Hn. pose proof (Hfound name Hn) as H.
    apply Hcases in H.
    repeat (destruct H as [-> | H];
            [try lia; vm_compute in Hn; injection Hn as <-;
             vm_compute; discriminate |]).
    lia.
Qed.

Lemma direction_name_defined_witness :
  (exists name, direction_name 90 = Ok name)
  /\ direction_name 45 = Raise ValueError.
Proof.
  split.
  - apply (proj1 (direction_name_defined 90)). split; [lia | reflexivity].
  - apply (proj1 (proj2 (direction_name_defined 45))).
    intros [_ H]. discriminate H.
Defined.

(** ** Nearest direction and nearest corner *)

Lemma enumerate_snoc {A} (l : list A) (a : A) :
  enumerate (l ++ [a]) = enumerate l ++ [(Z.of_nat (length l), a)].
Proof.
  unfold enumerate. rewrite length_app. cbn [length].
  replace (Z.of_nat (length l + 1)) with (Z.of_nat (length l) + 1) by lia.
  rewrite range_succ by lia.
  assert (Hlen : length (range (Z.of_nat (length l))) = length l).
  { rewrite range_length by lia. lia. }
  revert Hlen. generalize (range (Z.of_nat (length l))) as ks.
  generalize (Z.of_nat (length l)) as k.
  induction l as [|x l IH]; intros k ks Hlen.
  - destruct ks; [reflexivity | discriminate].
  - destruct ks as [|k0 ks]; [discriminate |]. cbn [app combine].
    f_equal. apply IH. now injection Hlen.
Qed.

(** The loop of [nearest_direction_from_angle] over any tuple of angles:
    the first position whose difference is least. *)
Lemma nearest_fold (n : Z) (l : list Z) :
  l <> [] ->
  exists (d : nat) (a : Z),
    fold_left (nearest_step n) (enumerate l) (None, 0)
    = (Some (angle_diff a n), Z.of_nat d)
    /\ nth_error l d = Some a
    /\ (forall j b, nth_error l j = Some b ->
                    angle_diff a n <= angle_diff b n)
    /\ (forall j b, (j < d)%nat -> nth_error l j = Some b ->
                    angle_diff a n < angle_diff b n).
Proof.
  induction l as [|x l IH] using rev_ind; [congruence |]. intros _.
  rewrite enumerate_snoc, fold_left_app. cbn [fold_left].
  destruct l as [|y l'].
  - exists 0%nat, x. cbn. split; [reflexivity |]. split; [reflexivity |].
    split.
    + intros [|[|j]] b Hb; try discriminate. injection Hb as <-. lia.
    + intros j b Hj. lia.
  - destruct (IH ltac:(discriminate)) as (d & a & Hfold & Hnth & Hmin & Hfirst).
    rewrite Hfold. set (l := y :: l') in *.
    assert (Hd : (d < length l)%nat) by (apply nth_error_Some; congruence).
    unfold nearest_step at 1.
    destruct (angle_diff x n <? angle_diff a n) eqn:E.
    + apply Z.ltb_lt in E. exists (length l), x.
      split; [reflexivity |].
      split; [rewrite nth_error_app2, Nat.sub_diag by lia; reflexivity |].
      split.
      * intros j b Hb.
        destruct (Nat.lt_ge_cases j (length l)) as [Hj | Hj].
        -- rewrite nth_error_app1 in Hb by assumption.
           specialize (Hmin j b Hb). lia.
        -- rewrite nth_error_app2 in Hb by assumption.
           destruct (j - length l)%nat as [|[|k]]; try discriminate.
           injection Hb as <-. lia.
      * intros j b Hj Hb. rewrite nth_error_app1 in Hb by assumption.
        specialize (Hmin j b Hb). lia.
    + apply Z.ltb_ge in E. exists d, a.
      split; [reflexivity |].
      split; [rewrite nth_error_app1 by assumption; exact Hnth |].
      split.
      * intros j b Hb.
        destruct (Nat.lt_ge_cases j (length l)) as [Hj | Hj].
        -- rewrite nth_error_app1 in Hb by assumption. now apply (Hmin j).
        -- rewrite nth_error_app2 in Hb by assumption.
           destruct (j - length l)%nat as [|[|k]]; try discriminate.
           injection Hb as <-. lia.
      * intros j b Hj Hb. rewrite nth_error_app1 in Hb by lia.
        now apply (Hfirst j).
Qed.

Lemma getitem_nonneg {A} (l : list A) (i : Z) (a : A) :
  0 <= i -> getitem l i = Ok a -> nth_error l (Z.to_nat i) = Some a.
Proof.
  intros Hi. unfold getitem.
  destruct (Z.ltb_spec i 0); [lia |].
  destruct ((i <? 0) || (Z.of_nat (length l) <=? i)); [discriminate |].
  destruct (nth_error l (Z.to_nat i)); [| discriminate]. congruence.
Qed.

Lemma angle_diff_circular (a n : Z) :
  0 <= a < 360 -> 0 <= n < 360 ->
  angle_diff a n = Z.min (Z.abs (a - n)) (360 - Z.abs (a - n)).
Proof. unfold angle_diff. lia. Qed.

Lemma hex_angles_range (o : GridOrientation) (a : Z) :
  In a (hex_angles o) -> 0 <= a < 360 /\ a mod 30 = 0.
Proof.
  destruct o; cbn [hex_angles In]; intros H;
    repeat (destruct H as [<- | H]; [split; [lia | reflexivity] |]);
    contradiction.
Qed.

Lemma hex_angles_cover (o : GridOrientation) (n : Z) :
  0 <= n < 360 -> exists b, In b (hex_angles o) /\ angle_diff b n <= 30.
Proof.
  intros Hn. unfold angle_diff. destruct o; cbn [hex_angles In].
  - assert (H : n <= 60 \/ 60 < n <= 120 \/ 120 < n <= 180 \/ 180 < n <= 240
                \/ 240 < n <= 300 \/ 300 < n) by lia.
    destruct H as [H|[H|[H|[H|[H|H]]]]];
      [exists 30 | exists 90 | exists 150 | exists 210 | exists 270
       | exists 330]; (split; [tauto | lia]).
  - assert (H : n <= 30 \/ 30 < n <= 90 \/ 90 < n <= 150 \/ 150 < n <= 210
                \/ 210 < n <= 270 \/ 270 < n <= 330 \/ 330 < n) by lia.
    destruct H as [H|[H|[H|[H|[H|[H|H]]]]]];
      [exists 0 | exists 60 | exists 120 | exists 180 | exists 240
       | exists 300 | exists 0]; (split; [tauto | lia]).
Qed.

Section NearestDirection.
Context {Data : Type}.

(** X12: [nearest_direction_from_angle] returns the position, 0 to 5, of the edge
    angle that is nearest to the angle on the circle: no edge angle is
    nearer, the one found is at most 30 degrees away, and of two that are
    equally near the one listed first wins.  Adding a full turn to the
    angle changes nothing, and an edge angle gives its own position. *)
Theorem nearest_direction_is_nearest (c : HexCell Data) (angle : Z) :
  let n := angle mod 360 in
  let d := nearest_direction_from_angle c angle in
  0 <= d <= 5
  /\ (exists a,
         getitem (edge_angles c) d = Ok a
         /\ (forall b, In b (edge_angles c) -> angle_diff a n <= angle_diff b n)
         /\ angle_diff a n = Z.min (Z.abs (a - n)) (360 - Z.abs (a - n))
         /\ angle_diff a n <= 30
         /\ (forall d' b, 0 <= d' < d -> getitem (edge_angles c) d' = Ok b ->
                          angle_diff a n < angle_diff b n))
  /\ nearest_direction_from_angle c (angle + 360) = d
  /\ (forall d' b, 0 <= d' <= 5 -> getitem (edge_angles c) d' = Ok b ->
                   nearest_direction_from_angle c b = d').
Proof.
  intros n d.
  assert (Hn : 0 <= n < 360) by (apply Z.mod_pos_bound; lia).
  assert (Hlen : length (edge_angles c) = 6%nat)
    by (unfold edge_angles; now destruct (cell_orientation c)).
  destruct (nearest_fold n (edge_angles c)) as (d0 & a & Hfold & Hnth & Hmin & Hfirst).
  { intros E. rewrite E in Hlen. discriminate. }
  assert (Hd : d = Z.of_nat d0).
  { unfold d, nearest_direction_from_angle. fold n. now rewrite Hfold. }
  assert (Hd0 : (d0 < 6)%nat) by (rewrite <- Hlen; apply nth_error_Some; congruence).
  assert (Ha : 0 <= a < 360).
  { apply (hex_angles_range (cell_orientation c)).
    eapply nth_error_In. exact Hnth. }
  split; [lia |]. split; [| split].
  - exists a. split; [rewrite Hd; now apply getitem_nth |].
    assert (Hall : forall b, In b (edge_angles c) ->
                             angle_diff a n <= angle_diff b n).
    { intros b Hb. apply In_nth_error in Hb. destruct Hb as [j Hj].
      now apply (Hmin j). }
    split; [exact Hall |].
    split; [now apply angle_diff_circular |]. split.
    + destruct (hex_angles_cover (cell_orientation c) n Hn) as (b & Hb & H30).
      specialize (Hall b Hb). lia.
    + intros d' b Hd' Hb. apply getitem_nonneg in Hb; [| lia].
      apply (Hfirst (Z.to_nat d')); [lia | exact Hb].
  - unfold d, nearest_direction_from_angle.
    replace ((angle + 360) mod 360) with (angle mod 360); [reflexivity |].
    now rewrite <- (Z_mod_plus_full angle 1 360).
  - intros d' b Hd' Hb. unfold edge_angles in *.
    assert (H : d' = 0 \/ d' = 1 \/ d' = 2 \/ d' = 3 \/ d' = 4 \/ d' = 5) by lia.
    unfold nearest_direction_from_angle, edge_angles.
    destruct (cell_orientation c);
      destruct H as [->|[->|[->|[->|[->| ->]]]]];
      vm_compute in Hb; injection Hb as <-; vm_compute; reflexivity.
Qed.

End NearestDirection.

Lemma nearest_direction_is_nearest_witness :
  let c : HexCell unit := HexCell_init POINTY_TOP (mkHexPoint 0 0 0) (Int 1) None in
  nearest_direction_from_angle c 200 = 2
  /\ nearest_direction_from_angle c 210 = 2.
Proof.
  intros c. split; [reflexivity |].
  apply (proj2 (proj2 (proj2 (nearest_direction_is_nearest c 0))) 2 210);
    [lia | reflexivity].
Defined.

Lemma min_by_key_loop (key : Z -> result Z) (rest : list Z) :
  forall m km,
    key m = Ok km ->
    (forall y, In y rest -> exists ky, key y = Ok ky) ->
    exists m' km',
      for_each rest
        (fun y (st : Z * Z) =>
           ky <- key y ;; Ok (if ky <? snd st then (y, ky) else st))
        (m, km)
      = Ok (m', km')
      /\ key m' = Ok km'
      /\ (m' = m \/ In m' rest)
      /\ km' <= km
      /\ (forall y ky, In y rest -> key y = Ok ky -> km' <= ky).
Proof.
  induction rest as [|y rest IH]; intros m km Hm Hall.
  - exists m, km. cbn [for_each].
    split; [reflexivity |]. split; [exact Hm |]. split; [now left |].
    split; [lia |]. intros y ky [].
  - destruct (Hall y ltac:(now left)) as [ky Hy].
    cbn [for_each]. rewrite Hy. cbn [bind snd].
    assert (Hrest : forall z, In z rest -> exists kz, key z = Ok kz)
      by (intros z Hz; apply Hall; now right).
    destruct (Z.ltb_spec ky km) as [Hlt | Hge].
    + destruct (IH y ky Hy Hrest) as (m' & km' & Hloop & Hk & Hin & Hle & Hmin).
      exists m', km'. split; [exact Hloop |]. split; [exact Hk |].
      split; [right; destruct Hin; [now left | now right] |].
      split; [lia |].
      intros z kz [<- | Hz] Hkz; [| now apply (Hmin z)].
      assert (kz = ky) by congruence. lia.
    + destruct (IH m km Hm Hrest) as (m' & km' & Hloop & Hk & Hin & Hle & Hmin).
      exists m', km'. split; [exact Hloop |]. split; [exact Hk |].
      split; [destruct Hin; [now left | right; now right] |].
      split; [lia |].
      intros z kz [<- | Hz] Hkz; [| now apply (Hmin z)].
      assert (kz = ky) by congruence. lia.
Qed.

(** [min(items, key=key)] on a sequence that is not empty and whose keys
    can all be computed: an item whose key is least. *)
Lemma min_by_key_least (key : Z -> result Z) (items : list Z) :
  items <> [] ->
  (forall y, In y items -> exists ky, key y = Ok ky) ->
  exists m km,
    min_by_key key items = Ok m
    /\ In m items
    /\ key m = Ok km
    /\ (forall y ky, In y items -> key y = Ok ky -> km <= ky).
Proof.
  destruct items as [|x rest]; [congruence |]. intros _ Hall.
  destruct (Hall x ltac:(now left)) as [kx Hx].
  destruct (min_by_key_loop key rest x kx Hx) as (m & km & Hloop & Hk & Hin & Hle & Hmin).
  { intros y Hy. apply Hall. now right. }
  exists m, km. unfold min_by_key. rewrite Hx. cbn [bind].
  rewrite Hloop. cbn [bind fst].
  split; [reflexivity |]. split; [destruct Hin; [left; congruence | now right] |].
  split; [exact Hk |].
  intros y ky [<- | Hy] Hky; [| now apply (Hmin y)].
  assert (ky = kx) by congruence. lia.
Qed.

Section NearestCorner.
Context {Data : Type}.

Lemma direction_angles_corner (o : GridOrientation) (a : Z) :
  In a (direction_angles o) <-> In a (hex_angles (toggle o)).
Proof. destruct o; cbn [direction_angles hex_angles toggle In]; tauto. Qed.

(** X13: [nearest_corner_from_angle] returns one of the cell's corner angles,
    the angle itself and not a position: the one whose difference from the
    angle, taken in [0, 360) and without wrap-around, is least.  On a
    flat-topped cell that corner is also the nearest on the circle; on a
    pointy-topped cell every angle above 330 gives the corner at 300, more
    than 30 degrees away, and not the corner at 0, less than 30 degrees
    away. *)
Theorem nearest_corner_is_linear (c : HexCell Data) (angle : Z) :
  let n := angle mod 360 in
  exists a,
    nearest_corner_from_angle c angle = Ok a
    /\ In a (corner_angles c)
    /\ (forall b, In b (corner_angles c) -> Z.abs (a - n) <= Z.abs (b - n))
    /\ (cell_orientation c = FLAT_TOP ->
        forall b, In b (corner_angles c) -> angle_diff a n <= angle_diff b n)
    /\ (cell_orientation c = POINTY_TOP -> 330 < n ->
        a = 300 /\ angle_diff 0 n < 30 < angle_diff a n).
Proof.
  intros n.
  assert (Hn : 0 <= n < 360) by (apply Z.mod_pos_bound; lia).
  set (angles := direction_angles (cell_orientation c)).
  assert (Hlen : length angles = 6%nat)
    by (unfold angles; now destruct (cell_orientation c)).
  set (key := fun i => a <- getitem angles i ;; Ok (Z.abs (a - n))).
  assert (Hkey : forall i, In i (range 6) ->
                           exists a, nth_error angles (Z.to_nat i) = Some a
                                     /\ getitem angles i = Ok a
                                     /\ key i = Ok (Z.abs (a - n))).
  { intros i Hi. apply range_In in Hi.
    destruct (nth_error angles (Z.to_nat i)) as [a |] eqn:E.
    - exists a. split; [reflexivity |].
      assert (G : getitem angles i = Ok a).
      { rewrite <- (Z2Nat.id i) by lia. now apply getitem_nth. }
      split; [exact G |]. unfold key. now rewrite G.
    - apply nth_error_None in E. lia. }
  destruct (min_by_key_least key (range 6)) as (idx & km & Hmin & Hin & Hk & Hleast).
  { discriminate. }
  { intros i Hi. destruct (Hkey i Hi) as (a & _ & _ & Ha). eauto. }
  destruct (Hkey idx Hin) as (a & Hnth & Hget & Hka).
  assert (km = Z.abs (a - n)) by congruence. subst km.
  assert (Hlin : forall b, In b angles -> Z.abs (a - n) <= Z.abs (b - n)).
  { intros b Hb. apply In_nth_error in Hb. destruct Hb as [j Hj].
    assert (Hjlt : (j < 6)%nat) by (rewrite <- Hlen; apply nth_error_Some; congruence).
    assert (Hjin : In (Z.of_nat j) (range 6)) by (apply range_In; lia).
    destruct (Hkey _ Hjin) as (b' & Hb' & _ & Hkb).
    rewrite Nat2Z.id in Hb'. assert (b' = b) by congruence. subst b'.
    now apply (Hleast (Z.of_nat j)). }
  assert (Hain : In a angles) by (eapply nth_error_In; exact Hnth).
  exists a. split.
  { unfold nearest_corner_from_angle. fold n. fold angles. fold key.
    rewrite Hmin. cbn [bind]. exact Hget. }
  split; [now apply direction_angles_corner |].
  split; [intros b Hb; apply Hlin; now apply direction_angles_corner |].
  split.
  - intros Ho b Hb. apply direction_angles_corner in Hb. fold angles in Hb.
    unfold angles in *. rewrite Ho in *. cbn [direction_angles In] in *.
    assert (H30 : Z.abs (a - n) <= 30).
    { assert (H : n <= 60 \/ 60 < n <= 120 \/ 120 < n <= 180 \/ 180 < n <= 240
                  \/ 240 < n <= 300 \/ 300 < n) by lia.
      destruct H as [H|[H|[H|[H|[H|H]]]]];
        [pose proof (Hlin 30) | pose proof (Hlin 90) | pose proof (Hlin 150)
         | pose proof (Hlin 210) | pose proof (Hlin 270)
         | pose proof (Hlin 330)]; cbn [In] in *; lia. }
    unfold angle_diff. lia.
  - intros Ho Hbig. unfold angles in *. rewrite Ho in *.
    cbn [direction_angles In] in *.
    pose proof (Hlin 300 ltac:(tauto)). unfold angle_diff. lia.
Qed.

End NearestCorner.

Lemma nearest_corner_is_linear_witness :
  let c : HexCell unit := HexCell_init POINTY_TOP (mkHexPoint 0 0 0) (Int 1) None in
  exists a, nearest_corner_from_angle c 350 = Ok a /\ a = 300.
Proof.
  intros c.
  destruct (nearest_corner_is_linear c 350) as (a & Ha & _ & _ & _ & Hp).
  exists a. split; [exact Ha |]. apply Hp; [reflexivity | reflexivity].
Defined.

(** ** The caches of a cell *)

Section CellCaches.
Context {Data : Type}.

(** X14: The [size] getter caches: whatever it returns it returns again, from a
    cell that the second read leaves as it is; the first read changes
    nothing but the cached size.  On a cell without a cached size the width
    and the height are [sqrt(3) * radius] and [2 * radius] when the cell is
    pointy-topped and the other way round when it is flat-topped; an [int]
    radius gives the [int] [2 * radius]. *)
Theorem HexCell_size_cached (c : HexCell Data) :
  (forall sz c', HexCell_size c = (Ok sz, c') ->
                 HexCell_size c' = (Ok sz, c') /\ c' = set_size sz c)
  /\ (Size_bool (cell_size c) = false ->
      forall sz c', HexCell_size c = (Ok sz, c') ->
        let '(short, long) :=
          match cell_orientation c with
          | POINTY_TOP => (width sz, height sz)
          | FLAT_TOP => (height sz, width sz)
          end in
        Num.mul (Float sqrt3) (cell_radius c) = Ok short
        /\ Num.mul (Int 2) (cell_radius c) = Ok long
        /\ forall z, cell_radius c = Int z -> long = Int (2 * z))
  /\ (forall z, cell_radius c = Int z -> Z.abs z < 2 ^ 1000 ->
                exists sz c', HexCell_size c = (Ok sz, c')).
Proof.
  split; [| split].
  - intros sz c' H. unfold HexCell_size in H.
    destruct (Size_bool (cell_size c)) eqn:Eb; cbn [negb] in H.
    + injection H as <- <-. split.
      * unfold HexCell_size. now rewrite Eb.
      * now destruct c.
    + destruct (Num.mul (Int 2) (cell_radius c)) as [size_long |] eqn:El;
        [| discriminate].
      destruct (Num.mul (Float sqrt3) (cell_radius c)) as [size_short |] eqn:Es;
        [| discriminate].
      injection H as <- <-. split; [| reflexivity].
      unfold HexCell_size. cbn [set_size cell_size cell_radius cell_orientation].
      rewrite El, Es.
      destruct (negb (Size_bool _)); reflexivity.
  - intros Eb sz c' H. unfold HexCell_size in H. rewrite Eb in H.
    cbn [negb] in H.
    destruct (Num.mul (Int 2) (cell_radius c)) as [size_long |] eqn:El;
      [| discriminate].
    destruct (Num.mul (Float sqrt3) (cell_radius c)) as [size_short |] eqn:Es;
      [| discriminate].
    injection H as <- _.
    destruct (cell_orientation c); cbn [width height];
      (split; [reflexivity |]; split; [reflexivity |]);
      intros z Hz; rewrite Hz in El; cbn [Num.mul] in El; congruence.
  - intros z Hz Hb. unfold HexCell_size.
    destruct (negb (Size_bool (cell_size c))); [| eauto].
    rewrite Hz. cbn [Num.mul as_float bind]. unfold of_int.
    assert (Hlt : Z.abs z < overflow_threshold).
    { assert (2 ^ 1000 < overflow_threshold)
        by (apply Z.ltb_lt; vm_compute; reflexivity).
      lia. }
    apply Z.ltb_lt in Hlt. rewrite Hlt. cbn [bind]. eauto.
Qed.

(** X15: The [pixel_xy] getter caches, and only [clearcache] empties the cache:
    once it has returned a position it returns that position again, also
    after the [point] setter has moved the cell; after [clearcache] it
    computes the position of the point the cell has now. *)
Theorem HexCell_pixel_xy_stale (c c' : HexCell Data) (v : num * num) :
  HexCell_pixel_xy c = (Ok v, c') ->
  HexCell_pixel_xy c' = (Ok v, c')
  /\ (forall p, HexCell_pixel_xy (set_point p c') = (Ok v, set_point p c'))
  /\ (forall d, HexCell_pixel_xy (set_data d c') = (Ok v, set_data d c'))
  /\ (forall p v',
         pixel_center (cell_orientation c) (cell_radius c) p = Ok v' ->
         HexCell_pixel_xy (clearcache (set_point p c'))
         = (Ok v', set_pixel_xy (Some v') (set_point p c'))).
Proof.
  intros H.
  assert (Hc : cell_pixel_xy c' = Some v
               /\ cell_orientation c' = cell_orientation c
               /\ cell_radius c' = cell_radius c).
  { unfold HexCell_pixel_xy in H. destruct (cell_pixel_xy c) as [v0 |] eqn:E.
    - injection H as <- <-. auto.
    - destruct (pixel_center _ _ _); [| discriminate].
      injection H as <- <-. auto. }
  destruct Hc as (Hv & Ho & Hr).
  split; [| split; [| split]].
  - unfold HexCell_pixel_xy. now rewrite Hv.
  - intros p. unfold HexCell_pixel_xy. cbn [set_point cell_pixel_xy].
    now rewrite Hv.
  - intros d. unfold HexCell_pixel_xy. cbn [set_data cell_pixel_xy].
    now rewrite Hv.
  - intros p v' Hp. unfold HexCell_pixel_xy.
    cbn [clearcache set_point cell_pixel_xy cell_orientation cell_radius
           cell_point].
    rewrite Ho, Hr, Hp. reflexivity.
Qed.

(** X16: [neighbors] raises TypeError on every cell: it adds a direction to
    the cell itself, and a cell has no [+].  With the operands the other
    way round the sum exists, [HexPoint.__add__] reading [q], [r] and [s] of
    the cell, and is the neighbour of the cell's point that [cube_neighbor]
    returns for that direction. *)
Theorem HexCell_neighbors_raises (c : HexCell Data) :
  HexCell_neighbors c = Raise TypeError
  /\ (forall i direction,
         0 <= i <= 5 -> getitem CUBE_DIRECTIONS i = Ok direction ->
         py_add (OCell c) (OPoint direction) = Raise TypeError
         /\ py_add (OPoint direction) (OCell c)
            = cube_neighbor (cell_point c) i).
Proof.
  split; [reflexivity |].
  intros i direction Hi Hd. split; [reflexivity |].
  unfold cube_neighbor. rewrite Hd. cbn [py_add bind]. f_equal.
  apply HexPoint_ext; unfold HexPoint_add; cbn [q r s]; lia.
Qed.

End CellCaches.

Lemma HexCell_neighbors_raises_witness :
  let c : HexCell unit :=
    HexCell_init POINTY_TOP (mkHexPoint 2 (-3) 1) (Int 1) None in
  HexCell_neighbors c = Raise TypeError
  /\ py_add (OPoint (mkHexPoint 0 (-1) 1)) (OCell c)
     = Ok (mkHexPoint 2 (-4) 2).
Proof.
  intros c. split.
  - apply (proj1 (HexCell_neighbors_raises c)).
  - destruct (proj2 (HexCell_neighbors_raises c) 4 (mkHexPoint 0 (-1) 1)
                ltac:(lia) eq_refl) as [_ H].
    rewrite H. reflexivity.
Defined.

Lemma HexCell_size_cached_witness :
  let c : HexCell unit := HexCell_init FLAT_TOP (mkHexPoint 0 0 0) (Int 50) None in
  exists sz c', HexCell_size c = (Ok sz, c') /\ width sz = Int 100
                /\ HexCell_size c' = (Ok sz, c').
Proof.
  intros c.
  destruct (HexCell_size_cached c) as (Hcache & Hfresh & Htotal).
  destruct (Htotal 50 eq_refl) as (sz & c' & H).
  { apply Z.ltb_lt. vm_compute. reflexivity. }
  exists sz, c'. split; [exact H |]. split.
  - pose proof (Hfresh eq_refl sz c' H) as Hf. cbn in Hf.
    destruct Hf as (_ & _ & Hz). apply (Hz 50 eq_refl).
  - apply (Hcache sz c' H).
Defined.

Lemma HexCell_pixel_xy_stale_witness :
  let c : HexCell unit :=
    HexCell_init POINTY_TOP (mkHexPoint 0 0 0) (Int 1) None in
  exists v c',
    HexCell_pixel_xy c = (Ok v, c')
    /\ HexCell_pixel_xy (set_point (mkHexPoint 0 2 (-2)) c')
       = (Ok v, set_point (mkHexPoint 0 2 (-2)) c').
Proof.
  intros c.
  assert (E : exists v c', HexCell_pixel_xy c = (Ok v, c'))
    by (vm_compute; eauto).
  destruct E as (v & c' & E). exists v, c'. split; [exact E |].
  apply (proj1 (proj2 (HexCell_pixel_xy_stale c c' v E))).
Defined.

(** ** set, get, remove *)

Section MapLaws.
Context {Data : Type}.

Lemma dict_get_set k p (c : HexCell Data) g :
  dict_get k (dict_set p c g) = if HexPoint_eqb k p then Some c else dict_get k g.
Proof.
  induction g as [|[k' c'] g IH]; cbn [dict_set dict_get].
  - destruct (HexPoint_eqb k p); reflexivity.
  - destruct (HexPoint_eqb p k') eqn:E; cbn [dict_get].
    + apply HexPoint_eqb_eq in E. subst k'.
      destruct (HexPoint_eqb k p); reflexivity.
    + rewrite IH. destruct (HexPoint_eqb k k') eqn:E'; [| reflexivity].
      apply HexPoint_eqb_eq in E'. subst k'.
      destruct (HexPoint_eqb k p) eqn:E''; [| reflexivity].
      apply HexPoint_eqb_eq in E''. subst k.
      rewrite HexPoint_eqb_refl in E. discriminate.
Qed.

Lemma dict_set_present k (c : HexCell Data) g :
  dict_contains k g = true ->
  map fst (dict_set k c g) = map fst g /\ length (dict_set k c g) = length g.
Proof.
  induction g as [|[k' c'] g IH]; cbn [dict_contains existsb dict_set fst];
    [discriminate |].
  destruct (HexPoint_eqb k k') eqn:E; cbn [orb map fst length].
  - intros _. split; reflexivity.
  - intros H. destruct (IH H) as [-> ->]. split; reflexivity.
Qed.

Lemma dict_contains_keys k (g : dict Data) :
  dict_contains k g = true <-> In k (map fst g).
Proof.
  unfold dict_contains. rewrite existsb_exists, in_map_iff. split.
  - intros (kv & Hin & E). apply HexPoint_eqb_eq in E. exists kv. now split.
  - intros (kv & E & Hin). exists kv. split; [exact Hin |].
    rewrite E. apply HexPoint_eqb_refl.
Qed.

Lemma dict_get_pop_other k p (g : dict Data) :
  k <> p -> dict_get k (dict_pop p g) = dict_get k g.
Proof.
  intros Hk. induction g as [|[k' c'] g IH]; cbn [dict_pop dict_get];
    [reflexivity |].
  destruct (HexPoint_eqb p k') eqn:E; cbn [dict_get].
  - apply HexPoint_eqb_eq in E. subst k'.
    apply HexPoint_eqb_neq in Hk. now rewrite Hk.
  - now rewrite IH.
Qed.

Lemma dict_pop_absent p (g : dict Data) :
  dict_contains p g = false -> dict_pop p g = g.
Proof.
  induction g as [|[k' c'] g IH]; cbn [dict_contains existsb dict_pop fst];
    [reflexivity |].
  destruct (HexPoint_eqb p k'); cbn [orb]; [discriminate |].
  intros H. now rewrite (IH H).
Qed.

Lemma dict_pop_In p (g : dict Data) kv :
  In kv (dict_pop p g) -> In kv g.
Proof.
  induction g as [|[k' c'] g IH]; cbn [dict_pop]; [contradiction |].
  destruct (HexPoint_eqb p k'); cbn [In]; tauto.
Qed.

Lemma dict_pop_keys p (g : dict Data) :
  NoDup (map fst g) ->
  NoDup (map fst (dict_pop p g)) /\ ~ In p (map fst (dict_pop p g)).
Proof.
  induction g as [|[k' c'] g IH]; cbn [dict_pop map fst]; intros Hnd.
  - split; [constructor | intros []].
  - inversion Hnd as [| ? ? Hk Hg]; subst.
    destruct (HexPoint_eqb p k') eqn:E.
    + apply HexPoint_eqb_eq in E. subst k'. now split.
    + destruct (IH Hg) as [Hnd' Hp]. cbn [map fst]. split.
      * constructor; [| exact Hnd'].
        intros Hin. apply Hk. apply in_map_iff in Hin.
        destruct Hin as (kv & <- & Hin). apply in_map.
        eapply dict_pop_In. exact Hin.
      * intros [<- | Hin]; [| contradiction].
        rewrite HexPoint_eqb_refl in E. discriminate.
Qed.

Lemma dict_pop_length p (g : dict Data) :
  dict_contains p g = true -> S (length (dict_pop p g)) = length g.
Proof.
  induction g as [|[k' c'] g IH]; cbn [dict_contains existsb dict_pop fst];
    [discriminate |].
  destruct (HexPoint_eqb p k'); cbn [orb length]; [reflexivity |].
  intros H. now rewrite (IH H).
Qed.

Lemma dict_pop_new p (c : HexCell Data) (g : dict Data) :
  dict_contains p g = false -> dict_pop p (g ++ [(p, c)]) = g.
Proof.
  induction g as [|[k' c'] g IH];
    cbn [dict_contains existsb fst app dict_pop].
  - now rewrite HexPoint_eqb_refl.
  - destruct (HexPoint_eqb p k'); cbn [orb]; [discriminate |].
    intros H. now rewrite (IH H).
Qed.

(** X17: [set] stores under the point a new cell with the map's orientation and
    radius, the point, the payload and empty caches, and returns it; [get]
    then returns that cell.  Of a cell passed as [data] only the payload is
    taken.  Every other point is held, or not, as before, with the cell it
    had; a point the map held keeps its place in the iteration order, a
    new point goes last, and the length grows by one only then. *)
Theorem HexMap_set_get (m : HexMap Data) (point : HexPoint)
    (data : set_arg Data) :
  let c := HexCell_init (map_orientation m) point (map_radius m)
             (payload data) in
  let m' := snd (HexMap_set point data m) in
  HexMap_set point data m = (Ok c, m')
  /\ m' = with_grid (map_grid m') m
  /\ HexMap_get point m' = (Ok c, m')
  /\ HexMap_contains m' point = true
  /\ (forall k, k <> point ->
                dict_get k (map_grid m') = dict_get k (map_grid m)
                /\ HexMap_contains m' k = HexMap_contains m k)
  /\ map fst (map_grid m')
     = (if HexMap_contains m point then map fst (map_grid m)
        else map fst (map_grid m) ++ [point])
  /\ HexMap_len m'
     = HexMap_len m + (if HexMap_contains m point then 0 else 1).
Proof.
  intros c m'.
  assert (Hm' : m' = with_grid (dict_set point c (map_grid m)) m)
    by (unfold m', c, HexMap_set; now destruct data).
  assert (Hget : forall k, dict_get k (map_grid m')
                           = if HexPoint_eqb k point then Some c
                             else dict_get k (map_grid m)).
  { intros k. rewrite Hm', with_grid_grid. apply dict_get_set. }
  split; [unfold m', c, HexMap_set; now destruct data |].
  split; [now rewrite Hm' |].
  split; [apply HexMap_get_found; now rewrite Hget, HexPoint_eqb_refl |].
  split.
  { unfold HexMap_contains. apply dict_contains_get. exists c.
    now rewrite Hget, HexPoint_eqb_refl. }
  split.
  { intros k Hk. apply HexPoint_eqb_neq in Hk.
    assert (E : dict_get k (map_grid m') = dict_get k (map_grid m))
      by (now rewrite Hget, Hk).
    split; [exact E |]. unfold HexMap_contains.
    destruct (dict_contains k (map_grid m)) eqn:Ec.
    - apply dict_contains_get. rewrite E. now apply dict_contains_get.
    - apply dict_contains_false. rewrite E. now apply dict_contains_false. }
  unfold HexMap_len, HexMap_contains. rewrite Hm', with_grid_grid.
  destruct (dict_contains point (map_grid m)) eqn:Ec.
  - destruct (dict_set_present point c _ Ec) as [-> ->]. split; [reflexivity | lia].
  - rewrite (dict_set_absent _ _ _ Ec), map_app, length_app. cbn [map fst length].
    split; [reflexivity | lia].
Qed.

(** X18: [get] raises KeyError exactly on the points the map does not hold, and
    leaves the map as it is.  [remove] never raises: on a point the map
    does not hold it changes nothing, otherwise the point is gone, [get]
    raises KeyError on it and the length is one less; the other points keep
    their cells.  [remove] after [set] of a new point gives the map back. *)
Theorem HexMap_get_remove (m : HexMap Data) (point : HexPoint) :
  let m' := snd (HexMap_remove point m) in
  (HexMap_contains m point = false
   <-> HexMap_get point m = (Raise KeyError, m))
  /\ HexMap_remove point m = (Ok tt, m')
  /\ (HexMap_contains m point = false -> m' = m)
  /\ (forall k, k <> point ->
                dict_get k (map_grid m') = dict_get k (map_grid m))
  /\ (HexMap_contains m point = true -> HexMap_len m' = HexMap_len m - 1)
  /\ (NoDup (map fst (map_grid m)) ->
      HexMap_contains m' point = false
      /\ HexMap_get point m' = (Raise KeyError, m'))
  /\ (HexMap_contains m point = false ->
      forall data,
        snd (HexMap_remove point (snd (HexMap_set point data m))) = m).
Proof.
  intros m'.
  assert (Hkey : forall m0 : HexMap Data,
             HexMap_contains m0 point = false
             <-> HexMap_get point m0 = (Raise KeyError, m0)).
  { intros m0. unfold HexMap_contains, HexMap_get.
    rewrite dict_contains_false.
    destruct (dict_get point (map_grid m0)); split; congruence. }
  split; [apply Hkey |]. split; [reflexivity |]. split.
  { intros H. unfold m', HexMap_remove. cbn [snd].
    rewrite dict_pop_absent by exact H. apply with_grid_same. }
  split; [intros k Hk; now apply dict_get_pop_other |]. split.
  { intros H. unfold HexMap_len, m', HexMap_remove. cbn [snd].
    rewrite with_grid_grid. pose proof (dict_pop_length point _ H). lia. }
  split.
  { intros Hnd.
    assert (Hc : HexMap_contains m' point = false).
    { unfold HexMap_contains, m', HexMap_remove. cbn [snd].
      rewrite with_grid_grid.
      destruct (dict_contains point (dict_pop point (map_grid m))) eqn:E;
        [| reflexivity].
      apply dict_contains_keys in E.
      now destruct (proj2 (dict_pop_keys point _ Hnd)). }
    split; [exact Hc | now apply Hkey]. }
  intros H data. unfold HexMap_remove, HexMap_set. cbn [snd].
  rewrite with_grid_grid, with_grid_twice, (dict_set_absent _ _ _ H).
  rewrite dict_pop_new by exact H. apply with_grid_same.
Qed.

End MapLaws.

Lemma HexMap_set_get_witness :
  let m : HexMap nat := HexMap_init (Int 100) POINTY_TOP in
  let m' := snd (HexMap_set (mkHexPoint 1 0 (-1)) (Payload (Some 7%nat)) m) in
  dict_get (mkHexPoint 0 0 0) (map_grid m') = dict_get (mkHexPoint 0 0 0) (map_grid m)
  /\ HexMap_len m' = 1.
Proof.
  intros m m'.
  destruct (HexMap_set_get m (mkHexPoint 1 0 (-1)) (Payload (Some 7%nat)))
    as (_ & _ & _ & _ & Hother & _ & Hlen).
  split.
  - apply Hother. discriminate.
  - exact Hlen.
Defined.

Lemma HexMap_get_remove_witness :
  let m : HexMap nat :=
    snd (HexMap_set (mkHexPoint 1 0 (-1)) (Payload (Some 7%nat))
           (HexMap_init (Int 100) POINTY_TOP)) in
  HexMap_len (snd (HexMap_remove (mkHexPoint 1 0 (-1)) m)) = 0
  /\ snd (HexMap_remove (mkHexPoint 2 0 (-2)) m) = m.
Proof.
  intros m. split.
  - apply (proj1 (proj2 (proj2 (proj2 (proj2
             (HexMap_get_remove m (mkHexPoint 1 0 (-1)))))))).
    reflexivity.
  - apply (proj1 (proj2 (proj2 (HexMap_get_remove m (mkHexPoint 2 0 (-2)))))).
    reflexivity.
Defined.

(** ** The grid under the map's methods *)

Lemma for_each_st_preserves {S A} (P : S -> Prop) (body : A -> M S unit)
    (l : list A) :
  (forall x st, P st -> P (snd (body x st))) ->
  forall st, P st -> P (snd (for_each_st l body st)).
Proof.
  intros Hbody. induction l as [|x l IH]; intros st Hst; cbn [for_each_st].
  - exact Hst.
  - unfold bind_st. specialize (Hbody x st Hst).
    destruct (body x st) as [[[] | e] st']; cbn [snd] in *.
    + now apply IH.
    + exact Hbody.
Qed.

Lemma bind_st_preserves {S A B} (P : S -> Prop) (c : M S A)
    (k : A -> M S B) (st : S) :
  P (snd (c st)) -> (forall a st', P st' -> P (snd (k a st'))) ->
  P (snd (bind_st c k st)).
Proof.
  intros Hc Hk. unfold bind_st. destruct (c st) as [[a | e] st']; cbn [snd] in *.
  - now apply Hk.
  - exact Hc.
Qed.

Section GridInvariant.
Context {Data : Type}.

Lemma dict_set_In k (c : HexCell Data) g kv :
  In kv (dict_set k c g) -> kv = (k, c) \/ In kv g.
Proof.
  induction g as [|[k' c'] g IH]; cbn [dict_set].
  - intros [<- | []]. now left.
  - destruct (HexPoint_eqb k k') eqn:E; cbn [In].
    + apply HexPoint_eqb_eq in E. subst k'. intros [<- | H]; auto.
    + intros [<- | H]; auto. destruct (IH H); auto.
Qed.

Lemma dict_update_In k (f : HexCell Data -> HexCell Data) g k0 c :
  In (k0, c) (dict_update k f g) ->
  In (k0, c) g \/ exists c0, In (k0, c0) g /\ c = f c0.
Proof.
  induction g as [|[k' c'] g IH]; cbn [dict_update]; [contradiction |].
  destruct (HexPoint_eqb k k'); cbn [In].
  - intros [E | H]; [| auto]. injection E as <- <-. right. eauto.
  - intros [E | H]; [auto |]. destruct (IH H) as [? | (c0 & ? & ?)]; eauto.
Qed.

Lemma grid_ok_set (m : HexMap Data) point data :
  grid_ok m -> grid_ok (snd (HexMap_set point data m)).
Proof.
  intros [Hnd Hcells]. unfold HexMap_set. cbn [snd].
  set (c := HexCell_init _ _ _ _). split.
  - rewrite with_grid_grid.
    destruct (dict_contains point (map_grid m)) eqn:Ec.
    + now rewrite (proj1 (dict_set_present point c _ Ec)).
    + rewrite (dict_set_absent _ _ _ Ec), map_app. cbn [map fst].
      apply NoDup_app; [exact Hnd | repeat constructor; intros [] |].
      intros k Hk [<- | []]. apply dict_contains_keys in Hk. congruence.
  - intros k c0 Hin. rewrite with_grid_grid in Hin.
    apply dict_set_In in Hin. destruct Hin as [E | Hin].
    + injection E as Hk Hc. rewrite Hk, Hc. unfold c. repeat split.
    + now apply Hcells.
Qed.

Lemma grid_ok_remove (m : HexMap Data) point :
  grid_ok m -> grid_ok (snd (HexMap_remove point m)).
Proof.
  intros [Hnd Hcells]. unfold HexMap_remove. cbn [snd]. split.
  - rewrite with_grid_grid. now apply dict_pop_keys.
  - intros k c Hin. rewrite with_grid_grid in Hin.
    apply dict_pop_In in Hin. now apply Hcells.
Qed.

Lemma grid_ok_mutate (m : HexMap Data) point f :
  keeps_place f -> grid_ok m -> grid_ok (snd (mutate_cell point f m)).
Proof.
  intros Hf [Hnd Hcells]. unfold mutate_cell. cbn [snd]. split.
  - now rewrite with_grid_grid, dict_update_keys.
  - intros k c Hin. rewrite with_grid_grid in Hin.
    apply dict_update_In in Hin.
    destruct Hin as [Hin | (c0 & Hin & ->)]; [now apply Hcells |].
    destruct (Hf c0) as (-> & -> & ->). now apply Hcells.
Qed.

Lemma grid_ok_swap (m : HexMap Data) point1 point2 :
  grid_ok m -> grid_ok (snd (swap point1 point2 m)).
Proof.
  intros Hok. unfold swap.
  destruct (negb (HexMap_contains m point1) || negb (HexMap_contains m point2));
    [exact Hok |].
  assert (Hget : forall p (m0 : HexMap Data),
             grid_ok m0 -> grid_ok (snd (HexMap_get p m0))).
  { intros p m0 H0. unfold HexMap_get.
    now destruct (dict_get p (map_grid m0)). }
  assert (Hdata : forall d : option Data, keeps_place (set_data d))
    by (intros d c; repeat split).
  assert (Hclear : keeps_place (clearcache (Data := Data)))
    by (intros c; repeat split).
  apply bind_st_preserves; [now apply Hget |]. intros c2 m1 H1.
  apply bind_st_preserves; [now apply Hget |]. intros c1 m2 H2.
  apply bind_st_preserves; [now apply grid_ok_mutate |]. intros _ m3 H3.
  apply bind_st_preserves; [now apply grid_ok_mutate |]. intros _ m4 H4.
  apply bind_st_preserves; [now apply grid_ok_mutate |]. intros _ m5 H5.
  now apply grid_ok_mutate.
Qed.

Lemma grid_ok_fill (m : HexMap Data) radius :
  grid_ok m -> grid_ok (snd (fill_to_radius radius m)).
Proof.
  unfold fill_to_radius. apply for_each_st_preserves. clear m.
  intros i m Hok. unfold fill_ring.
  apply bind_st_preserves; [exact Hok |]. intros ring m1 H1.
  apply for_each_st_preserves; [| exact H1]. clear.
  intros p m Hok. unfold fill_point.
  destruct (negb (HexMap_contains m p)); [| exact Hok].
  apply bind_st_preserves; [now apply grid_ok_set |]. intros _ m1 H1. exact H1.
Qed.

Lemma same_cells_size (m : HexMap Data) : same_cells m (snd (HexMap_size m)).
Proof.
  unfold HexMap_size. destruct (HexCell_size (map_reference m)).
  repeat split.
Qed.

Lemma same_cells_bind {A B} (c : M (HexMap Data) A)
    (k : A -> M (HexMap Data) B) :
  (forall m, same_cells m (snd (c m))) ->
  (forall a m, same_cells m (snd (k a m))) ->
  forall m, same_cells m (snd (bind_st c k m)).
Proof.
  intros Hc Hk m. unfold bind_st. specialize (Hc m).
  destruct (c m) as [[a | e] m1]; cbn [snd] in *; [| exact Hc].
  specialize (Hk a m1). destruct Hc as (Hg & Ho & Hr).
  destruct Hk as (Hg' & Ho' & Hr'). repeat split; congruence.
Qed.

Lemma same_cells_lift {A} (c : result A) (m : HexMap Data) :
  same_cells m (snd (lift_st c m)).
Proof. repeat split. Qed.

Lemma same_cells_assign f v (m : HexMap Data) :
  same_cells m (snd (assign_spacing f v m)).
Proof. repeat split. Qed.

Lemma same_cells_spacing (m : HexMap Data) : same_cells m (snd (spacing m)).
Proof.
  unfold spacing. destruct (negb (Size_bool (map_spacing m)));
    [| repeat split].
  revert m. apply same_cells_bind; [| intros; repeat split].
  intros m. destruct (map_orientation m); revert m;
    unfold HexMap_width, HexMap_height;
    repeat (apply same_cells_bind; [| intros ?]);
    intros m; try apply same_cells_size; try apply same_cells_assign;
    try apply same_cells_lift; repeat split.
Qed.

Lemma same_cells_pixel_to_hex x y (m : HexMap Data) :
  same_cells m (snd (pixel_to_hex x y m)).
Proof.
  unfold pixel_to_hex. 
  apply (same_cells_bind _ _ (fun m0 => same_cells_lift _ m0)). intros x' m1.
  apply (same_cells_bind _ _ (fun m0 => same_cells_lift _ m0)). intros y' m2.
  destruct (map_orientation m); [apply same_cells_lift |].
  unfold _pixel_to_flat_hex. revert m2.
  repeat (apply same_cells_bind; [| intros ?]);
    intros m0; try apply same_cells_size; apply same_cells_lift.
Qed.

Lemma grid_ok_same (m m' : HexMap Data) :
  same_cells m m' -> grid_ok m -> grid_ok m'.
Proof.
  intros (Hg & Ho & Hr) [Hnd Hcells]. unfold grid_ok.
  rewrite Hg, Ho, Hr. now split.
Qed.

(** X19: The grid of a map stays well formed under the map's own methods,
    whether they return or raise: no point is held twice, every cell is
    stored under its own point and has the orientation and the radius of
    the map, which never change.  So it is on every map made by
    [HexMap(radius, orientation)] and used through [set], [get], [remove],
    [swap], [fill_to_radius], [size], [spacing] and [pixel_to_hex]. *)
Theorem grid_invariant :
  (forall (call : map_call Data) (m : HexMap Data),
      grid_ok m ->
      grid_ok (after_call call m)
      /\ map_orientation (after_call call m) = map_orientation m
      /\ map_radius (after_call call m) = map_radius m)
  /\ (forall radius o (calls : list (map_call Data)),
         let m := after_calls calls (HexMap_init radius o) in
         grid_ok m /\ map_orientation m = o /\ map_radius m = radius).
Proof.
  assert (Hfix : forall (call : map_call Data) (m : HexMap Data),
             map_orientation (after_call call m) = map_orientation m
             /\ map_radius (after_call call m) = map_radius m).
  { intros call m. destruct call; cbn [after_call].
    - split; reflexivity.
    - unfold HexMap_get. now destruct (dict_get point (map_grid m)).
    - split; reflexivity.
    - unfold swap.
      destruct (negb (HexMap_contains m point1)
                || negb (HexMap_contains m point2)); [now split |].
      unfold bind_st, HexMap_get.
      destruct (dict_get point2 (map_grid m)); [| now split].
      destruct (dict_get point1 (map_grid m)); now split.
    - unfold fill_to_radius.
      apply (for_each_st_preserves
               (fun m' => map_orientation m' = map_orientation m
                          /\ map_radius m' = map_radius m));
        [| now split].
      intros i m1 H1. unfold fill_ring.
      apply bind_st_preserves; [exact H1 |]. intros ring m2 H2.
      apply for_each_st_preserves; [| exact H2].
      intros p m3 H3. unfold fill_point.
      destruct (negb (HexMap_contains m3 p)); exact H3.
    - apply same_cells_size.
    - apply same_cells_spacing.
    - apply same_cells_pixel_to_hex. }
  assert (Hstep : forall (call : map_call Data) (m : HexMap Data),
             grid_ok m -> grid_ok (after_call call m)).
  { intros call m Hok. destruct call; cbn [after_call].
    - now apply grid_ok_set.
    - unfold HexMap_get. now destruct (dict_get point (map_grid m)).
    - now apply grid_ok_remove.
    - now apply grid_ok_swap.
    - now apply grid_ok_fill.
    - eapply grid_ok_same; [apply same_cells_size | exact Hok].
    - eapply grid_ok_same; [apply same_cells_spacing | exact Hok].
    - eapply grid_ok_same; [apply same_cells_pixel_to_hex | exact Hok]. }
  split.
  - intros call m Hok. split; [now apply Hstep | apply Hfix].
  - intros radius o calls.
    assert (H0 : grid_ok (HexMap_init radius o : HexMap Data)
                 /\ map_orientation (HexMap_init radius o : HexMap Data) = o
                 /\ map_radius (HexMap_init radius o : HexMap Data) = radius).
    { split; [| now split]. split; [constructor | intros k c []]. }
    revert H0. generalize (HexMap_init radius o : HexMap Data) as m0.
    unfold after_calls. induction calls as [|call calls IH]; intros m0 H0.
    + exact H0.
    + cbn [fold_left]. apply IH.
      destruct H0 as (Hok & Ho & Hr). destruct (Hfix call m0) as [Ho' Hr'].
      split; [now apply Hstep |]. split; congruence.
Qed.

End GridInvariant.

Lemma grid_invariant_witness :
  let m : HexMap nat :=
    after_calls [CallFill 2; CallSwap (mkHexPoint 0 0 0) (mkHexPoint 1 0 (-1));
                 CallRemove (mkHexPoint 0 0 0)]
      (HexMap_init (Int 100) FLAT_TOP) in
  grid_ok (after_call (CallSet (mkHexPoint 0 0 0) (Payload (Some 3%nat))) m).
Proof.
  intros m.
  apply (proj1 grid_invariant
           (CallSet (mkHexPoint 0 0 0) (Payload (Some 3%nat))) m).
  apply (proj2 grid_invariant (Int 100) FLAT_TOP).
Defined.

(** ** swap and fill_to_radius, twice *)

Section SwapTwice.
Context {Data : Type}.

Lemma clearcache_set_data (d : option Data) (c : HexCell Data) :
  cell_data (clearcache (set_data d c)) = d.
Proof. reflexivity. Qed.

(** The cells after a [swap] of two points the map holds. *)
Lemma swap_cells (m : HexMap Data) (point1 point2 : HexPoint) c1 c2 :
  dict_get point1 (map_grid m) = Some c1 ->
  dict_get point2 (map_grid m) = Some c2 ->
  exists g',
    swap point1 point2 m = (Ok tt, with_grid g' m)
    /\ map fst g' = map fst (map_grid m)
    /\ forall k,
         dict_get k g'
         = if HexPoint_eqb k point1
           then Some (clearcache (set_data (cell_data c2) c1))
           else if HexPoint_eqb k point2
                then Some (clearcache (set_data (cell_data c1) c2))
                else dict_get k (map_grid m).
Proof.
  intros H1 H2.
  assert (Hc1 : HexMap_contains m point1 = true)
    by (apply dict_contains_get; eauto).
  assert (Hc2 : HexMap_contains m point2 = true)
    by (apply dict_contains_get; eauto).
  unfold swap. rewrite Hc1, Hc2. cbn [negb orb].
  erewrite bind_st_ok by (apply HexMap_get_found; exact H2).
  erewrite bind_st_ok by (apply HexMap_get_found; exact H1).
  unfold bind_st, mutate_cell. rewrite !with_grid_grid, !with_grid_twice.
  eexists. split; [reflexivity |]. split; [now rewrite !dict_update_keys |].
  intros k. rewrite !dict_get_update.
  destruct (HexPoint_eqb k point1) eqn:E1; destruct (HexPoint_eqb k point2) eqn:E2;
    try reflexivity.
  - apply HexPoint_eqb_eq in E1, E2. subst point1 point2.
    rewrite H1 in *. assert (c2 = c1) by congruence. subst c2.
    now destruct c1.
  - apply HexPoint_eqb_eq in E1. subst point1. now rewrite H1.
  - apply HexPoint_eqb_eq in E2. subst point2. now rewrite H2.
Qed.

(** X20: Swapping the same two points twice gives every cell its payload back:
    the map holds the same points in the same order with the same cells,
    but for the pixel caches of the two cells, which are empty.  The order
    of the two points does not matter to [swap]. *)
Theorem swap_twice (m : HexMap Data) (point1 point2 : HexPoint) c1 c2 :
  dict_get point1 (map_grid m) = Some c1 ->
  dict_get point2 (map_grid m) = Some c2 ->
  (exists g'',
      (_ <~ swap point1 point2 ;; swap point1 point2) m
      = (Ok tt, with_grid g'' m)
      /\ map fst g'' = map fst (map_grid m)
      /\ dict_get point1 g'' = Some (clearcache c1)
      /\ dict_get point2 g'' = Some (clearcache c2)
      /\ forall k, k <> point1 -> k <> point2 ->
                   dict_get k g'' = dict_get k (map_grid m))
  /\ fst (swap point2 point1 m) = fst (swap point1 point2 m)
  /\ map fst (map_grid (snd (swap point2 point1 m)))
     = map fst (map_grid (snd (swap point1 point2 m)))
  /\ forall k, dict_get k (map_grid (snd (swap point2 point1 m)))
               = dict_get k (map_grid (snd (swap point1 point2 m))).
Proof.
  intros H1 H2.
  destruct (swap_cells m point1 point2 c1 c2 H1 H2) as (g' & Hs & Hk & Hg).
  split.
  - set (m1 := with_grid g' m).
    assert (H1' : dict_get point1 (map_grid m1)
                  = Some (clearcache (set_data (cell_data c2) c1))).
    { unfold m1. rewrite with_grid_grid, Hg. now rewrite HexPoint_eqb_refl. }
    assert (H2' : exists c2', dict_get point2 (map_grid m1) = Some c2'
                              /\ cell_data c2' = cell_data c1
                              /\ clearcache (set_data (cell_data c2) c2')
                                 = clearcache c2).
    { unfold m1. rewrite with_grid_grid, Hg, HexPoint_eqb_refl.
      destruct (HexPoint_eqb point2 point1) eqn:E.
      - apply HexPoint_eqb_eq in E. subst point2.
        assert (c2 = c1) by congruence. subst c2.
        eexists. split; [reflexivity |]. split; [reflexivity |].
        now destruct c1.
      - eexists. split; [reflexivity |]. split; [reflexivity |].
        now destruct c2. }
    destruct H2' as (c2' & H2' & Hd & Hc).
    destruct (swap_cells m1 point1 point2 _ c2' H1' H2')
      as (g'' & Hs' & Hk' & Hg').
    exists g''. split.
    { unfold bind_st. rewrite Hs. fold m1. rewrite Hs'. unfold m1.
      now rewrite with_grid_twice. }
    unfold m1 in Hk', Hg'. rewrite with_grid_grid in Hk', Hg'.
    split; [congruence |]. split; [| split].
    + rewrite Hg', HexPoint_eqb_refl, Hd. now destruct c1.
    + rewrite Hg', HexPoint_eqb_refl.
      destruct (HexPoint_eqb point2 point1) eqn:E.
      * apply HexPoint_eqb_eq in E. subst point2.
        assert (c2 = c1) by congruence. subst c2.
        rewrite Hd. now destruct c1.
      * f_equal. rewrite clearcache_set_data. exact Hc.
    + intros k Hk1 Hk2. apply HexPoint_eqb_neq in Hk1, Hk2.
      now rewrite Hg', Hk1, Hk2, Hg, Hk1, Hk2.
  - destruct (swap_cells m point2 point1 c2 c1 H2 H1) as (g2 & Hs2 & Hk2 & Hg2).
    rewrite Hs, Hs2. cbn [fst snd]. rewrite !with_grid_grid.
    split; [reflexivity |]. split; [congruence |].
    intros k. rewrite Hg, Hg2.
    destruct (HexPoint_eqb k point1) eqn:E1;
      destruct (HexPoint_eqb k point2) eqn:E2; try reflexivity.
    apply HexPoint_eqb_eq in E1, E2. subst point1 point2.
    assert (c2 = c1) by congruence. now subst c2.
Qed.

End SwapTwice.

Lemma swap_twice_witness :
  let m : HexMap nat :=
    snd (HexMap_set (mkHexPoint 1 0 (-1)) (Payload (Some 7%nat))
           (snd (HexMap_set (mkHexPoint 0 0 0) (Payload None)
                   (HexMap_init (Int 1) POINTY_TOP)))) in
  exists g'',
    (_ <~ swap (mkHexPoint 0 0 0) (mkHexPoint 1 0 (-1)) ;;
     swap (mkHexPoint 0 0 0) (mkHexPoint 1 0 (-1))) m
    = (Ok tt, with_grid g'' m)
    /\ option_map cell_data (dict_get (mkHexPoint 1 0 (-1)) g'')
       = Some (Some 7%nat).
Proof.
  intros m.
  destruct (proj1 (swap_twice m (mkHexPoint 0 0 0) (mkHexPoint 1 0 (-1))
                     _ _ eq_refl eq_refl)) as (g'' & Hs & _ & _ & H2 & _).
  exists g''. split; [exact Hs |]. rewrite H2. reflexivity.
Defined.

Lemma rings_upto_prefix (n n' : Z) :
  n <= n' -> exists T, rings_upto n' = rings_upto n ++ T.
Proof.
  intros Hle. destruct (Z_le_gt_dec n 0) as [Hn | Hn].
  - exists (rings_upto n'). unfold rings_upto at 2, range.
    replace (Z.to_nat n) with 0%nat by lia. reflexivity.
  - replace n' with (n + Z.of_nat (Z.to_nat (n' - n))) by lia.
    induction (Z.to_nat (n' - n)) as [|k [T IH]].
    + exists []. now rewrite Z.add_0_r, app_nil_r.
    + exists (T ++ ring_of (n + Z.of_nat k)).
      replace (n + Z.of_nat (S k)) with (n + Z.of_nat k + 1) by lia.
      rewrite rings_upto_succ by lia. now rewrite IH, app_assoc.
Qed.

Section FillTwice.
Context {Data : Type}.

Lemma fill_to_radius_grid (m : HexMap Data) (n : Z) :
  fill_to_radius n m
  = (Ok tt,
     with_grid (map_grid m
                ++ map (new_cell m) (absent (map_grid m) (rings_upto n))) m).
Proof.
  unfold fill_to_radius. rewrite fill_rings.
  - rewrite <- (with_grid_same m) at 1.
    apply fill_points, rings_upto_NoDup.
  - intros i Hi. apply range_In in Hi. lia.
Qed.

Lemma contains_filled (m : HexMap Data) (g : dict Data) pts p :
  dict_contains p (g ++ map (new_cell m) (absent g pts))
  = dict_contains p g || existsb (HexPoint_eqb p) pts.
Proof.
  rewrite dict_contains_app.
  destruct (dict_contains p g) eqn:Ec; [reflexivity |]. cbn [orb].
  destruct (existsb (HexPoint_eqb p) pts) eqn:Ee.
  - apply dict_contains_new_cells. unfold absent. apply filter_In.
    apply existsb_exists in Ee. destruct Ee as (x & Hx & E).
    apply HexPoint_eqb_eq in E. subst x. split; [exact Hx | now rewrite Ec].
  - destruct (dict_contains p (map (new_cell m) (absent g pts))) eqn:E;
      [| reflexivity].
    apply dict_contains_new_cells in E. unfold absent in E.
    apply filter_In in E. destruct E as [Hin _].
    assert (existsb (HexPoint_eqb p) pts = true); [| congruence].
    apply existsb_exists. exists p. split; [exact Hin |].
    apply HexPoint_eqb_refl.
Qed.

Lemma new_cell_with_grid (g : dict Data) (m : HexMap Data) :
  new_cell (with_grid g m) = new_cell m.
Proof. reflexivity. Qed.

Lemma absent_app (g : dict Data) l l' :
  absent g (l ++ l') = absent g l ++ absent g l'.
Proof. unfold absent. apply filter_app. Qed.

Lemma absent_all_held (g : dict Data) pts :
  (forall p, In p pts -> dict_contains p g = true) -> absent g pts = [].
Proof.
  intros H. unfold absent. induction pts as [|p pts IH]; [reflexivity |].
  cbn [filter]. rewrite (H p) by now left. cbn [negb].
  apply IH. intros x Hx. apply H. now right.
Qed.

Lemma existsb_In (p : HexPoint) pts :
  existsb (HexPoint_eqb p) pts = true <-> In p pts.
Proof.
  rewrite existsb_exists. split.
  - intros (x & Hx & E). apply HexPoint_eqb_eq in E. now subst.
  - intros H. exists p. split; [exact H | apply HexPoint_eqb_refl].
Qed.

(** X21: Filling to one radius and then to another is filling to the larger of
    the two: the second call adds only the rings the first left out, and
    filling again to a radius already filled changes nothing. *)
Theorem fill_to_radius_max (m : HexMap Data) (n n' : Z) :
  (_ <~ fill_to_radius n ;; fill_to_radius n') m
  = fill_to_radius (Z.max n n') m
  /\ (n' <= n ->
      fill_to_radius n' (snd (fill_to_radius n m))
      = (Ok tt, snd (fill_to_radius n m)))
  /\ (n <= 0 -> fill_to_radius n m = (Ok tt, m)).
Proof.
  set (g := map_grid m).
  assert (Hsmall : forall a b, b <= a ->
            fill_to_radius b (snd (fill_to_radius a m))
            = (Ok tt, snd (fill_to_radius a m))).
  { intros a b Hle. rewrite (fill_to_radius_grid m a). cbn [snd].
    rewrite fill_to_radius_grid, with_grid_grid, with_grid_twice. fold g.
    rewrite (absent_all_held (g ++ map (new_cell m) (absent g (rings_upto a)))
               (rings_upto b)); [cbn [map]; now rewrite app_nil_r |].
    intros p Hp. rewrite contains_filled. apply orb_true_iff. right.
    apply existsb_In. destruct (rings_upto_prefix b a Hle) as [T ->].
    apply in_or_app. now left. }
  split; [| split].
  - unfold bind_st at 1.
    destruct (Z_le_gt_dec n' n) as [Hle | Hgt].
    + rewrite Z.max_l by lia. specialize (Hsmall n n' Hle).
      destruct (fill_to_radius n m) as [[[] | e] m1] eqn:E.
      * exact Hsmall.
      * rewrite fill_to_radius_grid in E. discriminate.
    + rewrite Z.max_r by lia.
      rewrite (fill_to_radius_grid m n), fill_to_radius_grid,
        with_grid_grid, with_grid_twice.
      rewrite (fill_to_radius_grid m n'), new_cell_with_grid. fold g.
      destruct (rings_upto_prefix n n' ltac:(lia)) as [T HT].
      pose proof (rings_upto_NoDup n') as Hnd. rewrite HT in Hnd |- *.
      set (A := absent g (rings_upto n)).
      set (g1 := g ++ map (new_cell m) A).
      rewrite !absent_app. fold A.
      assert (Hheld : absent g1 (rings_upto n) = []).
      { apply absent_all_held. intros p Hp. unfold g1, A.
        rewrite contains_filled. apply orb_true_iff. right.
        now apply existsb_In. }
      assert (Hrest : absent g1 T = absent g T).
      { unfold absent. apply filter_ext_in. intros p Hp. unfold g1, A.
        rewrite contains_filled.
        destruct (existsb (HexPoint_eqb p) (rings_upto n)) eqn:E;
          [| now rewrite orb_false_r].
        apply existsb_In in E. exfalso. clear - Hnd Hp E.
        induction (rings_upto n) as [|x l IH]; [contradiction |].
        cbn [app] in Hnd. inversion Hnd as [| ? ? Hx Hl]; subst.
        destruct E as [-> | E]; [| now apply IH].
        apply Hx. apply in_or_app. now right. }
      rewrite Hheld, Hrest. cbn [app]. unfold g1.
      now rewrite map_app, app_assoc.
  - intros Hle. now apply Hsmall.
  - intros Hn. rewrite fill_to_radius_grid.
    unfold rings_upto, range. replace (Z.to_nat n) with 0%nat by lia.
    cbn [seq map concat absent filter app]. rewrite app_nil_r.
    now rewrite with_grid_same.
Qed.

End FillTwice.

Lemma fill_to_radius_max_witness :
  let m : HexMap unit := HexMap_init (Int 100) POINTY_TOP in
  fill_to_radius 2 (snd (fill_to_radius 3 m))
  = (Ok tt, snd (fill_to_radius 3 m)).
Proof.
  intros m. apply (proj1 (proj2 (fill_to_radius_max m 3 2))). lia.
Defined.

(** ** Pixels to cells *)

Lemma bind_ok {A B} (c : result A) (k : A -> result B) (b : B) :
  bind c k = Ok b -> exists a, c = Ok a /\ k a = Ok b.
Proof. destruct c as [a |]; [eauto | discriminate]. Qed.

Lemma cube_round_zero_sum (frac_q frac_r : num) (frac_s : option num)
    (p : HexPoint) :
  cube_round frac_q frac_r frac_s = Ok p -> zero_sum p.
Proof.
  unfold cube_round. intros H.
  repeat (apply bind_ok in H; destruct H as (? & _ & H)).
  injection H as <-. apply correct_largest_zero_sum.
Qed.

Lemma returns_exactly_eq (c : result HexPoint) (p : HexPoint) :
  returns_exactly c p = true -> c = Ok p.
Proof.
  destruct c as [p' |]; cbn [returns_exactly]; [| discriminate].
  intros H. apply HexPoint_eqb_eq in H. now subst.
Qed.

Section Pixels.
Context {Data : Type}.

(** X22: [pixel_to_hex] returns grid points only: whatever the pixel and the
    map, a point it returns has [q + r + s = 0].  On a new map of radius 0
    it raises ZeroDivisionError. *)
Theorem pixel_to_hex_on_grid :
  (forall (m m' : HexMap Data) (target_x target_y : num) (p : HexPoint),
      pixel_to_hex target_x target_y m = (Ok p, m') -> zero_sum p)
  /\ (forall (o : GridOrientation) (x y : Z),
         Z.abs x < 2 ^ 1000 ->
         fst (pixel_to_hex (Int x) (Int y)
                (HexMap_init (Int 0) o : HexMap Data))
         = Raise ZeroDivisionError).
Proof.
  split.
  - intros m m' tx ty p. unfold pixel_to_hex, bind_st, lift_st.
    destruct (Num.sub tx (width (map_offset m))) as [x |]; [| discriminate].
    destruct (Num.sub ty (height (map_offset m))) as [y |]; [| discriminate].
    destruct (map_orientation m).
    + intros H. injection H as H _. unfold _pixel_to_pointy_hex in H.
      repeat (apply bind_ok in H; destruct H as (? & _ & H)).
      injection H as <-. apply correct_largest_zero_sum.
    + unfold _pixel_to_flat_hex, bind_st, lift_st.
      destruct (HexMap_size m) as [[sz |] m1]; [| discriminate].
      destruct (truediv (width sz) (Int 2)) as [w |]; [| discriminate].
      destruct (truediv x w) as [x' |]; [| discriminate].
      destruct (HexMap_size m1) as [[sz' |] m2]; [| discriminate].
      destruct (truediv (height sz') (Int 2)) as [h |]; [| discriminate].
      destruct (truediv y h) as [y' |]; [| discriminate].
      intros H. injection H as H _. unfold flat_axial in H.
      repeat (apply bind_ok in H; destruct H as (? & _ & H)).
      injection H as <-. apply correct_largest_zero_sum.
  - intros o x y Hx.
    assert (Hbig : 2 ^ 1000 < overflow_threshold)
      by (apply Z.ltb_lt; vm_compute; reflexivity).
    destruct o.
    + reflexivity.
    + unfold pixel_to_hex, bind_st, lift_st.
      cbn [HexMap_init map_offset width height Num.sub map_orientation].
      unfold _pixel_to_flat_hex, bind_st, lift_st.
      change (HexMap_size (HexMap_init (Int 0) FLAT_TOP : HexMap Data))
        with (Ok (mkSize (Int 0) (Float (S754_zero false))),
              with_reference
                (set_size (mkSize (Int 0) (Float (S754_zero false)))
                   (HexCell_init FLAT_TOP (mkHexPoint 0 0 0) (Int 0) None))
                (HexMap_init (Int 0) FLAT_TOP : HexMap Data)).
      cbn [width].
      change (truediv (Int 0) (Int 2)) with (Ok (Float (S754_zero false))).
      unfold truediv, as_float, of_int.
      assert (Hlt : (Z.abs (x - 0) <? overflow_threshold) = true)
        by (apply Z.ltb_lt; lia).
      rewrite Hlt. reflexivity.
Qed.

(** X23: The centre of a cell and [pixel_to_hex] do not agree.  Checked on new
    maps of the radii 1, 2, 3, 7, 10, 33, 50, 64, 100 and 1000: on a
    pointy-topped map the pixel centre of every cell of the rings 0 to 5 is
    taken to the neighbour of the cell in direction 3, never to the cell;
    on a flat-topped map the pixel centre of every cell of the rings 0 to 3
    is taken to the cell, and that of the cell (0, -4, 4) of ring 4 to the
    cell (0, -5, 5). *)
Theorem pixel_round_trip_checked (radius : Z) (p : HexPoint) :
  In radius checked_radii ->
  (In p (rings_upto 6) ->
   pixel_round_trip (Data := Data) POINTY_TOP (Int radius) p
   = cube_neighbor p 3)
  /\ (In p (rings_upto 4) ->
      pixel_round_trip (Data := Data) FLAT_TOP (Int radius) p = Ok p)
  /\ pixel_round_trip (Data := Data) FLAT_TOP (Int radius)
       (mkHexPoint 0 (-4) 4)
     = Ok (mkHexPoint 0 (-5) 5).
Proof.
  intros Hr.
  assert (Hp : forallb (fun radius =>
                 forallb (fun p =>
                   returns_exactly (pixel_round_trip (Data := Data) POINTY_TOP
                              (Int radius) p)
                     (HexPoint_add p (mkHexPoint (-1) 0 1)))
                   (rings_upto 6)) checked_radii = true)
    by (vm_compute; reflexivity).
  assert (Hf : forallb (fun radius =>
                 forallb (fun p =>
                   returns_exactly (pixel_round_trip (Data := Data) FLAT_TOP
                              (Int radius) p) p)
                   (rings_upto 4)
                 && returns_exactly (pixel_round_trip (Data := Data) FLAT_TOP
                               (Int radius) (mkHexPoint 0 (-4) 4))
                      (mkHexPoint 0 (-5) 5)) checked_radii = true)
    by (vm_compute; reflexivity).
  rewrite forallb_forall in Hp, Hf.
  specialize (Hp radius Hr). specialize (Hf radius Hr).
  apply andb_true_iff in Hf. destruct Hf as [Hf Hf4].
  rewrite forallb_forall in Hp, Hf.
  split; [| split].
  - intros Hin. rewrite (returns_exactly_eq _ _ (Hp p Hin)). reflexivity.
  - intros Hin. now apply returns_exactly_eq, Hf.
  - now apply returns_exactly_eq.
Qed.

End Pixels.

Lemma pixel_to_hex_on_grid_witness :
  fst (pixel_to_hex (Int 10) (Int 20) (HexMap_init (Int 0) FLAT_TOP : HexMap unit))
  = Raise ZeroDivisionError.
Proof.
  apply (proj2 (pixel_to_hex_on_grid (Data := unit)) FLAT_TOP 10 20).
  apply Z.ltb_lt. vm_compute. reflexivity.
Defined.

Lemma pixel_round_trip_checked_witness :
  pixel_round_trip (Data := unit) POINTY_TOP (Int 100) (mkHexPoint 2 (-1) (-1))
  = cube_neighbor (mkHexPoint 2 (-1) (-1)) 3.
Proof.
  apply (proj1 (pixel_round_trip_checked (Data := unit) 100
                  (mkHexPoint 2 (-1) (-1))
                  ltac:(cbn; tauto))).
  vm_compute. tauto.
Defined.

(** ** Negative spiral indices *)

(** X24: [spiral_to_cube] on a negative index raises TypeError: the square root
    of a negative number is a [complex], which [int()] refuses, whatever
    the C library's [pow] is.  Checked index by index from [-1] down to
    [-7651]. *)
Theorem spiral_to_cube_negative_checked
    (libm_pow : spec_float -> spec_float -> spec_float) (index : Z) :
  - checked_indices <= index < 0 ->
  _spiral_index_to_radius libm_pow index = Raise TypeError
  /\ spiral_to_cube libm_pow index = Raise TypeError.
Proof.
  intros Hi.
  assert (Hall : forallb
                   (fun i => match _spiral_index_to_radius libm_pow
                                     (- (i + 1)) with
                             | Raise TypeError => true
                             | _ => false
                             end)
                   (range checked_indices) = true)
    by (vm_compute; reflexivity).
  rewrite forallb_forall in Hall.
  assert (Hin : In (- index - 1) (range checked_indices))
    by (apply range_In; lia).
  specialize (Hall _ Hin). cbn beta in Hall.
  replace (- (- index - 1 + 1)) with index in Hall by lia.
  assert (Hr : _spiral_index_to_radius libm_pow index = Raise TypeError)
    by (destruct (_spiral_index_to_radius libm_pow index) as [z | []];
        discriminate Hall || reflexivity).
  split; [exact Hr |]. unfold spiral_to_cube. now rewrite Hr.
Qed.

Lemma spiral_to_cube_negative_checked_witness :
  spiral_to_cube sqrt_pow (-1) = Raise TypeError.
Proof.
  apply (proj2 (spiral_to_cube_negative_checked sqrt_pow (-1) ltac:(split;
           [apply Z.leb_le; vm_compute; reflexivity | lia]))).
Defined.
